(** * Burger platformer: engine frame loop, platform bounds, customer orders

    A shallow embedding of three TypeScript sources:

    - [Engine] (the render loop with frame pacing, WebGL context loss
      handling, [run]/[stop]),
    - [Platform] (axis-aligned bounds computed at construction),
    - [Customer] (interaction radius and order validation), with the
      customer block of [PlatformerGame.update] from the same source.

    Numbers.  A JavaScript number is an IEEE-754 binary64 value.  The
    geometry code ([Platform], [Customer]) and the engine's clock
    ([Engine64]: timestamps, frame interval, the remainder of the pacing
    step, delta time) are evaluated on Rocq's primitive floats, with
    rounding, NaN and the infinities as the code has them; [%] on numbers
    is modelled on the binary64 representation ([JS64.rem]).  The
    statements about scheduling, context loss, rendering errors and game
    sessions depend on the clock only through which branch a comparison
    takes; they are proved on [Engine], the same methods with the number
    type read as an exact rational.

    Effects.  Calls that leave the engine (the game's hooks, the input
    collaborator, the draw call, the animation-frame scheduler, the console)
    are recorded in order in a log of [Effect]s; the engine's methods run in
    a small state-and-exception monad over the [World]. *)

From Stdlib Require Import ZArith QArith Qround Lqa Lia List Bool String Floats.
Import ListNotations.

Set Warnings "-inexact-float".

(* ================================================================== *)
(** ** three.js values used by the game objects *)

Module Three.

(** THREE.Vector3 over JavaScript numbers. *)
Record Vector3 : Set := mkVector3 { x : float; y : float; z : float }.

(** Vector3.distanceToSquared: dx*dx + dy*dy + dz*dz. *)
Definition distanceToSquared (a v : Vector3) : float :=
  let dx := (x a - x v)%float in
  let dy := (y a - y v)%float in
  let dz := (z a - z v)%float in
  (dx * dx + dy * dy + dz * dz)%float.

(** Vector3.distanceTo: Math.sqrt of the squared distance. *)
Definition distanceTo (a v : Vector3) : float :=
  PrimFloat.sqrt (distanceToSquared a v).

(** Vector3.clone. *)
Definition clone (v : Vector3) : Vector3 := mkVector3 (x v) (y v) (z v).

End Three.

(* ================================================================== *)
(** ** Platform.ts *)

Module Platform.
Import Three.

(** interface PlatformConfig. *)
Record PlatformConfig : Set := mkPlatformConfig {
  position : Vector3;
  size : Vector3;
  color : option Z;
  visible : option bool
}.

(** interface Bounds. *)
Record Bounds : Set := mkBounds { min : Vector3; max : Vector3 }.

(** The box mesh of a visible platform: geometry size, material colour
    and position (its shadow flags and its place in the scene graph play
    no part in the bounds). *)
Record Mesh : Set := mkMesh {
  geometrySize : Vector3;
  materialColor : Z;
  meshPosition : Vector3
}.

Record Platform : Set := mkPlatform { mesh : option Mesh; bounds : Bounds }.

(** [config.visible !== false]. *)
Definition isVisible (config : PlatformConfig) : bool :=
  match visible config with
  | Some false => false
  | _ => true
  end.

(** The constructor: the bounds are the centre minus and plus half the
    size on each axis; a mesh is created unless [visible] is false
    ([color ?? 0x8b4513]). *)
Definition new (config : PlatformConfig) : Platform :=
  {| bounds :=
       {| min := mkVector3
                   (x (position config) - x (size config) / 2)%float
                   (y (position config) - y (size config) / 2)%float
                   (z (position config) - z (size config) / 2)%float;
          max := mkVector3
                   (x (position config) + x (size config) / 2)%float
                   (y (position config) + y (size config) / 2)%float
                   (z (position config) + z (size config) / 2)%float |};
     mesh :=
       if isVisible config then
         Some {| geometrySize := size config;
                 materialColor :=
                   match color config with Some c => c | None => 0x8b4513%Z end;
                 meshPosition := position config |}
       else None |}.

Definition getBounds (p : Platform) : Bounds := bounds p.

(** A point lies in the closed interval [[min, max]] on the three axes. *)
Definition withinBounds (b : Bounds) (p : Vector3) : bool :=
  (x (min b) <=? x p)%float && (x p <=? x (max b))%float &&
  (y (min b) <=? y p)%float && (y p <=? y (max b))%float &&
  (z (min b) <=? z p)%float && (z p <=? z (max b))%float.

End Platform.

(* ================================================================== *)
(** ** Customer.ts *)

Module Customer.
Import Three.

(** Modelled from the spec: the enum IngredientType is declared in
    Ingredient.ts, which is not among the sources, and the spec leaves the
    ordering rules out of scope.  Its members are the keys of the
    exhaustive [Record<IngredientType, number>] literal in
    [Customer.getIngredientColor]. *)
Inductive IngredientType : Set :=
| LETTUCE | BACON | CHEESE | TOMATO | PICKLE | ONION.

Definition IngredientType_eqb (a b : IngredientType) : bool :=
  match a, b with
  | LETTUCE, LETTUCE | BACON, BACON | CHEESE, CHEESE
  | TOMATO, TOMATO | PICKLE, PICKLE | ONION, ONION => true
  | _, _ => false
  end.

(** interface CustomerOrder. *)
Record CustomerOrder : Set := mkOrder { ingredients : list IngredientType }.

(** The fields of a customer that the queries read. *)
Record Customer : Set := mkCustomer {
  position : Vector3;
  order : CustomerOrder;
  orderFulfilled : bool;
  interactionRadius : float
}.

(** The constructor: the position is cloned, the order is kept, the order
    starts unfulfilled and the interaction radius is 2.5. *)
Definition new (pos : Vector3) (o : CustomerOrder) : Customer :=
  {| position := clone pos;
     order := o;
     orderFulfilled := false;
     interactionRadius := 2.5%float |}.

Definition checkInteraction (c : Customer) (playerPosition : Vector3) : bool :=
  if orderFulfilled c then false
  else
    let distance := distanceTo (position c) playerPosition in
    (distance <? interactionRadius c)%float.

(** [a[i] !== b[i]] on array reads: an index past the end reads
    [undefined] ([None]), which differs from every ingredient. *)
Definition strictNotEqual (a b : option IngredientType) : bool :=
  match a, b with
  | Some u, Some v => negb (IngredientType_eqb u v)
  | None, None => false
  | _, _ => true
  end.

(** The [for] loop of [validateOrder], with [remaining] iterations left
    before [i] reaches [order.ingredients.length]. *)
Fixpoint validateOrder_loop (remaining i : nat)
         (playerIngredients required : list IngredientType) : bool :=
  match remaining with
  | O => true
  | S remaining' =>
      if strictNotEqual (nth_error playerIngredients i) (nth_error required i)
      then false
      else validateOrder_loop remaining' (S i) playerIngredients required
  end.

Definition validateOrder (c : Customer)
           (playerIngredients : list IngredientType) : bool :=
  if orderFulfilled c then false
  else if negb (List.length playerIngredients =? List.length (ingredients (order c)))%nat
  then false
  else validateOrder_loop (List.length (ingredients (order c))) 0
                          playerIngredients (ingredients (order c)).

Definition fulfillOrder (c : Customer) : Customer :=
  {| position := position c;
     order := order c;
     orderFulfilled := true;
     interactionRadius := interactionRadius c |}.

Definition isOrderFulfilled (c : Customer) : bool := orderFulfilled c.

End Customer.

(* ================================================================== *)
(** ** JavaScript number operations on the idealised rationals *)

Module JS.
Local Open Scope Q_scope.

(** Math.trunc: rounding toward zero. *)
Definition trunc (q : Q) : Z :=
  if Qle_bool 0 q then Qfloor q else Qceiling q.

(** The remainder operator [a % b]: [a - b * trunc (a / b)], with the sign
    of the dividend.  ([b = 0] gives NaN in JavaScript; the engine's
    divisor is a frame interval, which is never zero.) *)
Definition rem (a b : Q) : Q := a - b * inject_Z (trunc (a / b)).

(** [a < b] on numbers. *)
Definition lt (a b : Q) : bool := negb (Qle_bool b a).

(** Truthiness of a number: every number but zero. *)
Definition truthy (q : Q) : bool := negb (Qeq_bool q 0).

(** Math.min. *)
Definition min (a b : Q) : Q := if Qle_bool a b then a else b.

(** [v ?? d]. *)
Definition nullish {A : Type} (v : option A) (d : A) : A :=
  match v with Some a => a | None => d end.

End JS.

(* ================================================================== *)
(** ** Engine: data *)

Module Engine.
Local Open Scope Q_scope.
Local Open Scope string_scope.

(** The metrics of [window] that the engine reads. *)
Record Window : Set := mkWindow {
  innerWidth : Q;
  innerHeight : Q;
  devicePixelRatio : Q
}.

(** Modelled from the spec: EngineConfig is declared in Types.ts, which is
    not among the sources.  The configuration surface of the spec is
    [{antialiasing, maxPixelRatio: optional number, shadowsEnabled}]; the
    engine reads [antialias ?? true], [maxPixelRatio] and
    [enableShadows ?? true], so all three are optional.  (The canvas
    element carries no data the model uses.) *)
Record EngineConfig : Set := mkConfig {
  antialias : option bool;
  maxPixelRatio : option Q;
  enableShadows : option bool
}.

(** Modelled from the spec: Game is declared in Types.ts, which is not
    among the sources.  A game instance exposes [update(deltaSeconds)],
    [dispose()] and optionally [onResize(width, height)]; it is an opaque
    collaborator, identified here by [gameId]. *)
Record Game : Set := mkGame { gameId : nat; onResize : bool }.

Inductive ShadowMapType : Set :=
| BasicShadowMap | PCFShadowMap | PCFSoftShadowMap.

(** The settings of THREE.WebGLRenderer that the engine writes. *)
Record WebGLRenderer : Set := mkRenderer {
  antialiasing : bool;
  width : Q;
  height : Q;
  pixelRatio : Q;
  shadowMapEnabled : bool;
  shadowMapType : ShadowMapType
}.

Record Fog : Set := mkFog { fogColor : Z; fogNear : Q; fogFar : Q }.

Record Scene : Set := mkScene { background : option Z; fog : option Fog }.

Record PerspectiveCamera : Set := mkCamera {
  fov : Q; aspect : Q; near : Q; far : Q
}.

(** The fields of class Engine (the canvas, the input objects and the
    asset loader hold nothing the loop reads). *)
Record Engine : Set := mkEngine {
  scene : Scene;
  camera : PerspectiveCamera;
  renderer : WebGLRenderer;
  game : option Game;
  lastTime : Q;
  animationId : option nat;
  config : EngineConfig;
  isContextLost : bool;
  targetFPS : Q;
  frameInterval : Q;
  lastFrameTime : Q
}.

(** The engine together with the part of the browser it talks to: the
    window metrics and the counter from which requestAnimationFrame draws
    its handles. *)
Record World : Set := mkWorld {
  engine : Engine;
  window : Window;
  rafCounter : nat
}.

(** Calls that leave the engine, in the order they are made. *)
Inductive Effect : Set :=
| RequestAnimationFrame (handle : nat)
| CancelAnimationFrame (handle : nat)
| GameUpdate (g : nat) (deltaTime : Q)
| GameDispose (g : nat)
| GameOnResize (g : nat) (w h : Q)
| InputResetMouseDelta
| RendererRender
| ConsoleLog (msg : string)
| ConsoleWarn (msg : string)
| ConsoleError (msg : string).

(** What the browser and the WebGL driver answer during one call of
    [animate]: whether the context is found lost at the validity check
    before pacing, whether the draw call throws, and what
    [isContextLost()] answers at the two checks of the catch block. *)
Record FrameOracle : Set := mkOracle {
  glLostBefore : bool;
  renderThrows : bool;
  glLostInCatch : bool;
  glLostOnRecheck : bool
}.

(** *** Field updates *)

Definition set_scene (v : Scene) (e : Engine) : Engine :=
  mkEngine v (camera e) (renderer e) (game e) (lastTime e) (animationId e)
           (config e) (isContextLost e) (targetFPS e) (frameInterval e)
           (lastFrameTime e).
Definition set_camera (v : PerspectiveCamera) (e : Engine) : Engine :=
  mkEngine (scene e) v (renderer e) (game e) (lastTime e) (animationId e)
           (config e) (isContextLost e) (targetFPS e) (frameInterval e)
           (lastFrameTime e).
Definition set_renderer (v : WebGLRenderer) (e : Engine) : Engine :=
  mkEngine (scene e) (camera e) v (game e) (lastTime e) (animationId e)
           (config e) (isContextLost e) (targetFPS e) (frameInterval e)
           (lastFrameTime e).
Definition set_game (v : option Game) (e : Engine) : Engine :=
  mkEngine (scene e) (camera e) (renderer e) v (lastTime e) (animationId e)
           (config e) (isContextLost e) (targetFPS e) (frameInterval e)
           (lastFrameTime e).
Definition set_lastTime (v : Q) (e : Engine) : Engine :=
  mkEngine (scene e) (camera e) (renderer e) (game e) v (animationId e)
           (config e) (isContextLost e) (targetFPS e) (frameInterval e)
           (lastFrameTime e).
Definition set_animationId (v : option nat) (e : Engine) : Engine :=
  mkEngine (scene e) (camera e) (renderer e) (game e) (lastTime e) v
           (config e) (isContextLost e) (targetFPS e) (frameInterval e)
           (lastFrameTime e).
Definition set_isContextLost (v : bool) (e : Engine) : Engine :=
  mkEngine (scene e) (camera e) (renderer e) (game e) (lastTime e)
           (animationId e) (config e) v (targetFPS e) (frameInterval e)
           (lastFrameTime e).
Definition set_lastFrameTime (v : Q) (e : Engine) : Engine :=
  mkEngine (scene e) (camera e) (renderer e) (game e) (lastTime e)
           (animationId e) (config e) (isContextLost e) (targetFPS e)
           (frameInterval e) v.

(** renderer.setSize, renderer.setPixelRatio and the two shadowMap
    assignments. *)
Definition setSize (w h : Q) (r : WebGLRenderer) : WebGLRenderer :=
  mkRenderer (antialiasing r) w h (pixelRatio r)
             (shadowMapEnabled r) (shadowMapType r).
Definition setPixelRatio (v : Q) (r : WebGLRenderer) : WebGLRenderer :=
  mkRenderer (antialiasing r) (width r) (height r) v
             (shadowMapEnabled r) (shadowMapType r).
Definition setShadowMap (t : ShadowMapType) (r : WebGLRenderer) : WebGLRenderer :=
  mkRenderer (antialiasing r) (width r) (height r) (pixelRatio r) true t.

(** [config.maxPixelRatio ? ... : ...]: a cap that is absent or zero is
    falsy. *)
Definition hasPixelRatioCap (cfg : EngineConfig) : bool :=
  match maxPixelRatio cfg with
  | Some m => JS.truthy m
  | None => false
  end.

(** [config.maxPixelRatio ? Math.min(devicePixelRatio, maxPixelRatio)
                          : devicePixelRatio]. *)
Definition effectivePixelRatio (cfg : EngineConfig) (win : Window) : Q :=
  match maxPixelRatio cfg with
  | Some m => if JS.truthy m then JS.min (devicePixelRatio win) m
              else devicePixelRatio win
  | None => devicePixelRatio win
  end.

(** [config.maxPixelRatio ? BasicShadowMap : PCFSoftShadowMap]. *)
Definition shadowTypeFor (cfg : EngineConfig) : ShadowMapType :=
  if hasPixelRatioCap cfg then BasicShadowMap else PCFSoftShadowMap.

(** The renderer settings written by the constructor and again by the
    context-restored listener: size from the window, pixel ratio, and the
    shadow map when [enableShadows ?? true]. *)
Definition applyRendererSettings (cfg : EngineConfig) (win : Window)
           (r : WebGLRenderer) : WebGLRenderer :=
  let r1 := setSize (innerWidth win) (innerHeight win) r in
  let r2 := setPixelRatio (effectivePixelRatio cfg win) r1 in
  if JS.nullish (enableShadows cfg) true
  then setShadowMap (shadowTypeFor cfg) r2
  else r2.

(* ---------------------------------------------------------------- *)
(** *** The monad of engine methods

    A computation reads and writes the [World], appends to the effect
    log, and completes normally or abruptly with a thrown error. *)

Inductive Completion (A : Type) : Type :=
| Normal (a : A)
| Thrown (error : string).
Arguments Normal {A} a.
Arguments Thrown {A} error.

Definition M (A : Type) : Type := World -> Completion A * World * list Effect.

Definition ret {A : Type} (a : A) : M A := fun w => (Normal a, w, []).

Definition bind {A B : Type} (m : M A) (k : A -> M B) : M B :=
  fun w =>
    match m w with
    | (Normal a, w1, l1) =>
        match k a w1 with
        | (c, w2, l2) => (c, w2, (l1 ++ l2)%list)
        end
    | (Thrown err, w1, l1) => (Thrown err, w1, l1)
    end.

Notation "x <- m ;; k" := (bind m (fun x => k))
  (at level 61, m at next level, right associativity).
Notation "m ;; k" := (bind m (fun _ => k))
  (at level 61, right associativity).

Definition throw {A : Type} (err : string) : M A :=
  fun w => (Thrown err, w, []).

(** [try { body } catch (error) { handler }]. *)
Definition tryCatch {A : Type} (body : M A) (handler : string -> M A) : M A :=
  fun w =>
    match body w with
    | (Normal a, w1, l1) => (Normal a, w1, l1)
    | (Thrown err, w1, l1) =>
        match handler err w1 with
        | (c, w2, l2) => (c, w2, (l1 ++ l2)%list)
        end
    end.

Definition emit (ef : Effect) : M unit := fun w => (Normal tt, w, [ef]).

Definition this : M Engine := fun w => (Normal (engine w), w, []).

Definition getWindow : M Window := fun w => (Normal (window w), w, []).

Definition modify (f : Engine -> Engine) : M unit :=
  fun w => (Normal tt, mkWorld (f (engine w)) (window w) (rafCounter w), []).

Definition when (b : bool) (m : M unit) : M unit := if b then m else ret tt.

(** requestAnimationFrame: the browser hands out the next handle. *)
Definition requestAnimationFrame : M nat :=
  fun w =>
    let h := S (rafCounter w) in
    (Normal h, mkWorld (engine w) (window w) h, [RequestAnimationFrame h]).

(** renderer.render(scene, camera): the draw call, which may throw. *)
Definition render (o : FrameOracle) : M unit :=
  emit RendererRender ;;
  if renderThrows o then throw "render" else ret tt.

(* ---------------------------------------------------------------- *)
(** *** The methods of class Engine *)

(** The scene's default background colour. *)
Definition skyBlue : Z := 0x87ceeb%Z.

(** The constructor.  [isMobile] is [config.maxPixelRatio !== undefined];
    it selects the frame interval and disables the fog. *)
Definition new (cfg : EngineConfig) (win : Window) : World * list Effect :=
  let isMobile := match maxPixelRatio cfg with Some _ => true | None => false end in
  let e :=
    {| config := cfg;
       game := None;
       lastTime := 0;
       animationId := None;
       isContextLost := false;
       targetFPS := if isMobile then 30 else 60;
       frameInterval := if isMobile then 1000 / 30 else 1000 / 60;
       lastFrameTime := 0;
       scene := {| background := Some skyBlue;
                   fog := if negb isMobile
                          then Some (mkFog skyBlue 20 80) else None |};
       camera := mkCamera 75 (innerWidth win / innerHeight win) (1 # 10) 1000;
       renderer :=
         applyRendererSettings cfg win
           (mkRenderer (JS.nullish (antialias cfg) true)
                       0 0 1 false PCFShadowMap) |} in
  (mkWorld e win 0, [ConsoleLog "[Engine] Initialized"]).

(** The webglcontextlost listener registered by setupContextLossHandling
    (the renderer of a constructed engine always has a context). *)
Definition onContextLost : M unit :=
  modify (set_isContextLost true) ;;
  emit (ConsoleWarn "[Engine] WebGL context lost").

(** The webglcontextrestored listener registered by
    setupContextLossHandling. *)
Definition onContextRestored : M unit :=
  modify (set_isContextLost false) ;;
  emit (ConsoleLog "[Engine] WebGL context restored") ;;
  e <- this ;;
  win <- getWindow ;;
  modify (set_renderer (applyRendererSettings (config e) win (renderer e))).

Definition handleResize : M unit :=
  win <- getWindow ;;
  let width := innerWidth win in
  let height := innerHeight win in
  e <- this ;;
  modify (set_camera (mkCamera (fov (camera e)) (width / height)
                               (near (camera e)) (far (camera e)))) ;;
  modify (set_renderer (setSize width height (renderer e))) ;;
  match game e with
  | Some g => when (onResize g) (emit (GameOnResize (gameId g) width height))
  | None => ret tt
  end.

(** The catch block of [animate]. *)
Definition onRenderError (o : FrameOracle) (error : string) : M unit :=
  if glLostInCatch o then
    modify (set_isContextLost true) ;;
    emit (ConsoleWarn "[Engine] Rendering failed - context lost")
  else
    emit (ConsoleError "[Engine] Rendering error:") ;;
    when (glLostOnRecheck o) (modify (set_isContextLost true)).

(** The main render loop, one callback. *)
Definition animate (time : Q) (o : FrameOracle) : M unit :=
  h <- requestAnimationFrame ;;
  modify (set_animationId (Some h)) ;;
  e <- this ;;
  if isContextLost e then ret tt
  else if glLostBefore o then modify (set_isContextLost true)
  else
    let elapsed := time - lastFrameTime e in
    if JS.lt elapsed (frameInterval e) then ret tt
    else
      modify (set_lastFrameTime (time - JS.rem elapsed (frameInterval e))) ;;
      let deltaTime :=
        if JS.truthy (lastTime e) then (time - lastTime e) / 1000 else 0 in
      modify (set_lastTime time) ;;
      match game e with
      | Some g => emit (GameUpdate (gameId g) deltaTime)
      | None => ret tt
      end ;;
      emit InputResetMouseDelta ;;
      match background (scene e) with
      | None => modify (set_scene (mkScene (Some skyBlue) (fog (scene e))))
      | Some _ => ret tt
      end ;;
      tryCatch (render o) (onRenderError o).

Definition stop : M unit :=
  e <- this ;;
  match animationId e with
  | Some h => emit (CancelAnimationFrame h) ;; modify (set_animationId None)
  | None => ret tt
  end ;;
  match game e with
  | Some g => emit (GameDispose (gameId g)) ;; modify (set_game None)
  | None => ret tt
  end ;;
  emit (ConsoleLog "[Engine] Stopped").

Definition run (g : Game) (o : FrameOracle) : M unit :=
  e <- this ;;
  match game e with
  | Some _ => emit (ConsoleWarn "[Engine] Stopping previous game") ;; stop
  | None => ret tt
  end ;;
  modify (set_game (Some g)) ;;
  modify (set_lastTime 0) ;;
  modify (set_lastFrameTime 0) ;;
  emit (ConsoleLog "[Engine] Starting game") ;;
  animate 0 o.

(* ---------------------------------------------------------------- *)
(** *** The engine in the browser's event loop *)

(** What can happen to a constructed engine: the pending animation-frame
    callback fires with a timestamp; the canvas signals context loss or
    restoration; the window's metrics change; the resize listener fires;
    the application calls [run] or [stop].  ([dispose] ends the engine's
    life and is not an event of the loop.) *)
Inductive Event : Set :=
| AnimationFrame (time : Q) (o : FrameOracle)
| WebGLContextLost
| WebGLContextRestored
| WindowChanged (win : Window)
| WindowResize
| Run (g : Game) (o : FrameOracle)
| Stop.

(** One event.  An animation-frame callback fires only while one is
    scheduled, that is while [animationId] is not null: [stop] cancels
    the pending request. *)
Definition handle (ev : Event) : M unit :=
  match ev with
  | AnimationFrame time o =>
      e <- this ;;
      match animationId e with
      | Some _ => animate time o
      | None => ret tt
      end
  | WebGLContextLost => onContextLost
  | WebGLContextRestored => onContextRestored
  | WindowChanged win =>
      fun w => (Normal tt, mkWorld (engine w) win (rafCounter w), [])
  | WindowResize => handleResize
  | Run g o => run g o
  | Stop => stop
  end.

(** A sequence of events, each handled to completion before the next;
    the result is the final world and the whole effect log. *)
Fixpoint exec (evs : list Event) (w : World) : World * list Effect :=
  match evs with
  | [] => (w, [])
  | ev :: rest =>
      match handle ev w with
      | (_, w1, l1) =>
          match exec rest w1 with
          | (w2, l2) => (w2, (l1 ++ l2)%list)
          end
      end
  end.

(** The [deltaTime] arguments of the [update] calls in a log. *)
Fixpoint updateDeltas (l : list Effect) : list Q :=
  match l with
  | [] => []
  | GameUpdate _ d :: rest => d :: updateDeltas rest
  | _ :: rest => updateDeltas rest
  end.

End Engine.

(* ================================================================== *)
(** * Vocabulary of the statements *)

Module Vocabulary.
Import Engine.
Local Open Scope Q_scope.

(** The platform of the worked example: centre (0,0,0), size (2,2,2). *)
Definition unitBox (col : option Z) (vis : option bool) : Platform.Platform :=
  Platform.new
    (Platform.mkPlatformConfig (Three.mkVector3 0 0 0) (Three.mkVector3 2 2 2)
                               col vis).

Definition completionOf {A : Type} (r : Completion A * World * list Effect)
  : Completion A := fst (fst r).
Definition worldOf {A : Type} (r : Completion A * World * list Effect)
  : World := snd (fst r).
Definition effectsOf {A : Type} (r : Completion A * World * list Effect)
  : list Effect := snd r.

(** The world after a callback that only re-schedules itself. *)
Definition rescheduled (w : World) : World :=
  mkWorld (set_animationId (Some (S (rafCounter w))) (engine w))
          (window w) (S (rafCounter w)).

(** The work of a tick: the game's update, the input reset, the draw
    call. *)
Definition isTickWork (ef : Effect) : bool :=
  match ef with
  | GameUpdate _ _ | InputResetMouseDelta | RendererRender => true
  | _ => false
  end.

Definition noTickWork (l : list Effect) : Prop :=
  existsb isTickWork l = false.

(** The [update] call made to the active game, if there is one. *)
Definition updateCall (g : option Game) (deltaTime : Q) : list Effect :=
  match g with
  | Some g => [GameUpdate (gameId g) deltaTime]
  | None => []
  end.

(** The renderer carries what the constructor and the restoration
    listener would write for the current window. *)
Definition rendererInSync (w : World) : Prop :=
  renderer (engine w) =
  applyRendererSettings (config (engine w)) (window w) (renderer (engine w)).

Definition isRun (ev : Event) : bool :=
  match ev with Run _ _ => true | _ => false end.

Definition isRestored (ev : Event) : bool :=
  match ev with WebGLContextRestored => true | _ => false end.

(** The games whose [dispose] hook is called in a log, in order. *)
Fixpoint disposed (l : list Effect) : list nat :=
  match l with
  | [] => []
  | GameDispose g :: rest => g :: disposed rest
  | _ :: rest => disposed rest
  end.

(** The games whose [update] is called in a log, in order. *)
Fixpoint updated (l : list Effect) : list nat :=
  match l with
  | [] => []
  | GameUpdate g _ :: rest => g :: updated rest
  | _ :: rest => updated rest
  end.

Definition activeId (w : World) : option nat :=
  option_map gameId (game (engine w)).

(** A callback is scheduled only while a game is active. *)
Definition scheduledHasGame (e : Engine) : Prop :=
  game e = None -> animationId e = None.

(** Two renderers that the settings of any window bring to the same
    state: they differ at most in what [applyRendererSettings]
    overwrites. *)
Definition sameUnderSettings (cfg : EngineConfig) (r r' : WebGLRenderer) : Prop :=
  forall win : Window,
    applyRendererSettings cfg win r' = applyRendererSettings cfg win r.

(** The first [deltaTime] handed to a game in a log, if any, is zero. *)
Definition firstDeltaIsZero (l : list Effect) : Prop :=
  match updateDeltas l with
  | [] => True
  | d :: _ => d = 0
  end.

(** A driver that answers every check with a live context and a draw call
    that succeeds. *)
Definition healthy : FrameOracle := mkOracle false false false false.

(** A driver whose draw call throws while the context stays alive. *)
Definition throwing : FrameOracle := mkOracle false true false false.

(** An engine constructed on a desktop configuration, idle. *)
Definition desktop : World :=
  fst (new (mkConfig None None None) (mkWindow 800 600 1)).

(** The same engine running a game. *)
Definition playing : World :=
  fst (exec [Run (mkGame 1 true) healthy] desktop).

(** The same driver answers, except that the draw call succeeds. *)
Definition drawing (o : FrameOracle) : FrameOracle :=
  mkOracle (glLostBefore o) false (glLostInCatch o) (glLostOnRecheck o).

End Vocabulary.

(* ================================================================== *)
(** ** JavaScript number operations on binary64 *)

Module JS64.
Local Open Scope float_scope.

(** The remainder [x % y] on the IEEE-754 decompositions: NaN when an
    operand is NaN, when the dividend is infinite or the divisor is zero;
    the dividend itself when it is zero or when the divisor is infinite;
    otherwise the exact remainder of the truncated division, which is
    representable and carries the sign of the dividend (a zero result
    too).  Both mantissas are aligned on the smaller exponent and the
    remainder of the integers is taken. *)
Definition SFrem (x y : spec_float) : spec_float :=
  match x, y with
  | S754_nan, _ | _, S754_nan => S754_nan
  | S754_infinity _, _ => S754_nan
  | _, S754_zero _ => S754_nan
  | S754_zero _, _ => x
  | S754_finite _ _ _, S754_infinity _ => x
  | S754_finite sx mx ex, S754_finite sy my ey =>
      let ez := Z.min ex ey in
      let ax := Zpos (fst (shl_align mx ex ez)) in
      let ay := Zpos (fst (shl_align my ey ez)) in
      binary_normalize prec emax (cond_Zopp sx (Z.rem ax ay)) ez sx
  end.

(** [x % y]. *)
Definition rem (x y : float) : float :=
  SF2Prim (SFrem (Prim2SF x) (Prim2SF y)).

(** Truthiness of a number: every number but [0], [-0] and NaN. *)
Definition truthy (x : float) : bool :=
  negb (x =? 0) && negb (is_nan x).

(** Math.min on two numbers: NaN when either is NaN; [-0] is below [0]. *)
Definition min (a b : float) : float :=
  if is_nan a || is_nan b then nan
  else if a <? b then a
  else if b <? a then b
  else match classify a with
       | NZero => a
       | _ => b
       end.

(** [v ?? d]. *)
Definition nullish {A : Type} (v : option A) (d : A) : A :=
  match v with Some a => a | None => d end.

End JS64.

(* ================================================================== *)
(** ** Engine on binary64 numbers

    The fields and methods of class Engine once more, line for line as
    in [Engine], with every JavaScript number a binary64 value: the
    timestamps, the two clock fields, the frame interval, [elapsed], the
    remainder of the pacing step and [deltaTime] are computed as the
    code computes them, rounding, NaN and infinities included. *)

Module Engine64.
Local Open Scope float_scope.
Local Open Scope string_scope.

(** The metrics of [window] that the engine reads. *)
Record Window : Set := mkWindow {
  innerWidth : float;
  innerHeight : float;
  devicePixelRatio : float
}.

(** Modelled from the spec: EngineConfig is declared in Types.ts, which is
    not among the sources.  The configuration surface of the spec is
    [{antialiasing, maxPixelRatio: optional number, shadowsEnabled}]; the
    engine reads [antialias ?? true], [maxPixelRatio] and
    [enableShadows ?? true], so all three are optional.  (The canvas
    element carries no data the model uses.) *)
Record EngineConfig : Set := mkConfig {
  antialias : option bool;
  maxPixelRatio : option float;
  enableShadows : option bool
}.

(** Modelled from the spec: Game is declared in Types.ts, which is not
    among the sources.  A game instance exposes [update(deltaSeconds)],
    [dispose()] and optionally [onResize(width, height)]; it is an opaque
    collaborator, identified here by [gameId]. *)
Record Game : Set := mkGame { gameId : nat; onResize : bool }.

Inductive ShadowMapType : Set :=
| BasicShadowMap | PCFShadowMap | PCFSoftShadowMap.

(** The settings of THREE.WebGLRenderer that the engine writes. *)
Record WebGLRenderer : Set := mkRenderer {
  antialiasing : bool;
  width : float;
  height : float;
  pixelRatio : float;
  shadowMapEnabled : bool;
  shadowMapType : ShadowMapType
}.

Record Fog : Set := mkFog { fogColor : Z; fogNear : float; fogFar : float }.

Record Scene : Set := mkScene { background : option Z; fog : option Fog }.

Record PerspectiveCamera : Set := mkCamera {
  fov : float; aspect : float; near : float; far : float
}.

(** The fields of class Engine (the canvas, the input objects and the
    asset loader hold nothing the loop reads). *)
Record Engine : Set := mkEngine {
  scene : Scene;
  camera : PerspectiveCamera;
  renderer : WebGLRenderer;
  game : option Game;
  lastTime : float;
  animationId : option nat;
  config : EngineConfig;
  isContextLost : bool;
  targetFPS : float;
  frameInterval : float;
  lastFrameTime : float
}.

(** The engine together with the part of the browser it talks to: the
    window metrics and the counter from which requestAnimationFrame draws
    its handles. *)
Record World : Set := mkWorld {
  engine : Engine;
  window : Window;
  rafCounter : nat
}.

(** Calls that leave the engine, in the order they are made. *)
Inductive Effect : Set :=
| RequestAnimationFrame (handle : nat)
| CancelAnimationFrame (handle : nat)
| GameUpdate (g : nat) (deltaTime : float)
| GameDispose (g : nat)
| GameOnResize (g : nat) (w h : float)
| InputResetMouseDelta
| RendererRender
| ConsoleLog (msg : string)
| ConsoleWarn (msg : string)
| ConsoleError (msg : string).

(** What the browser and the WebGL driver answer during one call of
    [animate]: whether the context is found lost at the validity check
    before pacing, whether the draw call throws, and what
    [isContextLost()] answers at the two checks of the catch block. *)
Record FrameOracle : Set := mkOracle {
  glLostBefore : bool;
  renderThrows : bool;
  glLostInCatch : bool;
  glLostOnRecheck : bool
}.

(** *** Field updates *)

Definition set_scene (v : Scene) (e : Engine) : Engine :=
  mkEngine v (camera e) (renderer e) (game e) (lastTime e) (animationId e)
           (config e) (isContextLost e) (targetFPS e) (frameInterval e)
           (lastFrameTime e).
Definition set_camera (v : PerspectiveCamera) (e : Engine) : Engine :=
  mkEngine (scene e) v (renderer e) (game e) (lastTime e) (animationId e)
           (config e) (isContextLost e) (targetFPS e) (frameInterval e)
           (lastFrameTime e).
Definition set_renderer (v : WebGLRenderer) (e : Engine) : Engine :=
  mkEngine (scene e) (camera e) v (game e) (lastTime e) (animationId e)
           (config e) (isContextLost e) (targetFPS e) (frameInterval e)
           (lastFrameTime e).
Definition set_game (v : option Game) (e : Engine) : Engine :=
  mkEngine (scene e) (camera e) (renderer e) v (lastTime e) (animationId e)
           (config e) (isContextLost e) (targetFPS e) (frameInterval e)
           (lastFrameTime e).
Definition set_lastTime (v : float) (e : Engine) : Engine :=
  mkEngine (scene e) (camera e) (renderer e) (game e) v (animationId e)
           (config e) (isContextLost e) (targetFPS e) (frameInterval e)
           (lastFrameTime e).
Definition set_animationId (v : option nat) (e : Engine) : Engine :=
  mkEngine (scene e) (camera e) (renderer e) (game e) (lastTime e) v
           (config e) (isContextLost e) (targetFPS e) (frameInterval e)
           (lastFrameTime e).
Definition set_isContextLost (v : bool) (e : Engine) : Engine :=
  mkEngine (scene e) (camera e) (renderer e) (game e) (lastTime e)
           (animationId e) (config e) v (targetFPS e) (frameInterval e)
           (lastFrameTime e).
Definition set_lastFrameTime (v : float) (e : Engine) : Engine :=
  mkEngine (scene e) (camera e) (renderer e) (game e) (lastTime e)
           (animationId e) (config e) (isContextLost e) (targetFPS e)
           (frameInterval e) v.

(** renderer.setSize, renderer.setPixelRatio and the two shadowMap
    assignments. *)
Definition setSize (w h : float) (r : WebGLRenderer) : WebGLRenderer :=
  mkRenderer (antialiasing r) w h (pixelRatio r)
             (shadowMapEnabled r) (shadowMapType r).
Definition setPixelRatio (v : float) (r : WebGLRenderer) : WebGLRenderer :=
  mkRenderer (antialiasing r) (width r) (height r) v
             (shadowMapEnabled r) (shadowMapType r).
Definition setShadowMap (t : ShadowMapType) (r : WebGLRenderer) : WebGLRenderer :=
  mkRenderer (antialiasing r) (width r) (height r) (pixelRatio r) true t.

(** [config.maxPixelRatio ? ... : ...]: a cap that is absent or zero is
    falsy. *)
Definition hasPixelRatioCap (cfg : EngineConfig) : bool :=
  match maxPixelRatio cfg with
  | Some m => JS64.truthy m
  | None => false
  end.

(** [config.maxPixelRatio ? Math.min(devicePixelRatio, maxPixelRatio)
                          : devicePixelRatio]. *)
Definition effectivePixelRatio (cfg : EngineConfig) (win : Window) : float :=
  match maxPixelRatio cfg with
  | Some m => if JS64.truthy m then JS64.min (devicePixelRatio win) m
              else devicePixelRatio win
  | None => devicePixelRatio win
  end.

(** [config.maxPixelRatio ? BasicShadowMap : PCFSoftShadowMap]. *)
Definition shadowTypeFor (cfg : EngineConfig) : ShadowMapType :=
  if hasPixelRatioCap cfg then BasicShadowMap else PCFSoftShadowMap.

(** The renderer settings written by the constructor and again by the
    context-restored listener: size from the window, pixel ratio, and the
    shadow map when [enableShadows ?? true]. *)
Definition applyRendererSettings (cfg : EngineConfig) (win : Window)
           (r : WebGLRenderer) : WebGLRenderer :=
  let r1 := setSize (innerWidth win) (innerHeight win) r in
  let r2 := setPixelRatio (effectivePixelRatio cfg win) r1 in
  if JS64.nullish (enableShadows cfg) true
  then setShadowMap (shadowTypeFor cfg) r2
  else r2.

(* ---------------------------------------------------------------- *)
(** *** The monad of engine methods

    A computation reads and writes the [World], appends to the effect
    log, and completes normally or abruptly with a thrown error. *)

Inductive Completion (A : Type) : Type :=
| Normal (a : A)
| Thrown (error : string).
Arguments Normal {A} a.
Arguments Thrown {A} error.

Definition M (A : Type) : Type := World -> Completion A * World * list Effect.

Definition ret {A : Type} (a : A) : M A := fun w => (Normal a, w, []).

Definition bind {A B : Type} (m : M A) (k : A -> M B) : M B :=
  fun w =>
    match m w with
    | (Normal a, w1, l1) =>
        match k a w1 with
        | (c, w2, l2) => (c, w2, (l1 ++ l2)%list)
        end
    | (Thrown err, w1, l1) => (Thrown err, w1, l1)
    end.

#[local] Notation "x <- m ;; k" := (bind m (fun x => k))
  (at level 61, m at next level, right associativity).
#[local] Notation "m ;; k" := (bind m (fun _ => k))
  (at level 61, right associativity).

Definition throw {A : Type} (err : string) : M A :=
  fun w => (Thrown err, w, []).

(** [try { body } catch (error) { handler }]. *)
Definition tryCatch {A : Type} (body : M A) (handler : string -> M A) : M A :=
  fun w =>
    match body w with
    | (Normal a, w1, l1) => (Normal a, w1, l1)
    | (Thrown err, w1, l1) =>
        match handler err w1 with
        | (c, w2, l2) => (c, w2, (l1 ++ l2)%list)
        end
    end.

Definition emit (ef : Effect) : M unit := fun w => (Normal tt, w, [ef]).

Definition this : M Engine := fun w => (Normal (engine w), w, []).

Definition getWindow : M Window := fun w => (Normal (window w), w, []).

Definition modify (f : Engine -> Engine) : M unit :=
  fun w => (Normal tt, mkWorld (f (engine w)) (window w) (rafCounter w), []).

Definition when (b : bool) (m : M unit) : M unit := if b then m else ret tt.

(** requestAnimationFrame: the browser hands out the next handle. *)
Definition requestAnimationFrame : M nat :=
  fun w =>
    let h := S (rafCounter w) in
    (Normal h, mkWorld (engine w) (window w) h, [RequestAnimationFrame h]).

(** renderer.render(scene, camera): the draw call, which may throw. *)
Definition render (o : FrameOracle) : M unit :=
  emit RendererRender ;;
  if renderThrows o then throw "render" else ret tt.

(* ---------------------------------------------------------------- *)
(** *** The methods of class Engine *)

(** The scene's default background colour. *)
Definition skyBlue : Z := 0x87ceeb%Z.

(** The constructor.  [isMobile] is [config.maxPixelRatio !== undefined];
    it selects the frame interval and disables the fog. *)
Definition new (cfg : EngineConfig) (win : Window) : World * list Effect :=
  let isMobile := match maxPixelRatio cfg with Some _ => true | None => false end in
  let e :=
    {| config := cfg;
       game := None;
       lastTime := 0;
       animationId := None;
       isContextLost := false;
       targetFPS := if isMobile then 30 else 60;
       frameInterval := if isMobile then 1000 / 30 else 1000 / 60;
       lastFrameTime := 0;
       scene := {| background := Some skyBlue;
                   fog := if negb isMobile
                          then Some (mkFog skyBlue 20 80) else None |};
       camera := mkCamera 75 (innerWidth win / innerHeight win) 0.1 1000;
       renderer :=
         applyRendererSettings cfg win
           (mkRenderer (JS64.nullish (antialias cfg) true)
                       0 0 1 false PCFShadowMap) |} in
  (mkWorld e win 0, [ConsoleLog "[Engine] Initialized"]).

(** The webglcontextlost listener registered by setupContextLossHandling
    (the renderer of a constructed engine always has a context). *)
Definition onContextLost : M unit :=
  modify (set_isContextLost true) ;;
  emit (ConsoleWarn "[Engine] WebGL context lost").

(** The webglcontextrestored listener registered by
    setupContextLossHandling. *)
Definition onContextRestored : M unit :=
  modify (set_isContextLost false) ;;
  emit (ConsoleLog "[Engine] WebGL context restored") ;;
  e <- this ;;
  win <- getWindow ;;
  modify (set_renderer (applyRendererSettings (config e) win (renderer e))).

Definition handleResize : M unit :=
  win <- getWindow ;;
  let width := innerWidth win in
  let height := innerHeight win in
  e <- this ;;
  modify (set_camera (mkCamera (fov (camera e)) (width / height)
                               (near (camera e)) (far (camera e)))) ;;
  modify (set_renderer (setSize width height (renderer e))) ;;
  match game e with
  | Some g => when (onResize g) (emit (GameOnResize (gameId g) width height))
  | None => ret tt
  end.

(** The catch block of [animate]. *)
Definition onRenderError (o : FrameOracle) (error : string) : M unit :=
  if glLostInCatch o then
    modify (set_isContextLost true) ;;
    emit (ConsoleWarn "[Engine] Rendering failed - context lost")
  else
    emit (ConsoleError "[Engine] Rendering error:") ;;
    when (glLostOnRecheck o) (modify (set_isContextLost true)).

(** The main render loop, one callback. *)
Definition animate (time : float) (o : FrameOracle) : M unit :=
  h <- requestAnimationFrame ;;
  modify (set_animationId (Some h)) ;;
  e <- this ;;
  if isContextLost e then ret tt
  else if glLostBefore o then modify (set_isContextLost true)
  else
    let elapsed := time - lastFrameTime e in
    if (elapsed <? frameInterval e)%float then ret tt
    else
      modify (set_lastFrameTime (time - JS64.rem elapsed (frameInterval e))) ;;
      let deltaTime :=
        if JS64.truthy (lastTime e) then (time - lastTime e) / 1000 else 0 in
      modify (set_lastTime time) ;;
      match game e with
      | Some g => emit (GameUpdate (gameId g) deltaTime)
      | None => ret tt
      end ;;
      emit InputResetMouseDelta ;;
      match background (scene e) with
      | None => modify (set_scene (mkScene (Some skyBlue) (fog (scene e))))
      | Some _ => ret tt
      end ;;
      tryCatch (render o) (onRenderError o).

Definition stop : M unit :=
  e <- this ;;
  match animationId e with
  | Some h => emit (CancelAnimationFrame h) ;; modify (set_animationId None)
  | None => ret tt
  end ;;
  match game e with
  | Some g => emit (GameDispose (gameId g)) ;; modify (set_game None)
  | None => ret tt
  end ;;
  emit (ConsoleLog "[Engine] Stopped").

Definition run (g : Game) (o : FrameOracle) : M unit :=
  e <- this ;;
  match game e with
  | Some _ => emit (ConsoleWarn "[Engine] Stopping previous game") ;; stop
  | None => ret tt
  end ;;
  modify (set_game (Some g)) ;;
  modify (set_lastTime 0) ;;
  modify (set_lastFrameTime 0) ;;
  emit (ConsoleLog "[Engine] Starting game") ;;
  animate 0 o.

(* ---------------------------------------------------------------- *)
(** *** The engine in the browser's event loop *)

(** What can happen to a constructed engine: the pending animation-frame
    callback fires with a timestamp; the canvas signals context loss or
    restoration; the window's metrics change; the resize listener fires;
    the application calls [run] or [stop].  ([dispose] ends the engine's
    life and is not an event of the loop.) *)
Inductive Event : Set :=
| AnimationFrame (time : float) (o : FrameOracle)
| WebGLContextLost
| WebGLContextRestored
| WindowChanged (win : Window)
| WindowResize
| Run (g : Game) (o : FrameOracle)
| Stop.

(** One event.  An animation-frame callback fires only while one is
    scheduled, that is while [animationId] is not null: [stop] cancels
    the pending request. *)
Definition handle (ev : Event) : M unit :=
  match ev with
  | AnimationFrame time o =>
      e <- this ;;
      match animationId e with
      | Some _ => animate time o
      | None => ret tt
      end
  | WebGLContextLost => onContextLost
  | WebGLContextRestored => onContextRestored
  | WindowChanged win =>
      fun w => (Normal tt, mkWorld (engine w) win (rafCounter w), [])
  | WindowResize => handleResize
  | Run g o => run g o
  | Stop => stop
  end.

(** A sequence of events, each handled to completion before the next;
    the result is the final world and the whole effect log. *)
Fixpoint exec (evs : list Event) (w : World) : World * list Effect :=
  match evs with
  | [] => (w, [])
  | ev :: rest =>
      match handle ev w with
      | (_, w1, l1) =>
          match exec rest w1 with
          | (w2, l2) => (w2, (l1 ++ l2)%list)
          end
      end
  end.

(** The [deltaTime] arguments of the [update] calls in a log. *)
Fixpoint updateDeltas (l : list Effect) : list float :=
  match l with
  | [] => []
  | GameUpdate _ d :: rest => d :: updateDeltas rest
  | _ :: rest => updateDeltas rest
  end.

End Engine64.

(* ================================================================== *)
(** * Vocabulary of the binary64 statements *)

Module Vocabulary64.
Import Engine64.
Local Open Scope float_scope.

(** A number that is zero (of either sign), positive or plus infinity. *)
Definition SFnonneg (x : spec_float) : bool :=
  match x with
  | S754_zero _ => true
  | S754_infinity s => negb s
  | S754_nan => false
  | S754_finite s _ _ => negb s
  end.

(** A number that is a zero or finite. *)
Definition SFfinite (x : spec_float) : bool :=
  match x with
  | S754_zero _ | S754_finite _ _ _ => true
  | _ => false
  end.


(** The value of a finite number, in units of 2^-1074 (the smallest
    positive binary64 number); 0 for the other numbers. *)
Definition SF2Z (x : spec_float) : Z :=
  match x with
  | S754_finite s m e => cond_Zopp s (Z.pos m * 2 ^ (e + 1074))%Z
  | _ => 0%Z
  end.

Definition completionOf {A : Type} (r : Completion A * World * list Effect)
  : Completion A := fst (fst r).
Definition worldOf {A : Type} (r : Completion A * World * list Effect)
  : World := snd (fst r).
Definition effectsOf {A : Type} (r : Completion A * World * list Effect)
  : list Effect := snd r.

(** The work of a tick: the game's update, the input reset, the draw
    call. *)
Definition isTickWork (ef : Effect) : bool :=
  match ef with
  | GameUpdate _ _ | InputResetMouseDelta | RendererRender => true
  | _ => false
  end.

Definition noTickWork (l : list Effect) : Prop :=
  existsb isTickWork l = false.

(** The [update] call made to the active game, if there is one. *)
Definition updateCall (g : option Game) (deltaTime : float) : list Effect :=
  match g with
  | Some g => [GameUpdate (gameId g) deltaTime]
  | None => []
  end.

(** The timestamps of the animation-frame callbacks of a sequence of
    events, in order. *)
Fixpoint timestamps (evs : list Event) : list float :=
  match evs with
  | [] => []
  | AnimationFrame time _ :: rest => time :: timestamps rest
  | _ :: rest => timestamps rest
  end.

(** A driver that answers every check with a live context and a draw call
    that succeeds. *)
Definition healthy : FrameOracle := mkOracle false false false false.

(** An engine at the full frame rate and one at the reduced rate, each
    running a game. *)
Definition playing60 : World :=
  fst (exec [Run (mkGame 1 true) healthy]
            (fst (new (mkConfig None None None) (mkWindow 800 600 1)))).

Definition playing30 : World :=
  fst (exec [Run (mkGame 1 true) healthy]
            (fst (new (mkConfig None (Some 2) None) (mkWindow 800 600 3)))).

(** The clock invariant: the frame interval is finite and positive, the
    two clock fields are finite, [lastFrameTime] is not negative, and a
    tick is due only at timestamps that are not below [lastTime]. *)
Definition clockInv (e : Engine) : Prop :=
  is_finite (frameInterval e) = true
  /\ (0 <? frameInterval e)%float = true
  /\ is_finite (lastFrameTime e) = true
  /\ (0 <=? lastFrameTime e)%float = true
  /\ is_finite (lastTime e) = true
  /\ forall time : float,
       is_finite time = true ->
       (time - lastFrameTime e <? frameInterval e)%float = false ->
       (lastTime e <=? time)%float = true.

End Vocabulary64.

(* ================================================================== *)
(** * More of the sources *)

(* ------------------------------------------------------------------ *)
(** ** Engine.dispose *)

Module EngineDispose.
Import Engine.

(** What [dispose] releases besides what [stop] does: the two input
    objects and the renderer, in this order; the calls of [stop] are kept
    as they are. *)
Inductive Release : Set :=
| Loop (ef : Effect)
| InputDispose
| MobileInputDispose
| RendererDispose.

(** Engine.dispose: [stop], then the input objects and the renderer. *)
Definition dispose (w : World) : World * list Release :=
  match stop w with
  | (_, w1, l1) =>
      (w1, (map Loop l1
              ++ [InputDispose; MobileInputDispose; RendererDispose;
                  Loop (ConsoleLog "[Engine] Disposed")])%list)
  end.

(** The calls of the loop among the releases. *)
Fixpoint loopEffects (l : list Release) : list Effect :=
  match l with
  | [] => []
  | Loop ef :: rest => ef :: loopEffects rest
  | _ :: rest => loopEffects rest
  end.

End EngineDispose.

(* ------------------------------------------------------------------ *)
(** ** Customer.ts: the order display colours *)

Module CustomerDisplay.
Import Customer.

(** The [colors] record of [getIngredientColor]. *)
Definition colors (type : IngredientType) : Z :=
  match type with
  | LETTUCE => 0x90ee90
  | BACON => 0xcd5c5c
  | CHEESE => 0xffd700
  | TOMATO => 0xff6347
  | PICKLE => 0x32cd32
  | ONION => 0xfff8dc
  end%Z.

(** [colors[type] || 0xffffff]: a colour of 0 is falsy. *)
Definition getIngredientColor (type : IngredientType) : Z :=
  if Z.eqb (colors type) 0 then 0xffffff%Z else colors type.

(** Customer.getOrder: a fresh copy of the order's list. *)
Definition getOrder (c : Customer) : CustomerOrder :=
  mkOrder (ingredients (order c)).

End CustomerDisplay.

(* ------------------------------------------------------------------ *)
(** ** PlatformerGame: customer interaction and score *)

Module PlatformerGame.
Import Three Customer.

(** The fields of PlatformerGame that the customer block of [update]
    reads and writes.  [currentCustomer] is a reference into [customers];
    it is kept as the index of that customer. *)
Record Game : Set := mkGame {
  customers : list Customer;
  currentCustomer : option nat;
  score : Z
}.

(** Modelled from the spec: Player and Input are declared in Player.ts and
    Input.ts, which are not among the sources.  What the customer block
    asks them in one frame is taken as given: the player's position, what
    [isKeyPressed('KeyE')] answers, the list [getIngredientList()]
    returns, and the length that list has once [resetIngredients()] has
    run (the list's own length when [getIngredientList] hands out a copy;
    whatever [resetIngredients] leaves when it hands out the player's own
    array). *)
Record Frame : Set := mkFrame {
  playerPos : Vector3;
  keyE : bool;
  playerIngredients : list IngredientType;
  lengthAfterReset : nat
}.

(** What the customer block does to the player, the page and the console. *)
Inductive Output : Set :=
| UpdateOrderUI (customer : nat)
| HideOrderUI
| ResetIngredients
| UpdateScoreDisplay (score : Z)
| Log (msg : string).

(** The constructor's customers ([createCustomers]) and score. *)
Definition createCustomers : list Customer :=
  [ Customer.new (mkVector3 5 1.75 0) (mkOrder [LETTUCE; TOMATO; CHEESE]);
    Customer.new (mkVector3 (-8) 3.25 (-5)) (mkOrder [BACON; CHEESE]);
    Customer.new (mkVector3 15 2.25 (-10)) (mkOrder [PICKLE; ONION; TOMATO]);
    Customer.new (mkVector3 (-15) 2.75 10) (mkOrder [CHEESE; BACON; LETTUCE]);
    Customer.new (mkVector3 25 3.75 0) (mkOrder [TOMATO; PICKLE]);
    Customer.new (mkVector3 (-20) 3.25 5)
                 (mkOrder [ONION; CHEESE; BACON; LETTUCE]);
    Customer.new (mkVector3 0 2.75 22) (mkOrder [LETTUCE; TOMATO]);
    Customer.new (mkVector3 (-25) 1.5 (-2)) (mkOrder [PICKLE; ONION]) ]%float.

Definition new : Game :=
  {| customers := createCustomers; currentCustomer := None; score := 0 |}.

(** The search loop: the first customer, in array order, whose order is
    not fulfilled and who is within reach of the player, with its index;
    [i] is the index of the head of [cs]. *)
Fixpoint findNearFrom (i : nat) (cs : list Customer) (pos : Vector3)
  : option (nat * Customer) :=
  match cs with
  | [] => None
  | c :: rest =>
      if negb (isOrderFulfilled c) && checkInteraction c pos
      then Some (i, c)
      else findNearFrom (S i) rest pos
  end.

Definition findNear (cs : list Customer) (pos : Vector3)
  : option (nat * Customer) :=
  findNearFrom 0 cs pos.

(** [nearCustomer.fulfillOrder()] on the customer at index [i]. *)
Fixpoint fulfillAt (i : nat) (cs : list Customer) : list Customer :=
  match cs, i with
  | [], _ => []
  | c :: rest, O => fulfillOrder c :: rest
  | c :: rest, S j => c :: fulfillAt j rest
  end.

(** addScore: add the points and call updateScoreDisplay. *)
Definition addScore (points : Z) (g : Game) : Game * list Output :=
  let g' := mkGame (customers g) (currentCustomer g) (score g + points) in
  (g', [UpdateScoreDisplay (score g')]).

(** [this.currentCustomer !== nearCustomer], negated. *)
Definition isCurrent (g : Game) (i : nat) : bool :=
  match currentCustomer g with
  | Some j => Nat.eqb j i
  | None => false
  end.

(** The customer block of [update]: find the customer within reach; show
    its order when it is not the one shown; on the E key, validate the
    player's ingredients against it and either fulfil the order, reset
    the player's ingredients, hide the order and award 10 points plus 5
    per ingredient, or deduct 5 points; with no customer within reach,
    hide the order that was shown.  (The values the console messages
    print are left out.) *)
Definition customerInteraction (f : Frame) (g : Game) : Game * list Output :=
  match findNear (customers g) (playerPos f) with
  | Some (i, nearCustomer) =>
      let shown :=
        if isCurrent g i then (g, [])
        else (mkGame (customers g) (Some i) (score g),
              [UpdateOrderUI i; Log "[PlatformerGame] Near customer with order:"]) in
      let g1 := fst shown in
      if keyE f then
        if validateOrder nearCustomer (playerIngredients f)
        then
          let g2 := mkGame (fulfillAt i (customers g1)) None (score g1) in
          let pointsEarned := (10 + Z.of_nat (lengthAfterReset f) * 5)%Z in
          let scored := addScore pointsEarned g2 in
          (fst scored,
           (snd shown ++ [Log "[Customer] Order fulfilled!";
                          ResetIngredients; HideOrderUI]
              ++ snd scored
              ++ [Log "[PlatformerGame] Order delivered!"])%list)
        else
          let pointsLost := 5%Z in
          let scored := addScore (- pointsLost) g1 in
          (fst scored,
           (snd shown ++ snd scored
              ++ [Log "[PlatformerGame] Order does not match."])%list)
      else shown
  | None =>
      match currentCustomer g with
      | Some _ => (mkGame (customers g) None (score g), [HideOrderUI])
      | None => (g, [])
      end
  end.

(** The customer block over a sequence of frames. *)
Fixpoint play (fs : list Frame) (g : Game) : Game * list Output :=
  match fs with
  | [] => (g, [])
  | f :: rest =>
      let r1 := customerInteraction f g in
      let r2 := play rest (fst r1) in
      (fst r2, (snd r1 ++ snd r2)%list)
  end.

End PlatformerGame.

(* ------------------------------------------------------------------ *)
(** ** Vocabulary of the further statements *)

Module GameMeasures.
Import Customer PlatformerGame.

(** The customers whose order is fulfilled. *)
Definition served (cs : list Customer) : nat :=
  List.length (filter isOrderFulfilled cs).

(** The deliveries in a log: each one resets the player's ingredients
    once. *)
Fixpoint deliveries (out : list Output) : nat :=
  match out with
  | [] => 0
  | ResetIngredients :: rest => S (deliveries rest)
  | _ :: rest => deliveries rest
  end.

End GameMeasures.

Module Measures.
Import Engine Vocabulary.

(** The games handed to [run] in a sequence of events, in order. *)
Fixpoint started (evs : list Event) : list nat :=
  match evs with
  | [] => []
  | Run g _ :: rest => gameId g :: started rest
  | _ :: rest => started rest
  end.

(** The active game, as a list of at most one. *)
Definition active (w : World) : list nat :=
  match game (engine w) with
  | Some g => [gameId g]
  | None => []
  end.

(** A tick that finds the context dead: at the validity check, or in the
    catch block of a draw call that throws. *)
Definition detectsDeadContext (o : FrameOracle) : bool :=
  glLostBefore o || (renderThrows o && (glLostInCatch o || glLostOnRecheck o)).

End Measures.

(* ================================================================== *)
(** * Properties *)

(* ------------------------------------------------------------------ *)
(** ** Platform bounds *)

Section PlatformBounds.
Import Three Platform Vocabulary.
Local Open Scope float_scope.

(** C8. For every centre [c] and size [s], whatever the colour and the
    visibility, [getBounds] of the constructed platform is the pair
    [min = c - s/2], [max = c + s/2] computed componentwise; and for
    centre (0,0,0) and size (2,2,2) the point (0.9,0.9,0.9) lies within
    [[min, max]] on all three axes while (1.1,0,0) does not. *)
Theorem platform_bounds_center_half_size :
  (forall (c s : Vector3) (col : option Z) (vis : option bool),
      getBounds (Platform.new (mkPlatformConfig c s col vis)) =
      {| min := mkVector3 (x c - x s / 2) (y c - y s / 2) (z c - z s / 2);
         max := mkVector3 (x c + x s / 2) (y c + y s / 2) (z c + z s / 2) |})
  /\ (forall col vis,
         withinBounds (getBounds (unitBox col vis)) (mkVector3 0.9 0.9 0.9) = true
         /\ withinBounds (getBounds (unitBox col vis)) (mkVector3 1.1 0 0) = false).
Proof.
  split.
  - intros c s col vis. reflexivity.
  - intros col vis. split; reflexivity.
Qed.

End PlatformBounds.

(* ------------------------------------------------------------------ *)
(** ** Customer interaction and order validation *)

Section CustomerQueries.
Import Three Customer.

Lemma new_customer_unfulfilled (pos : Vector3) (o : CustomerOrder) :
  orderFulfilled (Customer.new pos o) = false
  /\ interactionRadius (Customer.new pos o) = 2.5%float
  /\ position (Customer.new pos o) = pos.
Proof. destruct pos; repeat split. Qed.

Lemma fulfillOrder_keeps_radius (c : Customer) :
  interactionRadius (fulfillOrder c) = interactionRadius c
  /\ orderFulfilled (fulfillOrder c) = true.
Proof. split; reflexivity. Qed.



Lemma IngredientType_eqb_eq (a b : IngredientType) :
  IngredientType_eqb a b = true <-> a = b.
Proof. destruct a, b; simpl; split; congruence. Qed.

Lemma strictNotEqual_false_iff (a b : option IngredientType) :
  strictNotEqual a b = false <-> a = b.
Proof.
  destruct a as [u|], b as [v|]; simpl; try (split; congruence).
  rewrite negb_false_iff, IngredientType_eqb_eq. split; congruence.
Qed.

(** The loop accepts exactly when the two arrays agree at each of the
    [remaining] indices from [i] on. *)
Lemma validateOrder_loop_true_iff (remaining : nat) :
  forall (i : nat) (p r : list IngredientType),
    validateOrder_loop remaining i p r = true <->
    (forall k, (i <= k < i + remaining)%nat -> nth_error p k = nth_error r k).
Proof.
  induction remaining as [|n IH]; intros i p r; simpl.
  - split; [intros _ k Hk; lia | reflexivity].
  - destruct (strictNotEqual (nth_error p i) (nth_error r i)) eqn:Hne.
    + split; [discriminate|]. intros Hall.
      assert (Heq : nth_error p i = nth_error r i) by (apply Hall; lia).
      apply strictNotEqual_false_iff in Heq. congruence.
    + apply strictNotEqual_false_iff in Hne. rewrite IH. split.
      * intros Hall k Hk. destruct (Nat.eq_dec k i) as [->|Hki]; [assumption|].
        apply Hall. lia.
      * intros Hall k Hk. apply Hall. lia.
Qed.

Lemma same_length_same_reads (p r : list IngredientType) :
  List.length p = List.length r ->
  (forall k, (k < List.length r)%nat -> nth_error p k = nth_error r k) ->
  p = r.
Proof.
  revert r. induction p as [|a p IH]; intros [|b r] Hlen Hall;
    simpl in Hlen; try discriminate; [reflexivity|].
  f_equal.
  - specialize (Hall 0%nat). simpl in Hall.
    assert (Some a = Some b) by (apply Hall; lia). congruence.
  - apply IH; [lia|]. intros k Hk. apply (Hall (S k)). simpl. lia.
Qed.

(** C10. For every list of player ingredients, [validateOrder] is true if
    and only if the order is not fulfilled, the list has the length of
    the customer's order, and the two agree at every position; that is,
    if and only if the order is not fulfilled and the player's list is
    the order's list. *)
Theorem validateOrder_true_iff (c : Customer) (playerIngredients : list IngredientType) :
  (validateOrder c playerIngredients = true <->
   orderFulfilled c = false
   /\ List.length playerIngredients = List.length (ingredients (order c))
   /\ (forall i, (i < List.length (ingredients (order c)))%nat ->
                 nth_error playerIngredients i =
                 nth_error (ingredients (order c)) i))
  /\ (validateOrder c playerIngredients = true <->
      orderFulfilled c = false /\ playerIngredients = ingredients (order c)).
Proof.
  assert (Hpos :
    validateOrder c playerIngredients = true <->
    orderFulfilled c = false
    /\ List.length playerIngredients = List.length (ingredients (order c))
    /\ (forall i, (i < List.length (ingredients (order c)))%nat ->
                  nth_error playerIngredients i =
                  nth_error (ingredients (order c)) i)).
  { unfold validateOrder.
    destruct (orderFulfilled c); [split; [discriminate | intros [? _]; discriminate]|].
    destruct (Nat.eqb_spec (List.length playerIngredients)
                           (List.length (ingredients (order c)))) as [Hlen|Hlen];
      simpl.
    - rewrite validateOrder_loop_true_iff. split.
      + intros Hall. repeat split; [assumption|]. intros i Hi. apply Hall. lia.
      + intros (_ & _ & Hall) k Hk. apply Hall. lia.
    - split; [discriminate | intros (_ & Heq & _); contradiction]. }
  split; [exact Hpos|].
  rewrite Hpos. split.
  - intros (Hopen & Hlen & Hall). split; [assumption|].
    now apply same_length_same_reads.
  - intros (Hopen & ->). repeat split; assumption.
Qed.

End CustomerQueries.


(* ------------------------------------------------------------------ *)
(** ** Number operations *)

Section Numbers.
Local Open Scope Q_scope.

Lemma lt_false_le (a b : Q) : JS.lt a b = false -> b <= a.
Proof. unfold JS.lt. rewrite negb_false_iff. apply Qle_bool_imp_le. Qed.

Lemma lt_true_iff (a b : Q) : JS.lt a b = true <-> a < b.
Proof.
  unfold JS.lt. rewrite negb_true_iff. split.
  - intros H. apply Qnot_le_lt. intros Hle.
    apply Qle_bool_iff in Hle. congruence.
  - intros H. destruct (Qle_bool b a) eqn:E; [|reflexivity].
    apply Qle_bool_iff in E. lra.
Qed.

Lemma lt_false_iff (a b : Q) : JS.lt a b = false <-> ~ a < b.
Proof.
  rewrite <- lt_true_iff. destruct (JS.lt a b); split; congruence.
Qed.

Lemma truthy_false_zero (q : Q) : JS.truthy q = false -> q == 0.
Proof. unfold JS.truthy. rewrite negb_false_iff. apply Qeq_bool_eq. Qed.

End Numbers.

(* ------------------------------------------------------------------ *)
(** ** Case analysis of the engine's methods *)

Import Engine Vocabulary.

(** Name the fields of a world. *)
Ltac split_world w :=
  destruct w as [[sc cam rd gm lt aid cfg lost fps fi lft] win raf].

(** Split on the condition of the first branch that blocks evaluation. *)
Ltac step_case :=
  match goal with
  | |- context [match ?x with _ => _ end] =>
      match type of x with
      | bool => destruct x eqn:?
      | option _ => destruct x eqn:?
      | FrameOracle => destruct x
      | Game => destruct x
      end
  | H : context [match ?x with _ => _ end] |- _ =>
      match type of x with
      | bool => destruct x eqn:?
      | option _ => destruct x eqn:?
      | FrameOracle => destruct x
      | Game => destruct x
      end
  end.

(** Run a method on a world with named fields, branch by branch. *)
Ltac crunch :=
  repeat first
    [ progress (cbn in *)
    | progress (unfold tryCatch, render, onRenderError, when, bind, emit,
                modify, throw, ret in * )
    | step_case ].

(** Turn the boolean tests on numbers into order facts. *)
Ltac q_facts :=
  repeat match goal with
    | H : JS.lt _ _ = false |- _ => apply lt_false_le in H
    | H : JS.lt _ _ = true |- _ => apply lt_true_iff in H
    | H : JS.truthy _ = false |- _ => apply truthy_false_zero in H
    end.

Section Animate.
Local Open Scope Q_scope.
Variables (time : Q) (o : FrameOracle) (w : World).

Lemma animate_context_lost :
  isContextLost (engine w) = true ->
  animate time o w =
  (Normal tt, rescheduled w, [RequestAnimationFrame (S (rafCounter w))]).
Proof.
  intros H. unfold animate, bind, requestAnimationFrame, modify, this.
  cbn. rewrite H. reflexivity.
Qed.

Lemma animate_context_dead :
  isContextLost (engine w) = false ->
  glLostBefore o = true ->
  animate time o w =
  (Normal tt,
   mkWorld (set_isContextLost true (engine (rescheduled w)))
           (window w) (S (rafCounter w)),
   [RequestAnimationFrame (S (rafCounter w))]).
Proof.
  intros H1 H2. unfold animate, bind, requestAnimationFrame, modify, this.
  cbn. rewrite H1, H2. reflexivity.
Qed.

Lemma animate_not_due :
  isContextLost (engine w) = false ->
  glLostBefore o = false ->
  time - lastFrameTime (engine w) < frameInterval (engine w) ->
  animate time o w =
  (Normal tt, rescheduled w, [RequestAnimationFrame (S (rafCounter w))]).
Proof.
  intros H1 H2 H3. apply lt_true_iff in H3.
  unfold animate, bind, requestAnimationFrame, modify, this.
  cbn. rewrite H1, H2, H3. reflexivity.
Qed.

(** A tick that is due: the callback is re-scheduled, the game is
    updated, the input deltas are reset, the draw call is made; what
    follows the draw call in the log is console output only. *)
Lemma animate_due :
  isContextLost (engine w) = false ->
  glLostBefore o = false ->
  ~ time - lastFrameTime (engine w) < frameInterval (engine w) ->
  exists deltaTime tail,
    effectsOf (animate time o w) =
    RequestAnimationFrame (S (rafCounter w))
      :: updateCall (game (engine w)) deltaTime
      ++ InputResetMouseDelta :: RendererRender :: tail
    /\ existsb isTickWork tail = false
    /\ (renderThrows o = false -> tail = [])
    /\ deltaTime = (if JS.truthy (lastTime (engine w))
                    then (time - lastTime (engine w)) / 1000 else 0)
    /\ lastFrameTime (engine (worldOf (animate time o w))) =
       time - JS.rem (time - lastFrameTime (engine w)) (frameInterval (engine w))
    /\ lastTime (engine (worldOf (animate time o w))) = time
    /\ game (engine (worldOf (animate time o w))) = game (engine w)
    /\ animationId (engine (worldOf (animate time o w))) = Some (S (rafCounter w)).
Proof.
  intros H1 H2 H3. apply lt_false_iff in H3.
  split_world w. cbn in H1, H3. subst lost.
  destruct o as [b1 b2 b3 b4]. cbn in H2. subst b1.
  unfold animate, bind, requestAnimationFrame, modify, this, effectsOf, worldOf.
  cbn. rewrite H3.
  destruct gm as [g|], (background sc), b2, b3, b4; cbn;
    eexists; eexists; (split; [reflexivity|]); repeat split;
    reflexivity || discriminate.
Qed.

(** [animate] catches what the draw call throws: it always completes
    normally. *)
Lemma animate_completes : completionOf (animate time o w) = Normal tt.
Proof.
  split_world w. destruct o as [b1 b2 b3 b4].
  unfold completionOf, animate. crunch; reflexivity.
Qed.

End Animate.

(* ------------------------------------------------------------------ *)
(** ** Frame pacing and render failures, one callback at a time *)

Section OneCallback.
Local Open Scope Q_scope.

(** A callback that finds the context lost, or dead at the validity
    check, does none of the work of a tick and leaves the clock alone. *)
Lemma animate_without_context (time : Q) (o : FrameOracle) (w : World) :
  isContextLost (engine w) = true \/ glLostBefore o = true ->
  noTickWork (effectsOf (animate time o w))
  /\ lastFrameTime (engine (worldOf (animate time o w))) = lastFrameTime (engine w)
  /\ lastTime (engine (worldOf (animate time o w))) = lastTime (engine w)
  /\ scene (engine (worldOf (animate time o w))) = scene (engine w).
Proof.
  intros H. destruct (isContextLost (engine w)) eqn:Hlost.
  - rewrite animate_context_lost by assumption. repeat split.
  - destruct H as [H|H]; [discriminate|].
    rewrite animate_context_dead by assumption. repeat split.
Qed.

(** While a callback is scheduled, the animation-frame event runs
    [animate]. *)
Lemma handle_frame_scheduled (time : Q) (o : FrameOracle) (w : World) (h : nat) :
  animationId (engine w) = Some h ->
  handle (AnimationFrame time o) w = animate time o w.
Proof.
  intros H. unfold handle, bind, this. cbv beta iota. rewrite H.
  destruct (animate time o w) as [[c w2] l2]. reflexivity.
Qed.

(** C7. When a tick is due and its draw call throws while the context is
    alive at both checks of the catch block, [animate] completes
    normally; the world it leaves is the one the same tick leaves when
    the draw call succeeds, and its log is that tick's log followed by
    one console error.  The game's update was dispatched before the draw
    call, the context is not flagged lost, the next callback is
    scheduled, it runs [animate], and when due it updates and draws
    again. *)
Theorem render_failure_is_swallowed (time : Q) (o : FrameOracle) (w : World)
        (Hctx : isContextLost (engine w) = false)
        (Hgl : glLostBefore o = false)
        (Hdue : ~ time - lastFrameTime (engine w) < frameInterval (engine w))
        (Hthrows : renderThrows o = true)
        (Halive : glLostInCatch o = false /\ glLostOnRecheck o = false) :
  let w' := worldOf (animate time o w) in
  animate time o w =
  (Normal tt,
   worldOf (animate time (drawing o) w),
   (effectsOf (animate time (drawing o) w)
      ++ [ConsoleError "[Engine] Rendering error:"])%list)
  /\ (exists deltaTime tail,
         effectsOf (animate time o w) =
         RequestAnimationFrame (S (rafCounter w))
           :: updateCall (game (engine w)) deltaTime
           ++ InputResetMouseDelta :: RendererRender :: tail)
  /\ isContextLost (engine w') = false
  /\ game (engine w') = game (engine w)
  /\ animationId (engine w') = Some (S (rafCounter w))
  /\ (forall time' o', handle (AnimationFrame time' o') w' = animate time' o' w')
  /\ (forall time' o',
         glLostBefore o' = false ->
         ~ time' - lastFrameTime (engine w') < frameInterval (engine w') ->
         exists deltaTime tail,
           effectsOf (handle (AnimationFrame time' o') w') =
           RequestAnimationFrame (S (S (rafCounter w)))
             :: updateCall (game (engine w)) deltaTime
             ++ InputResetMouseDelta :: RendererRender :: tail).
Proof.
  intros w'.
  destruct Halive as [Hc1 Hc2].
  assert (Hrun : animate time o w =
    (Normal tt, worldOf (animate time (drawing o) w),
     (effectsOf (animate time (drawing o) w)
        ++ [ConsoleError "[Engine] Rendering error:"])%list)).
  { apply lt_false_iff in Hdue.
    split_world w. destruct o as [b1 b2 b3 b4]. cbn in *. subst.
    unfold animate, drawing, bind, requestAnimationFrame, modify, this,
      effectsOf, worldOf.
    cbn. rewrite Hdue.
    destruct gm as [g|], (background sc); reflexivity. }
  destruct (animate_due time o w Hctx Hgl Hdue)
    as (d & tail & Heff & _ & _ & _ & _ & _ & Hgame & Haid).
  assert (Hlost' : isContextLost (engine w') = false).
  { subst w'. rewrite Hrun. unfold worldOf at 1. cbn [fst snd].
    apply lt_false_iff in Hdue.
    split_world w. destruct o as [b1 b2 b3 b4]. cbn in *. subst.
    unfold animate, drawing, bind, requestAnimationFrame, modify, this, worldOf.
    cbn. rewrite Hdue.
    destruct gm as [g|], (background sc); reflexivity. }
  assert (Hhandle : forall time' o',
             handle (AnimationFrame time' o') w' = animate time' o' w').
  { intros time' o'. apply handle_frame_scheduled with (h := S (rafCounter w)).
    exact Haid. }
  assert (Hraf : rafCounter w' = S (rafCounter w)).
  { subst w'. apply lt_false_iff in Hdue.
    split_world w. destruct o as [b1 b2 b3 b4]. cbn in *. subst.
    unfold animate, bind, requestAnimationFrame, modify, this, worldOf.
    cbn. rewrite Hdue.
    destruct gm as [g|], (background sc); reflexivity. }
  repeat split; try assumption.
  - exists d, tail. exact Heff.
  - intros time' o' Hgl' Hdue'. rewrite Hhandle.
    destruct (animate_due time' o' w' Hlost' Hgl' Hdue')
      as (d' & tail' & Heff' & _).
    exists d', tail'. rewrite Heff', Hraf. fold w' in Hgame.
    rewrite Hgame. reflexivity.
Qed.

Lemma render_failure_is_swallowed_witness :
  completionOf (animate 100 throwing playing) = Normal tt
  /\ isContextLost (engine (worldOf (animate 100 throwing playing))) = false
  /\ effectsOf (animate 100 throwing playing) =
     [RequestAnimationFrame 2; GameUpdate 1 0; InputResetMouseDelta;
      RendererRender; ConsoleError "[Engine] Rendering error:"].
Proof.
  assert (Hdue : ~ 100 - lastFrameTime (engine playing)
                   < frameInterval (engine playing)).
  { intros H. vm_compute in H. discriminate H. }
  pose proof (render_failure_is_swallowed
                100 throwing playing eq_refl eq_refl Hdue eq_refl
                (conj eq_refl eq_refl)) as H.
  cbv zeta in H. destruct H as (Hrun & _ & Hlost & _).
  split; [|split].
  - rewrite Hrun. reflexivity.
  - exact Hlost.
  - rewrite Hrun. reflexivity.
Defined.

End OneCallback.

(* ------------------------------------------------------------------ *)
(** ** Event sequences *)

Section Traces.
Local Open Scope Q_scope.

Lemma exec_cons (ev : Event) (evs : list Event) (w : World) :
  exec (ev :: evs) w =
  (fst (exec evs (worldOf (handle ev w))),
   (effectsOf (handle ev w) ++ snd (exec evs (worldOf (handle ev w))))%list).
Proof.
  unfold worldOf, effectsOf. simpl.
  destruct (handle ev w) as [[c w1] l1]. simpl.
  destruct (exec evs w1) as [w2 l2]. reflexivity.
Qed.

Lemma exec_app (evs1 evs2 : list Event) (w : World) :
  exec (evs1 ++ evs2) w =
  (fst (exec evs2 (fst (exec evs1 w))),
   (snd (exec evs1 w) ++ snd (exec evs2 (fst (exec evs1 w))))%list).
Proof.
  revert w. induction evs1 as [|ev evs1 IH]; intros w.
  - simpl. destruct (exec evs2 w). reflexivity.
  - rewrite <- app_comm_cons, !exec_cons, IH. simpl.
    now rewrite app_assoc.
Qed.

Lemma updateDeltas_app (l1 l2 : list Effect) :
  updateDeltas (l1 ++ l2) = (updateDeltas l1 ++ updateDeltas l2)%list.
Proof.
  induction l1 as [|ef l1 IH]; [reflexivity|].
  destruct ef; simpl; now rewrite IH.
Qed.

(** No handler lets an exception escape. *)
Lemma handle_completes (ev : Event) (w : World) :
  completionOf (handle ev w) = Normal tt.
Proof.
  split_world w. unfold completionOf.
  destruct ev as [time o| | |win'| |g o|]; try destruct o as [b1 b2 b3 b4];
    unfold handle, run, stop, animate, handleResize, onContextLost,
      onContextRestored; crunch; reflexivity.
Qed.

(** As long as [lastTime] holds the zero sentinel, an event either hands
    no [deltaTime] to a game and leaves the sentinel, or the first
    [deltaTime] it hands over is 0. *)
Lemma handle_first_delta (ev : Event) (w : World) :
  scheduledHasGame (engine w) ->
  JS.truthy (lastTime (engine w)) = false ->
  scheduledHasGame (engine (worldOf (handle ev w)))
  /\ ((updateDeltas (effectsOf (handle ev w)) = []
       /\ JS.truthy (lastTime (engine (worldOf (handle ev w)))) = false)
      \/ exists rest, updateDeltas (effectsOf (handle ev w)) = 0 :: rest).
Proof.
  split_world w. unfold scheduledHasGame, worldOf, effectsOf. cbn.
  intros Hsched Hzero.
  destruct ev as [time o| | |win'| |g o|]; try destruct o as [b1 b2 b3 b4];
    unfold handle, run, stop, animate, handleResize, onContextLost,
      onContextRestored; crunch;
    try (specialize (Hsched eq_refl)); try discriminate;
    (split; [intuition congruence|]);
    solve [ left; split; [reflexivity | assumption || reflexivity]
          | right; eexists; reflexivity ].
Qed.

Lemma exec_first_delta (evs : list Event) :
  forall w : World,
    scheduledHasGame (engine w) ->
    JS.truthy (lastTime (engine w)) = false ->
    firstDeltaIsZero (snd (exec evs w)).
Proof.
  induction evs as [|ev evs IH]; intros w Hsched Hzero.
  - exact I.
  - rewrite exec_cons. cbn [snd]. unfold firstDeltaIsZero.
    rewrite updateDeltas_app.
    destruct (handle_first_delta ev w Hsched Hzero)
      as [Hsched1 [[Hnone Hzero1] | [rest Hfirst]]].
    + rewrite Hnone. apply IH; assumption.
    + rewrite Hfirst. reflexivity.
Qed.

(** [run] leaves the zero sentinel in [lastTime] unless its own call of
    [animate] already updated the game, with [deltaTime] 0. *)
Lemma run_resets_clock (g : Game) (o : FrameOracle) (w : World) :
  scheduledHasGame (engine (worldOf (run g o w)))
  /\ ((updateDeltas (effectsOf (run g o w)) = []
       /\ JS.truthy (lastTime (engine (worldOf (run g o w)))) = false)
      \/ exists rest, updateDeltas (effectsOf (run g o w)) = 0 :: rest).
Proof.
  split_world w. destruct o as [b1 b2 b3 b4].
  unfold scheduledHasGame, worldOf, effectsOf, run, stop, animate.
  crunch; (split; [intros; congruence|]);
    solve [ left; split; reflexivity | right; eexists; reflexivity ].
Qed.

(** [run] always leaves the zero sentinel in [lastTime]: it writes 0, and
    its own call of [animate] runs at timestamp 0. *)
Lemma run_zeroes_lastTime (g : Game) (o : FrameOracle) (w : World) :
  lastTime (engine (worldOf (run g o w))) = 0.
Proof.
  split_world w. destruct o as [b1 b2 b3 b4].
  unfold worldOf, run, stop, animate. crunch; reflexivity.
Qed.

(** In a world whose context is alive, [run] starts a session without
    updating the game: the two clock fields hold the zero sentinel and a
    callback is scheduled. *)
Lemma run_starts_session (g : Game) (o : FrameOracle) (w : World) :
  isContextLost (engine w) = false ->
  glLostBefore o = false ->
  0 < frameInterval (engine w) ->
  isContextLost (engine (worldOf (run g o w))) = false
  /\ game (engine (worldOf (run g o w))) = Some g
  /\ lastTime (engine (worldOf (run g o w))) = 0
  /\ lastFrameTime (engine (worldOf (run g o w))) = 0
  /\ frameInterval (engine (worldOf (run g o w))) = frameInterval (engine w)
  /\ animationId (engine (worldOf (run g o w))) =
     Some (rafCounter (worldOf (run g o w)))
  /\ updateDeltas (effectsOf (run g o w)) = [].
Proof.
  intros Hlost Hgl Hfi.
  split_world w. destruct o as [b1 b2 b3 b4]. cbn in Hlost, Hgl, Hfi. subst.
  unfold worldOf, effectsOf, run, stop, animate.
  crunch; q_facts; try lra; repeat split.
Qed.

(** C4. [run] leaves the zero sentinel in [lastTime].  Whatever the state
    [run] is called in and whatever follows (callbacks with arbitrary
    timestamps included), the first [deltaTime] passed to a game's
    [update] after the call is 0; and when the context is alive, [run]
    itself updates no game and the first callback whose timestamp reaches
    the frame interval does update the game, with [deltaTime] 0, whatever
    that timestamp is.  (That a tick computes [deltaTime] as
    [(time - lastTime) / 1000] when [lastTime] is non-zero and as 0
    otherwise is [animate_due].) *)
Theorem first_tick_after_run_has_zero_delta
        (w : World) (g : Game) (o : FrameOracle) :
  lastTime (engine (worldOf (run g o w))) = 0
  /\ (forall evs : list Event,
         firstDeltaIsZero (snd (exec (Run g o :: evs) w)))
  /\ (forall (time : Q) (o' : FrameOracle),
         isContextLost (engine w) = false ->
         glLostBefore o = false ->
         glLostBefore o' = false ->
         0 < frameInterval (engine w) ->
         ~ time < frameInterval (engine w) ->
         updateDeltas (effectsOf (run g o w)) = []
         /\ exists tail,
             effectsOf (handle (AnimationFrame time o') (worldOf (run g o w))) =
             RequestAnimationFrame (S (rafCounter (worldOf (run g o w))))
               :: GameUpdate (gameId g) 0
               :: InputResetMouseDelta :: RendererRender :: tail).
Proof.
  split; [apply run_zeroes_lastTime|]. split.
  - intros evs. rewrite exec_cons. cbn [snd]. unfold firstDeltaIsZero.
    rewrite updateDeltas_app. change (handle (Run g o) w) with (run g o w).
    destruct (run_resets_clock g o w)
      as [Hsched [[Hnone Hzero] | [rest Hfirst]]].
    + rewrite Hnone. apply exec_first_delta; assumption.
    + rewrite Hfirst. reflexivity.
  - intros time o' Hlost Hgl Hgl' Hfi Hdue.
    destruct (run_starts_session g o w Hlost Hgl Hfi)
      as (Hlost1 & Hgame1 & Hlt1 & Hlft1 & Hfi1 & Haid1 & Hnone).
    split; [exact Hnone|].
    rewrite (handle_frame_scheduled _ _ _ _ Haid1).
    assert (Hdue1 : ~ time - lastFrameTime (engine (worldOf (run g o w)))
                      < frameInterval (engine (worldOf (run g o w)))).
    { rewrite Hlft1, Hfi1. intros H. apply Hdue. lra. }
    destruct (animate_due time o' _ Hlost1 Hgl' Hdue1)
      as (d & tail & Heff & _ & _ & Hd & _).
    exists tail. rewrite Heff, Hgame1, Hd, Hlt1. reflexivity.
Qed.

Lemma first_tick_after_run_has_zero_delta_witness :
  firstDeltaIsZero
    (snd (exec [Run (mkGame 7 false) healthy; AnimationFrame 5 healthy;
                AnimationFrame 123456789 throwing; AnimationFrame 123456889 healthy]
               playing))
  /\ exists tail,
      effectsOf (handle (AnimationFrame 123456789 throwing)
                        (worldOf (run (mkGame 7 false) healthy desktop))) =
      RequestAnimationFrame
        (S (rafCounter (worldOf (run (mkGame 7 false) healthy desktop))))
        :: GameUpdate 7 0 :: InputResetMouseDelta :: RendererRender :: tail.
Proof.
  split.
  - apply (proj1 (proj2 (first_tick_after_run_has_zero_delta
                           playing (mkGame 7 false) healthy))).
  - apply (proj2 (proj2 (first_tick_after_run_has_zero_delta
                           desktop (mkGame 7 false) healthy))
                 123456789 throwing); try reflexivity.
    intros H. vm_compute in H. discriminate H.
Defined.


(* ---------------------------------------------------------------- *)
(** *** Context loss and restoration *)

(** While the context is flagged lost, an event other than the
    restoration signal leaves the flag and the scene alone and does none
    of the work of a tick. *)
Lemma handle_while_lost (ev : Event) (w : World) :
  isContextLost (engine w) = true ->
  isRestored ev = false ->
  isContextLost (engine (worldOf (handle ev w))) = true
  /\ scene (engine (worldOf (handle ev w))) = scene (engine w)
  /\ noTickWork (effectsOf (handle ev w)).
Proof.
  intros Hlost Hev. split_world w. cbn in Hlost. subst lost.
  unfold worldOf, effectsOf, noTickWork.
  destruct ev as [time o| | |win'| |g o|]; try destruct o as [b1 b2 b3 b4];
    try discriminate;
    unfold handle, run, stop, animate, handleResize, onContextLost;
    crunch; repeat split.
Qed.

Lemma exec_while_lost (evs : list Event) :
  forall w : World,
    isContextLost (engine w) = true ->
    existsb isRestored evs = false ->
    isContextLost (engine (fst (exec evs w))) = true
    /\ scene (engine (fst (exec evs w))) = scene (engine w)
    /\ noTickWork (snd (exec evs w)).
Proof.
  induction evs as [|ev evs IH]; intros w Hlost Hevs.
  - repeat split; assumption.
  - simpl in Hevs. apply orb_false_iff in Hevs. destruct Hevs as [Hev Hevs].
    rewrite exec_cons. cbn [fst snd].
    destruct (handle_while_lost ev w Hlost Hev) as (Hlost1 & Hscene1 & Hwork1).
    destruct (IH _ Hlost1 Hevs) as (Hlost2 & Hscene2 & Hwork2).
    repeat split; [assumption | congruence |].
    unfold noTickWork in *. rewrite existsb_app, Hwork1, Hwork2. reflexivity.
Qed.

(** No event touches the configuration, and none writes to the renderer
    anything but what [applyRendererSettings] overwrites. *)
Lemma handle_renderer_settings (ev : Event) (w : World) :
  config (engine (worldOf (handle ev w))) = config (engine w)
  /\ sameUnderSettings (config (engine w)) (renderer (engine w))
                       (renderer (engine (worldOf (handle ev w)))).
Proof.
  split_world w. unfold worldOf, sameUnderSettings.
  destruct ev as [time o| | |win'| |g o|]; try destruct o as [b1 b2 b3 b4];
    unfold handle, run, stop, animate, handleResize, onContextLost,
      onContextRestored; crunch;
    (split; [reflexivity|]); intros win0;
    unfold applyRendererSettings; cbn;
    try destruct (JS.nullish (enableShadows cfg) true); reflexivity.
Qed.

Lemma exec_renderer_settings (evs : list Event) :
  forall w : World,
    config (engine (fst (exec evs w))) = config (engine w)
    /\ sameUnderSettings (config (engine w)) (renderer (engine w))
                         (renderer (engine (fst (exec evs w)))).
Proof.
  induction evs as [|ev evs IH]; intros w.
  - split; [reflexivity | intros win0; reflexivity].
  - rewrite exec_cons. cbn [fst].
    destruct (handle_renderer_settings ev w) as [Hcfg1 Hr1].
    destruct (IH (worldOf (handle ev w))) as [Hcfg2 Hr2].
    split; [congruence|].
    intros win0. rewrite Hcfg1 in Hr2. rewrite Hr2. apply Hr1.
Qed.

(** A constructed engine carries the settings of its window. *)
Lemma new_renderer_in_sync (cfg : EngineConfig) (win : Window) :
  rendererInSync (fst (new cfg win)).
Proof.
  unfold rendererInSync, new, applyRendererSettings. cbn.
  destruct (JS.nullish (enableShadows cfg) true); reflexivity.
Qed.

(** C1, as amended. After a context-lost signal and until a
    context-restored signal, whatever happens makes no game update, no
    input reset and no draw call, and leaves the scene unmodified.  The
    context-restored signal clears the flag and writes to the renderer
    the settings computed from the construction-time configuration and
    the window as it is then; these are the viewport size, pixel ratio
    and shadow-map settings from before the loss whenever the renderer
    carried the settings of its window before the loss and the window's
    metrics are the same at restoration.  After restoration a callback
    that is due, with a live context and a draw call that does not throw,
    updates the game and draws. *)
Theorem context_loss_skips_ticks_restore_reapplies
        (w : World) (evs : list Event)
        (Hevs : existsb isRestored evs = false) :
  let w1 := fst (exec (WebGLContextLost :: evs) w) in
  let w2 := worldOf (handle WebGLContextRestored w1) in
  noTickWork (snd (exec (WebGLContextLost :: evs) w))
  /\ scene (engine w1) = scene (engine w)
  /\ isContextLost (engine w2) = false
  /\ renderer (engine w2) =
     applyRendererSettings (config (engine w)) (window w1) (renderer (engine w))
  /\ (rendererInSync w -> window w1 = window w ->
      renderer (engine w2) = renderer (engine w))
  /\ (forall (time : Q) (o : FrameOracle),
         glLostBefore o = false ->
         renderThrows o = false ->
         ~ time - lastFrameTime (engine w2) < frameInterval (engine w2) ->
         exists deltaTime,
           animate time o w2 =
           (Normal tt, worldOf (animate time o w2),
            RequestAnimationFrame (S (rafCounter w2))
              :: updateCall (game (engine w2)) deltaTime
              ++ [InputResetMouseDelta; RendererRender])).
Proof.
  intros w1 w2.
  set (wl := worldOf (handle WebGLContextLost w)).
  assert (Hw1 : w1 = fst (exec evs wl)) by (subst w1; now rewrite exec_cons).
  assert (Hlog : snd (exec (WebGLContextLost :: evs) w) =
                 (effectsOf (handle WebGLContextLost w) ++ snd (exec evs wl))%list)
    by now rewrite exec_cons.
  destruct (exec_while_lost evs wl eq_refl Hevs) as (Hlost1 & Hscene1 & Hwork1).
  destruct (exec_renderer_settings (WebGLContextLost :: evs) w) as [Hcfg1 Hr1].
  fold w1 in Hcfg1, Hr1. rewrite <- Hw1 in Hlost1, Hscene1.
  assert (Hr2 : renderer (engine w2) =
                applyRendererSettings (config (engine w)) (window w1)
                                      (renderer (engine w))).
  { rewrite <- Hr1, <- Hcfg1. reflexivity. }
  repeat split.
  - rewrite Hlog. unfold noTickWork in *.
    rewrite existsb_app, Hwork1. reflexivity.
  - rewrite Hscene1. reflexivity.
  - exact Hr2.
  - intros Hsync Hwin. rewrite Hr2, Hwin. symmetry. exact Hsync.
  - intros time o Hgl Hok Hdue.
    destruct (animate_due time o w2 eq_refl Hgl Hdue)
      as (d & tail & Heff & _ & Htail & _).
    exists d. rewrite (Htail Hok) in Heff.
    pose proof (animate_completes time o w2) as Hc.
    unfold completionOf, worldOf, effectsOf in *.
    destruct (animate time o w2) as [[c w3] l3]. cbn in *. congruence.
Qed.

(** Between construction and restoration the display's pixel ratio
    doubles (the window moves to a high-density screen; no listener of the
    engine follows that).  The renderer's pixel ratio is 1 before the loss
    and 2 after the restoration, and the next due tick draws with it. *)
Lemma restore_does_not_reproduce_pixel_ratio :
  let pre := fst (exec [Run (mkGame 1 false) healthy;
                        AnimationFrame 100 healthy;
                        WindowChanged (mkWindow 800 600 2)] desktop) in
  let restored := fst (exec [WebGLContextLost;
                             AnimationFrame 200 healthy;
                             WebGLContextRestored] pre) in
  let drawn := exec [AnimationFrame 300 healthy] restored in
  pixelRatio (renderer (engine pre)) = 1
  /\ pixelRatio (renderer (engine restored)) = 2
  /\ snd drawn = [RequestAnimationFrame 4; GameUpdate 1 ((300 - 100) / 1000);
                  InputResetMouseDelta; RendererRender]
  /\ renderer (engine (fst drawn)) <> renderer (engine pre).
Proof.
  cbv zeta. repeat split. vm_compute. discriminate.
Qed.

Lemma context_loss_skips_ticks_restore_reapplies_witness :
  noTickWork
    (snd (exec [WebGLContextLost; AnimationFrame 200 healthy; WindowResize]
               (fst (exec [Run (mkGame 1 true) healthy; AnimationFrame 100 healthy]
                          (fst (new (mkConfig None (Some 2) None)
                                    (mkWindow 800 600 3)))))))
  /\ renderer
       (engine
          (worldOf
             (handle WebGLContextRestored
                (fst (exec [WebGLContextLost; AnimationFrame 200 healthy; WindowResize]
                   (fst (exec [Run (mkGame 1 true) healthy; AnimationFrame 100 healthy]
                              (fst (new (mkConfig None (Some 2) None)
                                        (mkWindow 800 600 3))))))))))
     = renderer
         (engine
            (fst (exec [Run (mkGame 1 true) healthy; AnimationFrame 100 healthy]
                       (fst (new (mkConfig None (Some 2) None)
                                 (mkWindow 800 600 3)))))).
Proof.
  pose proof (context_loss_skips_ticks_restore_reapplies
                (fst (exec [Run (mkGame 1 true) healthy; AnimationFrame 100 healthy]
                           (fst (new (mkConfig None (Some 2) None)
                                     (mkWindow 800 600 3)))))
                [AnimationFrame 200 healthy; WindowResize] eq_refl) as H.
  cbv zeta in H. destruct H as (Hwork & _ & _ & _ & Hsame & _).
  split; [exact Hwork | apply Hsame; reflexivity].
Defined.

(* ---------------------------------------------------------------- *)
(** *** Sessions *)

Lemma disposed_app (l1 l2 : list Effect) :
  disposed (l1 ++ l2) = (disposed l1 ++ disposed l2)%list.
Proof.
  induction l1 as [|ef l1 IH]; [reflexivity|].
  destruct ef; simpl; now rewrite IH.
Qed.

Lemma updated_app (l1 l2 : list Effect) :
  updated (l1 ++ l2) = (updated l1 ++ updated l2)%list.
Proof.
  induction l1 as [|ef l1 IH]; [reflexivity|].
  destruct ef; simpl; now rewrite IH.
Qed.

Lemma disposed_split (a : nat) (l : list Effect) :
  In a (disposed l) ->
  exists before after, l = (before ++ GameDispose a :: after)%list.
Proof.
  induction l as [|ef l IH]; simpl; [intros []|].
  destruct ef; simpl;
    try (intros H; destruct (IH H) as (x & y & ->);
         eexists (_ :: x), y; reflexivity).
  intros [-> | H].
  - exists [], l. reflexivity.
  - destruct (IH H) as (x & y & ->). eexists (_ :: x), y. reflexivity.
Qed.

(** An event other than a call of [run] updates no game but the active
    one, and either keeps the active game and disposes of nothing, or
    disposes of the active game, once, and leaves no game active. *)
Lemma handle_session (ev : Event) (w : World) :
  isRun ev = false ->
  (forall b, In b (updated (effectsOf (handle ev w))) -> activeId w = Some b)
  /\ ((game (engine (worldOf (handle ev w))) = game (engine w)
       /\ disposed (effectsOf (handle ev w)) = [])
      \/ (exists g, game (engine w) = Some g
                    /\ game (engine (worldOf (handle ev w))) = None
                    /\ disposed (effectsOf (handle ev w)) = [gameId g])).
Proof.
  intros Hev. split_world w. unfold worldOf, effectsOf, activeId.
  destruct ev as [time o| | |win'| |g o|]; try destruct o as [b1 b2 b3 b4];
    try discriminate;
    unfold handle, stop, animate, handleResize, onContextLost,
      onContextRestored; crunch;
    (split; [intros b [<- | []] || intros b []; reflexivity|]);
    solve [ left; split; reflexivity
          | right; eexists; repeat split; reflexivity ].
Qed.

Lemma exec_session (evs : list Event) :
  forall w : World,
    existsb isRun evs = false ->
    (forall b, In b (updated (snd (exec evs w))) -> activeId w = Some b)
    /\ ((game (engine (fst (exec evs w))) = game (engine w)
         /\ disposed (snd (exec evs w)) = [])
        \/ (exists g, game (engine w) = Some g
                      /\ game (engine (fst (exec evs w))) = None
                      /\ disposed (snd (exec evs w)) = [gameId g])).
Proof.
  induction evs as [|ev evs IH]; intros w Hevs.
  - split; [intros b [] | left; split; reflexivity].
  - simpl in Hevs. apply orb_false_iff in Hevs. destruct Hevs as [Hev Hevs].
    rewrite exec_cons. cbn [fst snd].
    destruct (handle_session ev w Hev) as [Hupd1 Hdisp1].
    destruct (IH (worldOf (handle ev w)) Hevs) as [Hupd2 Hdisp2].
    rewrite updated_app, disposed_app.
    destruct Hdisp1 as [[Hgame1 Hnone1] | (g & Hg & Hgame1 & Hone1)].
    + split.
      * intros b Hb. apply in_app_or in Hb. destruct Hb as [Hb|Hb]; [auto|].
        apply Hupd2 in Hb. unfold activeId in *. now rewrite <- Hgame1.
      * rewrite Hnone1. simpl.
        destruct Hdisp2 as [[Hgame2 Hnone2] | (g & Hg & Hgame2 & Hone2)].
        -- left. split; congruence.
        -- right. exists g. repeat split; congruence.
    + assert (Hidle : activeId (worldOf (handle ev w)) = None)
        by (unfold activeId; now rewrite Hgame1).
      split.
      * intros b Hb. apply in_app_or in Hb. destruct Hb as [Hb|Hb]; [auto|].
        apply Hupd2 in Hb. congruence.
      * right. exists g. rewrite Hone1.
        destruct Hdisp2 as [[Hgame2 Hnone2] | (g' & Hg' & _)]; [|congruence].
        rewrite Hnone2. repeat split; congruence.
Qed.

(** [run] makes its game the active one; it disposes of the game that
    was active, if any, before any update, and updates no game but its
    own. *)
Lemma run_session (g : Game) (o : FrameOracle) (w : World) :
  game (engine (worldOf (run g o w))) = Some g
  /\ (forall b, In b (updated (effectsOf (run g o w))) -> b = gameId g)
  /\ match game (engine w) with
     | None => disposed (effectsOf (run g o w)) = []
     | Some g0 =>
         exists before after,
         effectsOf (run g o w) = (before ++ GameDispose (gameId g0) :: after)%list
         /\ updated before = [] /\ disposed before = [] /\ disposed after = []
     end.
Proof.
  split_world w. destruct o as [b1 b2 b3 b4].
  unfold worldOf, effectsOf, run, stop, animate.
  crunch;
    (split; [reflexivity|]);
    (split; [intros b [<- | []] || intros b []; reflexivity|]);
    try reflexivity;
    match goal with
    | |- exists before after, (?x :: ?y :: GameDispose _ :: ?r = _) /\ _ =>
        exists [x; y], r
    | |- exists before after, (?x :: GameDispose _ :: ?r = _) /\ _ =>
        exists [x], r
    end; repeat split.
Qed.

(** C6. From a state in which [gameA] is not already the active game,
    calling [run gameA] and later [run gameB], with any events but
    further calls of [run] before, between and after: [gameA]'s
    [dispose] hook is called exactly once in all, and no [update] of
    [gameB] comes before that call. *)
Theorem restart_disposes_previous_game_once
        (w : World) (gameA gameB : Game) (oA oB : FrameOracle)
        (evs1 evs2 : list Event)
        (Hdistinct : gameId gameA <> gameId gameB)
        (Hfresh : forall g0, game (engine w) = Some g0 ->
                             gameId g0 <> gameId gameA)
        (Hevs1 : existsb isRun evs1 = false)
        (Hevs2 : existsb isRun evs2 = false) :
  let log := snd (exec (Run gameA oA :: evs1 ++ Run gameB oB :: evs2) w) in
  count_occ Nat.eq_dec (disposed log) (gameId gameA) = 1%nat
  /\ exists before after,
      log = (before ++ GameDispose (gameId gameA) :: after)%list
      /\ ~ In (gameId gameB) (updated before).
Proof.
  intros log.
  set (wA := worldOf (run gameA oA w)).
  set (lA := effectsOf (run gameA oA w)).
  set (w1 := fst (exec evs1 wA)).
  set (l1 := snd (exec evs1 wA)).
  set (wB := worldOf (run gameB oB w1)).
  set (lB := effectsOf (run gameB oB w1)).
  set (l2 := snd (exec evs2 wB)).
  assert (Hlog : log = (lA ++ l1 ++ lB ++ l2)%list).
  { subst log. rewrite exec_cons, exec_app, exec_cons. reflexivity. }
  destruct (run_session gameA oA w) as (HgameA & HupdA & HdispA).
  fold wA in HgameA. fold lA in HupdA, HdispA.
  destruct (exec_session evs1 wA Hevs1) as [Hupd1 Hdisp1].
  fold l1 in Hupd1, Hdisp1. fold w1 in Hdisp1.
  destruct (run_session gameB oB w1) as (HgameB & HupdB & HdispB).
  fold wB in HgameB. fold lB in HupdB, HdispB.
  destruct (exec_session evs2 wB Hevs2) as [_ Hdisp2].
  fold l2 in Hdisp2.
  assert (HcountA : count_occ Nat.eq_dec (disposed lA) (gameId gameA) = 0%nat).
  { destruct (game (engine w)) as [g0|] eqn:Hg0.
    - destruct HdispA as (x & y & -> & _ & Hx & Hy).
      rewrite disposed_app. simpl. rewrite Hx, Hy. simpl.
      destruct (Nat.eq_dec (gameId g0) (gameId gameA)) as [Heq|]; [|reflexivity].
      exfalso. exact (Hfresh g0 eq_refl Heq).
    - rewrite HdispA. reflexivity. }
  assert (Hcount2 : count_occ Nat.eq_dec (disposed l2) (gameId gameA) = 0%nat).
  { destruct Hdisp2 as [[_ ->] | (g & Hg & _ & ->)]; [reflexivity|].
    rewrite HgameB in Hg. injection Hg as <-. simpl.
    destruct (Nat.eq_dec (gameId gameB) (gameId gameA)); [congruence|reflexivity]. }
  assert (HnoB_A : ~ In (gameId gameB) (updated lA)).
  { intros H. apply HupdA in H. congruence. }
  assert (HnoB_1 : ~ In (gameId gameB) (updated l1)).
  { intros H. apply Hupd1 in H. unfold activeId in H. rewrite HgameA in H.
    simpl in H. congruence. }
  rewrite Hlog, !disposed_app, !count_occ_app, HcountA, Hcount2.
  destruct Hdisp1 as [[Hsame Hnone1] | (g & Hg & Hidle & Hone1)].
  - (* gameA is still active when [run gameB] is called *)
    rewrite Hsame, HgameA in HdispB.
    destruct HdispB as (x & y & HlB & Hux & Hdx & Hdy).
    split.
    + rewrite Hnone1, HlB, disposed_app. simpl. rewrite Hdx, Hdy. simpl.
      destruct (Nat.eq_dec (gameId gameA) (gameId gameA)); [reflexivity|congruence].
    + exists (lA ++ l1 ++ x)%list, (y ++ l2)%list. split.
      * rewrite HlB, <- !app_assoc. reflexivity.
      * rewrite !updated_app, Hux, app_nil_r. intros H.
        apply in_app_or in H. tauto.
  - (* gameA was stopped in between *)
    rewrite HgameA in Hg. injection Hg as <-.
    rewrite Hidle in HdispB.
    split.
    + rewrite Hone1, HdispB. simpl.
      destruct (Nat.eq_dec (gameId gameA) (gameId gameA)); [reflexivity|congruence].
    + destruct (disposed_split (gameId gameA) l1) as (x & y & Hl1).
      { rewrite Hone1. now left. }
      exists (lA ++ x)%list, (y ++ lB ++ l2)%list. split.
      * rewrite Hl1, <- !app_assoc. reflexivity.
      * rewrite Hl1, updated_app in HnoB_1. rewrite updated_app. intros H.
        apply in_app_or in H. destruct H as [H|H]; [tauto|].
        apply HnoB_1. apply in_or_app. now left.
Qed.

Lemma restart_disposes_previous_game_once_witness :
  count_occ Nat.eq_dec
    (disposed
       (snd (exec (Run (mkGame 1 true) healthy
                     :: [AnimationFrame 100 healthy; WindowResize]
                     ++ Run (mkGame 2 false) healthy
                     :: [AnimationFrame 200 healthy; Stop])
                  desktop)))
    1%nat = 1%nat.
Proof.
  refine (proj1 (restart_disposes_previous_game_once
                   desktop (mkGame 1 true) (mkGame 2 false) healthy healthy
                   [AnimationFrame 100 healthy; WindowResize]
                   [AnimationFrame 200 healthy; Stop]
                   _ _ eq_refl eq_refl)).
  - simpl. lia.
  - intros g0 H. vm_compute in H. discriminate H.
Defined.

(** The log of such a restart, in full. *)
Example restart_log :
  snd (exec [Run (mkGame 1 true) healthy; AnimationFrame 100 healthy;
             Run (mkGame 2 false) healthy; AnimationFrame 200 healthy]
            desktop)
  = [ConsoleLog "[Engine] Starting game"; RequestAnimationFrame 1;
     RequestAnimationFrame 2; GameUpdate 1 0; InputResetMouseDelta;
     RendererRender;
     ConsoleWarn "[Engine] Stopping previous game"; CancelAnimationFrame 2;
     GameDispose 1; ConsoleLog "[Engine] Stopped";
     ConsoleLog "[Engine] Starting game"; RequestAnimationFrame 3;
     RequestAnimationFrame 4; GameUpdate 2 0; InputResetMouseDelta;
     RendererRender].
Proof. reflexivity. Qed.

End Traces.

(* ================================================================== *)
(** * Further properties of the engine *)

Import EngineDispose Measures.

Ltac run_handlers :=
  unfold handle, run, stop, animate, handleResize, onContextLost,
    onContextRestored;
  crunch.

Section EngineLifecycle.
Local Open Scope Q_scope.

(** X1. [stop] is idempotent: after one call no game is active and no
    callback is scheduled, and a second call cancels nothing, disposes of
    nothing, leaves the world as it is and only logs. *)
Theorem stop_is_idempotent (w : World) :
  let w1 := worldOf (stop w) in
  game (engine w1) = None
  /\ animationId (engine w1) = None
  /\ stop w1 = (Normal tt, w1, [ConsoleLog "[Engine] Stopped"]).
Proof.
  split_world w. unfold worldOf, stop. crunch; repeat split.
Qed.

(** Every event keeps the two fields in step: a callback is scheduled
    exactly when a game is active. *)
Lemma handle_keeps_schedule (ev : Event) (w : World) :
  (game (engine w) = None <-> animationId (engine w) = None) ->
  (game (engine (worldOf (handle ev w))) = None <->
   animationId (engine (worldOf (handle ev w))) = None).
Proof.
  split_world w. unfold worldOf. cbn. intros Hiff.
  destruct ev as [time o| | |win'| |g o|]; try destruct o as [b1 b2 b3 b4];
    run_handlers; intuition congruence.
Qed.

(** X2. In every state a constructed engine can reach, by any sequence of
    events, a callback is scheduled exactly when a game is active. *)
Theorem scheduled_iff_running
        (cfg : EngineConfig) (win : Window) (evs : list Event) :
  let w := fst (exec evs (fst (new cfg win))) in
  game (engine w) = None <-> animationId (engine w) = None.
Proof.
  cbv zeta.
  assert (H0 : game (engine (fst (new cfg win))) = None <->
               animationId (engine (fst (new cfg win))) = None)
    by (split; reflexivity).
  revert H0. generalize (fst (new cfg win)) as w.
  induction evs as [|ev evs IH]; intros w H0; [exact H0|].
  rewrite exec_cons. cbn [fst]. apply IH. now apply handle_keeps_schedule.
Qed.

(** One event: the game it starts, after the game that was active, is the
    game it disposes of followed by the game it leaves active. *)
Lemma handle_accounts (ev : Event) (w : World) :
  (active w ++ started [ev])%list =
  (disposed (effectsOf (handle ev w)) ++ active (worldOf (handle ev w)))%list.
Proof.
  destruct (isRun ev) eqn:Hrun.
  - destruct ev as [| | | | |g o|]; try discriminate.
    change (handle (Run g o) w) with (run g o w).
    destruct (run_session g o w) as (Hgame & _ & Hdisp).
    unfold active. rewrite Hgame. simpl.
    destruct (game (engine w)) as [g0|].
    + destruct Hdisp as (x & y & -> & _ & Hx & Hy).
      rewrite disposed_app. simpl. rewrite Hx, Hy. reflexivity.
    + rewrite Hdisp. reflexivity.
  - assert (Hnone : started [ev] = []) by (destruct ev; try discriminate; reflexivity).
    rewrite Hnone, app_nil_r.
    destruct (handle_session ev w Hrun)
      as [_ [[Hsame Hnil] | (g & Hg & Hidle & Hone)]]; unfold active.
    + rewrite Hsame, Hnil. reflexivity.
    + rewrite Hg, Hidle, Hone. reflexivity.
Qed.

Lemma started_app (evs1 evs2 : list Event) :
  started (evs1 ++ evs2) = (started evs1 ++ started evs2)%list.
Proof.
  induction evs1 as [|ev evs1 IH]; [reflexivity|].
  destruct ev; simpl; now rewrite IH.
Qed.

Lemma exec_accounts (evs : list Event) :
  forall w : World,
    (active w ++ started evs)%list =
    (disposed (snd (exec evs w)) ++ active (fst (exec evs w)))%list.
Proof.
  induction evs as [|ev evs IH]; intros w.
  - simpl. now rewrite app_nil_r.
  - rewrite exec_cons. cbn [fst snd].
    change (ev :: evs) with ([ev] ++ evs)%list.
    rewrite started_app, app_assoc, handle_accounts, <- app_assoc, IH.
    rewrite disposed_app, app_assoc. reflexivity.
Qed.

(** X3. Whatever the sequence of events on a constructed engine, the
    games handed to [run], in order, are exactly the games whose [dispose]
    hook has been called, in order, followed by the game that is active,
    if any: a game is disposed of once, when it is replaced or stopped,
    and no game reference is dropped without it. *)
Theorem every_started_game_is_disposed_or_active
        (cfg : EngineConfig) (win : Window) (evs : list Event) :
  started evs =
  (disposed (snd (exec evs (fst (new cfg win))))
     ++ active (fst (exec evs (fst (new cfg win)))))%list.
Proof.
  rewrite <- exec_accounts. reflexivity.
Qed.

Lemma loopEffects_stop (l : list Effect) (tail : list Release) :
  loopEffects (map Loop l ++ tail) = (l ++ loopEffects tail)%list.
Proof.
  induction l as [|ef l IH]; [reflexivity|]. simpl. now rewrite IH.
Qed.

(** [stop] disposes of the active game and leaves nothing active or
    scheduled. *)
Lemma stop_clears (w : World) :
  disposed (effectsOf (stop w)) = active w
  /\ game (engine (worldOf (stop w))) = None
  /\ animationId (engine (worldOf (stop w))) = None.
Proof.
  split_world w. unfold effectsOf, worldOf, active, stop.
  crunch; repeat split.
Qed.

(** X4. [dispose] after any sequence of events leaves no game behind: with
    its calls added, the games disposed of are exactly the games that
    were started; no game is active and no callback is scheduled
    afterwards; and the input objects and the renderer are released after
    the calls of [stop], in this order. *)
Theorem dispose_leaves_no_game
        (cfg : EngineConfig) (win : Window) (evs : list Event) :
  let w := fst (exec evs (fst (new cfg win))) in
  let log := snd (exec evs (fst (new cfg win))) in
  disposed (log ++ loopEffects (snd (dispose w))) = started evs
  /\ game (engine (fst (dispose w))) = None
  /\ animationId (engine (fst (dispose w))) = None
  /\ snd (dispose w) =
     (map Loop (effectsOf (stop w))
        ++ [InputDispose; MobileInputDispose; RendererDispose;
            Loop (ConsoleLog "[Engine] Disposed")])%list.
Proof.
  intros w log.
  pose proof (exec_accounts evs (fst (new cfg win))) as Hacc.
  change (active (fst (new cfg win))) with (@nil nat) in Hacc.
  simpl app in Hacc. fold w log in Hacc.
  destruct (stop_clears w) as (Hdisp & Hgame & Haid).
  unfold dispose. unfold effectsOf, worldOf in *.
  destruct (stop w) as [[c w1] l1]. cbn [fst snd] in *.
  repeat split; try assumption.
  rewrite loopEffects_stop, !disposed_app, Hdisp. simpl.
  rewrite app_nil_r. symmetry. exact Hacc.
Qed.

End EngineLifecycle.

Section EngineSettings.
Local Open Scope Q_scope.

(** Every event keeps the configuration and the three renderer settings
    that only the configuration decides. *)
Lemma handle_keeps_fixed_settings (ev : Event) (w : World) :
  let cfg := config (engine w) in
  let fixed (r : WebGLRenderer) :=
    shadowMapEnabled r = JS.nullish (enableShadows cfg) true
    /\ shadowMapType r = (if JS.nullish (enableShadows cfg) true
                          then shadowTypeFor cfg else PCFShadowMap) in
  fixed (renderer (engine w)) ->
  config (engine (worldOf (handle ev w))) = cfg
  /\ antialiasing (renderer (engine (worldOf (handle ev w)))) =
     antialiasing (renderer (engine w))
  /\ fixed (renderer (engine (worldOf (handle ev w)))).
Proof.
  split_world w. destruct rd. unfold worldOf. cbn. intros [Hen Hty].
  destruct ev as [time o| | |win'| |g o|]; try destruct o as [b1 b2 b3 b4];
    run_handlers; unfold applyRendererSettings in *; crunch;
    repeat split; auto; congruence.
Qed.

(** X5. The settings that only the configuration decides never change: in
    every state a constructed engine reaches, antialiasing is
    [antialias ?? true], the shadow map is enabled exactly when
    [enableShadows ?? true], and its type is the tier's when enabled and
    the renderer's default when not; context restoration re-enables
    nothing the configuration turned off. *)
Theorem configured_settings_never_change
        (cfg : EngineConfig) (win : Window) (evs : list Event) :
  let r := renderer (engine (fst (exec evs (fst (new cfg win))))) in
  antialiasing r = JS.nullish (antialias cfg) true
  /\ shadowMapEnabled r = JS.nullish (enableShadows cfg) true
  /\ shadowMapType r = (if JS.nullish (enableShadows cfg) true
                        then shadowTypeFor cfg else PCFShadowMap).
Proof.
  cbv zeta.
  assert (H0 : config (engine (fst (new cfg win))) = cfg
               /\ antialiasing (renderer (engine (fst (new cfg win)))) =
                  JS.nullish (antialias cfg) true
               /\ shadowMapEnabled (renderer (engine (fst (new cfg win)))) =
                  JS.nullish (enableShadows cfg) true
               /\ shadowMapType (renderer (engine (fst (new cfg win)))) =
                  (if JS.nullish (enableShadows cfg) true
                   then shadowTypeFor cfg else PCFShadowMap)).
  { unfold new, applyRendererSettings. cbn.
    destruct (JS.nullish (enableShadows cfg) true); repeat split. }
  revert H0. generalize (fst (new cfg win)) as w.
  induction evs as [|ev evs IH]; intros w (Hcfg & Haa & Hen & Hty);
    [repeat split; assumption|].
  rewrite exec_cons. cbn [fst]. apply IH.
  pose proof (handle_keeps_fixed_settings ev w) as Hstep.
  cbv zeta in Hstep. rewrite Hcfg in Hstep.
  destruct (Hstep (conj Hen Hty)) as (Hcfg1 & Haa1 & Hen1 & Hty1).
  repeat split; congruence.
Qed.

End EngineSettings.

Section EngineContext.
Local Open Scope Q_scope.

(** X6. A tick that finds the context dead, at the validity check or in
    the catch block of a draw call that throws, sets the lost flag just as
    the context-lost signal does: from then on and until a
    context-restored signal, no event makes a game update, an input reset
    or a draw call, even if the driver answers that the context is alive
    again. *)
Theorem dead_context_detection_is_sticky
        (time : Q) (o : FrameOracle) (w : World) (evs : list Event)
        (Hflag : isContextLost (engine w) = false)
        (Hdead : detectsDeadContext o = true)
        (Hdue : glLostBefore o = false ->
                ~ time - lastFrameTime (engine w) < frameInterval (engine w))
        (Hevs : existsb isRestored evs = false) :
  let w1 := worldOf (animate time o w) in
  isContextLost (engine w1) = true
  /\ isContextLost (engine (fst (exec evs w1))) = true
  /\ noTickWork (snd (exec evs w1)).
Proof.
  intros w1.
  assert (Hlost : isContextLost (engine w1) = true).
  { subst w1. destruct (glLostBefore o) eqn:Hgl.
    - rewrite animate_context_dead by assumption. reflexivity.
    - specialize (Hdue eq_refl). apply lt_false_iff in Hdue.
      unfold detectsDeadContext in Hdead. rewrite Hgl in Hdead. simpl in Hdead.
      split_world w. destruct o as [b1 b2 b3 b4]. cbn in *. subst.
      apply andb_true_iff in Hdead. destruct Hdead as [-> Hdead].
      unfold worldOf, animate. crunch; try discriminate; reflexivity. }
  destruct (exec_while_lost evs w1 Hlost Hevs) as (H1 & _ & H2).
  repeat split; assumption.
Qed.

Lemma dead_context_detection_is_sticky_witness :
  noTickWork
    (snd (exec [AnimationFrame 200 healthy; WindowResize; AnimationFrame 300 healthy]
               (worldOf (animate 100 (mkOracle false true false true) playing)))).
Proof.
  assert (Hdue : glLostBefore (mkOracle false true false true) = false ->
                 ~ 100 - lastFrameTime (engine playing)
                   < frameInterval (engine playing)).
  { intros _ H. vm_compute in H. discriminate H. }
  apply (dead_context_detection_is_sticky
           100 (mkOracle false true false true) playing
           [AnimationFrame 200 healthy; WindowResize; AnimationFrame 300 healthy]
           eq_refl eq_refl Hdue eq_refl).
Defined.

End EngineContext.

(* ------------------------------------------------------------------ *)
(** ** Customers, platforms and the customer block of the game *)

Section CustomerLifecycle.
Import Three Customer CustomerDisplay.

(** X7. Fulfilling an order closes the customer: the order is reported
    fulfilled, no player position interacts with the customer any more,
    no list of ingredients validates against the order, position, order
    and radius are kept, and fulfilling again changes nothing. *)
Theorem fulfilled_order_is_closed (c : Customer) :
  let c' := fulfillOrder c in
  isOrderFulfilled c' = true
  /\ (forall playerPosition, checkInteraction c' playerPosition = false)
  /\ (forall playerIngredients, validateOrder c' playerIngredients = false)
  /\ position c' = position c
  /\ order c' = order c
  /\ interactionRadius c' = interactionRadius c
  /\ fulfillOrder c' = c'.
Proof. cbv zeta. repeat split. Qed.

(** X8. Every ingredient has an entry in the colour table that is not
    zero, so [getIngredientColor] returns the entry and never the white
    fallback; the six colours are pairwise different; and [getOrder]
    returns the ingredients of the order. *)
Theorem ingredient_colour_is_the_table_entry :
  (forall type, getIngredientColor type = colors type
                /\ getIngredientColor type <> 0xffffff%Z)
  /\ (forall a b, getIngredientColor a = getIngredientColor b -> a = b)
  /\ (forall c, ingredients (getOrder c) = ingredients (order c)).
Proof.
  split; [|split].
  - intros type. destruct type; split; try reflexivity; discriminate.
  - intros a b. destruct a, b; try reflexivity; discriminate.
  - reflexivity.
Qed.

End CustomerLifecycle.

Section PlatformMesh.
Import Three Platform.

(** X9. The bounds of a platform do not depend on its colour or
    visibility; the platform has a mesh unless [visible] is [false], and
    the mesh has the size and the position of the configuration and its
    colour, brown (0x8b4513) when none is given. *)
Theorem platform_mesh_follows_config
        (pos sz : Vector3) (col col' : option Z) (vis vis' : option bool) :
  getBounds (new (mkPlatformConfig pos sz col vis))
  = getBounds (new (mkPlatformConfig pos sz col' vis'))
  /\ (mesh (new (mkPlatformConfig pos sz col vis)) = None
      <-> vis = Some false)
  /\ (vis <> Some false ->
      mesh (new (mkPlatformConfig pos sz col vis))
      = Some (mkMesh sz (match col with Some c => c | None => 0x8b4513%Z end)
                     pos)).
Proof.
  split; [reflexivity|]. split.
  - destruct vis as [[|]|]; cbn; split; congruence.
  - intros Hv. destruct vis as [[|]|]; cbn; congruence.
Qed.

End PlatformMesh.

Section GameDeliveries.
Import Three Customer PlatformerGame GameMeasures.

(** The search returns a customer of the list, at its index, whose order
    is not fulfilled. *)
Lemma findNearFrom_spec (cs : list Customer) (pos : Vector3) :
  forall (i j : nat) (c : Customer),
    findNearFrom i cs pos = Some (j, c) ->
    (i <= j)%nat
    /\ nth_error cs (j - i) = Some c
    /\ isOrderFulfilled c = false
    /\ checkInteraction c pos = true.
Proof.
  induction cs as [|c0 cs IH]; intros i j c H; cbn [findNearFrom] in H.
  - discriminate.
  - destruct (negb (isOrderFulfilled c0) && checkInteraction c0 pos) eqn:E.
    + inversion H; subst. rewrite Nat.sub_diag. cbn.
      apply andb_prop in E. destruct E as [E1 E2].
      apply negb_true_iff in E1. auto.
    + destruct (IH _ _ _ H) as (Hle & Hnth & Hf & Hc).
      split; [lia|]. split; [|auto].
      replace (j - i)%nat with (S (j - S i)) by lia. exact Hnth.
Qed.

(** Fulfilling the order of a customer that was not served serves one
    more customer and keeps the number of customers. *)
Lemma fulfillAt_served (cs : list Customer) :
  forall (i : nat) (c : Customer),
    nth_error cs i = Some c -> isOrderFulfilled c = false ->
    served (fulfillAt i cs) = S (served cs)
    /\ List.length (fulfillAt i cs) = List.length cs.
Proof.
  unfold served.
  induction cs as [|c0 cs IH]; intros i c Hnth Hf.
  - destruct i; discriminate.
  - destruct i as [|i]; cbn in Hnth.
    + inversion Hnth; subst. cbn [fulfillAt filter].
      unfold isOrderFulfilled in *. cbn [fulfillOrder orderFulfilled].
      rewrite Hf. split; reflexivity.
    + destruct (IH i c Hnth Hf) as [H1 H2].
      cbn [fulfillAt filter]. destruct (isOrderFulfilled c0); cbn [List.length];
        rewrite ?H1, ?H2; split; reflexivity.
Qed.

Lemma deliveries_app (l1 l2 : list Output) :
  deliveries (l1 ++ l2) = (deliveries l1 + deliveries l2)%nat.
Proof.
  induction l1 as [|o l1 IH]; [reflexivity|].
  destruct o; cbn; rewrite IH; reflexivity.
Qed.

(** One frame serves as many customers as it makes deliveries, none or
    one, and keeps the number of customers. *)
Lemma customerInteraction_delivers (f : Frame) (g : Game) :
  served (customers (fst (customerInteraction f g)))
  = (served (customers g) + deliveries (snd (customerInteraction f g)))%nat
  /\ List.length (customers (fst (customerInteraction f g)))
     = List.length (customers g)
  /\ (deliveries (snd (customerInteraction f g)) <= 1)%nat.
Proof.
  unfold customerInteraction, findNear.
  destruct (findNearFrom 0 (customers g) (playerPos f)) as [[i c]|] eqn:Hnear.
  - destruct (findNearFrom_spec _ _ _ _ _ Hnear) as (_ & Hnth & Hf & _).
    rewrite Nat.sub_0_r in Hnth.
    destruct (fulfillAt_served _ _ _ Hnth Hf) as [Hs Hl].
    destruct (isCurrent g i), (keyE f);
      try destruct (validateOrder c (playerIngredients f));
      cbv zeta; unfold addScore;
      cbn [fst snd customers score currentCustomer];
      rewrite ?deliveries_app; cbn [deliveries];
      rewrite ?Hs, ?Hl; repeat split; try lia.

  - destruct (currentCustomer g); cbn [fst snd customers deliveries];
      repeat split; try lia.
Qed.

(** X10. Every customer is served at most once.  Over any sequence of
    frames the number of customers stays the same and the number of
    deliveries made is exactly the number of customers newly served, so
    it is at most the number of customers that were not served at the
    start: at most eight in a new game. *)
Theorem each_customer_is_served_once (fs : list Frame) (g : Game) :
  let g' := fst (play fs g) in
  let out := snd (play fs g) in
  List.length (customers g') = List.length (customers g)
  /\ served (customers g') = (served (customers g) + deliveries out)%nat
  /\ (deliveries out <= List.length (customers g) - served (customers g))%nat
  /\ (deliveries (snd (play fs PlatformerGame.new)) <= 8)%nat.
Proof.
  cbv zeta.
  assert (H : forall fs g,
             List.length (customers (fst (play fs g))) = List.length (customers g)
             /\ served (customers (fst (play fs g)))
                = (served (customers g) + deliveries (snd (play fs g)))%nat).
  { clear. induction fs as [|f fs IH]; intros g.
    - cbn. split; lia.
    - cbn [play fst snd]. rewrite deliveries_app.
      destruct (customerInteraction_delivers f g) as (Hs & Hl & _).
      destruct (IH (fst (customerInteraction f g))) as [Hl' Hs'].
      split; lia. }
  assert (Hle : forall cs, (served cs <= List.length cs)%nat)
    by (intros cs; apply filter_length_le).
  assert (Hbound : forall fs g,
             (deliveries (snd (play fs g))
              <= List.length (customers g) - served (customers g))%nat).
  { intros fs0 g0. destruct (H fs0 g0) as [Hl Hs].
    pose proof (Hle (customers (fst (play fs0 g0)))). lia. }
  destruct (H fs g) as [Hl Hs].
  repeat split; try assumption.
  - apply Hbound.
  - apply (Hbound fs PlatformerGame.new).
Qed.

End GameDeliveries.

(* ================================================================== *)
(** * The clock on binary64 *)

Import Engine64 Vocabulary64.

(* ------------------------------------------------------------------ *)
(** ** Signs in binary64 arithmetic *)

Section Binary64Signs.

Lemma SFnonneg_leb (x : spec_float) :
  SFnonneg x = true -> SFleb (S754_zero false) x = true.
Proof.
  unfold SFleb. destruct x as [s|s| |s m e]; try destruct s; simpl;
    congruence.
Qed.

Lemma is_finite_SF (x : float) :
  is_finite x = true -> SFfinite (Prim2SF x) = true.
Proof.
  unfold is_finite, is_nan, is_infinity.
  rewrite !eqb_spec, abs_spec.
  change (Prim2SF infinity) with (S754_infinity false).
  destruct (Prim2SF x) as [s|s| |s m e]; try destruct s; simpl;
    intros H; try reflexivity; discriminate H.
Qed.

Lemma shr_1_nonneg (mrs : shr_record) :
  (0 <= shr_m mrs)%Z -> (0 <= shr_m (shr_1 mrs))%Z.
Proof.
  destruct mrs as [m r s]. simpl.
  destruct m as [|p|p]; [simpl; lia| |lia].
  destruct p; simpl; lia.
Qed.

Lemma iter_pos_nonneg (n : positive) :
  forall mrs, (0 <= shr_m mrs)%Z -> (0 <= shr_m (iter_pos shr_1 n mrs))%Z.
Proof.
  induction n as [n IH|n IH|]; intros mrs H; simpl.
  - apply IH, IH, shr_1_nonneg, H.
  - apply IH, IH, H.
  - apply shr_1_nonneg, H.
Qed.

Lemma shr_fexp_nonneg (m e : Z) (l : location) :
  (0 <= m)%Z -> (0 <= shr_m (fst (shr_fexp prec emax m e l)))%Z.
Proof.
  intros H. unfold shr_fexp, shr.
  assert (H0 : (0 <= shr_m (shr_record_of_loc m l))%Z)
    by (destruct l as [|[| |]]; exact H).
  destruct (fexp prec emax (Zdigits2 m + e) - e)%Z; simpl; try exact H0.
  apply iter_pos_nonneg, H0.
Qed.

Lemma round_nearest_even_nonneg (m : Z) (l : location) :
  (0 <= m)%Z -> (0 <= round_nearest_even m l)%Z.
Proof.
  intros H. destruct l as [|[| |]]; simpl; try lia.
  destruct (Z.even m); lia.
Qed.

(** Rounding a non-negative mantissa with a plus sign gives a zero, a
    positive number or plus infinity. *)
Lemma binary_round_aux_nonneg (m e : Z) (l : location) :
  (0 <= m)%Z -> SFnonneg (binary_round_aux prec emax false m e l) = true.
Proof.
  intros H. unfold binary_round_aux.
  pose proof (shr_fexp_nonneg m e l H) as H1.
  destruct (shr_fexp prec emax m e l) as [mrs' e']. simpl in H1.
  pose proof (round_nearest_even_nonneg (shr_m mrs') (loc_of_shr_record mrs') H1) as H2.
  pose proof (shr_fexp_nonneg _ e' loc_Exact H2) as H3.
  destruct (shr_fexp prec emax
              (round_nearest_even (shr_m mrs') (loc_of_shr_record mrs')) e' loc_Exact)
    as [mrs'' e'']. simpl in H3.
  destruct (shr_m mrs'') as [|p|p]; [reflexivity| |lia].
  destruct (e'' <=? emax - prec)%Z; reflexivity.
Qed.

Lemma binary_normalize_nonneg (m e : Z) :
  (0 <= m)%Z -> SFnonneg (binary_normalize prec emax m e false) = true.
Proof.
  intros H. destruct m as [|p|p]; [reflexivity| |lia].
  simpl. unfold binary_round.
  destruct (shl_align p e (fexp prec emax (Z.pos (digits2_pos p) + e))) as [mz ez].
  apply binary_round_aux_nonneg. lia.
Qed.

Lemma iter_xO (d m : positive) :
  Z.pos (Pos.iter xO m d) = (Z.pos m * 2 ^ Z.pos d)%Z.
Proof.
  revert m. induction d as [|d IH] using Pos.peano_ind; intros m.
  - simpl. lia.
  - rewrite Pos.iter_succ, Pos2Z.inj_succ, Z.pow_succ_r by lia.
    rewrite Pos2Z.inj_xO, IH. lia.
Qed.

(** The mantissa aligned on an exponent that is not larger. *)
Lemma shl_align_value (m : positive) (e ez : Z) :
  (ez <= e)%Z ->
  Z.pos (fst (shl_align m e ez)) = (Z.pos m * 2 ^ (e - ez))%Z.
Proof.
  intros H. unfold shl_align.
  destruct (ez - e)%Z as [|d|d] eqn:Hd; simpl.
  - replace (e - ez)%Z with 0%Z by lia. simpl. lia.
  - lia.
  - rewrite iter_xO. replace (e - ez)%Z with (Z.pos d) by lia. reflexivity.
Qed.

Lemma digits2_pos_size (m : positive) : digits2_pos m = Pos.size m.
Proof. induction m; simpl; congruence. Qed.

Lemma digits2_pos_bounds (m : positive) :
  (2 ^ (Z.pos (digits2_pos m) - 1) <= Z.pos m < 2 ^ Z.pos (digits2_pos m))%Z.
Proof.
  rewrite digits2_pos_size.
  pose proof (Pos.size_gt m) as Hgt. pose proof (Pos.size_le m) as Hle.
  apply Pos2Z.pos_lt_pos in Hgt. apply Pos2Z.pos_le_pos in Hle.
  rewrite Pos2Z.inj_pow in Hgt, Hle. rewrite Pos2Z.inj_xO in Hle.
  split; [|exact Hgt].
  replace (Z.pos (Pos.size m)) with (Z.succ (Z.pos (Pos.size m) - 1)) in Hle by lia.
  rewrite Z.pow_succ_r in Hle by lia.
  change (2 * 1)%Z with 2%Z in Hle. lia.
Qed.

(** Among valid positive numbers, a larger exponent means a larger
    value. *)
Lemma larger_exponent_larger_value (m1 m2 : positive) (e1 e2 : Z) :
  bounded prec emax m1 e1 = true ->
  bounded prec emax m2 e2 = true ->
  (e1 < e2)%Z ->
  (Z.pos m1 <= Z.pos m2 * 2 ^ (e2 - e1))%Z.
Proof.
  unfold bounded, canonical_mantissa, fexp, emin.
  intros H1 H2 Hlt.
  apply andb_prop in H1. destruct H1 as [H1 _].
  apply andb_prop in H2. destruct H2 as [H2 _].
  apply Z.eqb_eq in H1. apply Z.eqb_eq in H2.
  change prec with 53%Z in *. change emax with 1024%Z in *.
  pose proof (digits2_pos_bounds m1) as [_ Hu1].
  pose proof (digits2_pos_bounds m2) as [Hl2 _].
  assert (Hd1 : (Z.pos (digits2_pos m1) <= 53)%Z) by lia.
  assert (Hd2 : Z.pos (digits2_pos m2) = 53%Z) by lia.
  rewrite Hd2 in Hl2.
  assert (Hm1 : (Z.pos m1 < 2 ^ 53)%Z).
  { eapply Z.lt_le_trans; [exact Hu1|]. apply Z.pow_le_mono_r; lia. }
  assert (Hp : (2 ^ 1 <= 2 ^ (e2 - e1))%Z) by (apply Z.pow_le_mono_r; lia).
  change (2 ^ (53 - 1))%Z with 4503599627370496%Z in Hl2.
  change (2 ^ 53)%Z with 9007199254740992%Z in Hm1.
  change (2 ^ 1)%Z with 2%Z in Hp.
  nia.
Qed.

Lemma compare_cont_le (a b : positive) :
  match Pos.compare_cont Eq a b with Lt | Eq => true | Gt => false end = true ->
  (Z.pos a <= Z.pos b)%Z.
Proof.
  rewrite Pos.compare_cont_spec. unfold Pos.switch_Eq.
  destruct (Pos.compare_spec a b); intros Hc; try discriminate; lia.
Qed.

Lemma compare_cont_ge (a b : positive) :
  match CompOpp (Pos.compare_cont Eq a b) with
  | Lt | Eq => true | Gt => false end = true ->
  (Z.pos b <= Z.pos a)%Z.
Proof.
  rewrite Pos.compare_cont_spec. unfold Pos.switch_Eq.
  destruct (Pos.compare_spec a b); simpl; intros Hc; try discriminate; lia.
Qed.

(** The difference of two finite numbers, the first not below the
    second, is not negative. *)
Lemma SFsub_nonneg (x y : spec_float) :
  valid_binary x = true -> valid_binary y = true ->
  SFfinite x = true -> SFfinite y = true ->
  SFleb y x = true ->
  SFnonneg (SF64sub x y) = true.
Proof.
  intros Vx Vy Fx Fy Hle.
  destruct x as [sx|sx| |sx mx ex]; try discriminate;
    destruct y as [sy|sy| |sy my ey]; try discriminate.
  - destruct sx, sy; reflexivity.
  - simpl. unfold SFleb in Hle. simpl in Hle. destruct sy; [reflexivity|discriminate].
  - simpl. unfold SFleb in Hle. simpl in Hle. destruct sx; [discriminate|reflexivity].
  - unfold SF64sub, SFsub. apply binary_normalize_nonneg.
    simpl in Vx, Vy.
    rewrite !shl_align_value by lia.
    unfold SFleb, SFcompare in Hle.
    destruct sx, sy; cbv beta iota delta [cond_Zopp].
    + (* both negative *)
      revert Hle. destruct (Z.compare_spec ey ex) as [Heq|Hlt|Hgt];
        intros Hle; try discriminate.
      * subst ey. rewrite Z.min_id, Z.sub_diag. rewrite Z.pow_0_r.
        apply compare_cont_ge in Hle. lia.
      * rewrite Z.min_l by lia. rewrite Z.sub_diag. rewrite Z.pow_0_r.
        pose proof (larger_exponent_larger_value mx my ex ey Vx Vy Hgt). lia.
    + (* x negative, y positive: excluded *)
      discriminate.
    + (* x positive, y negative *)
      pose proof (Z.pow_nonneg 2 (ex - Z.min ex ey)).
      pose proof (Z.pow_nonneg 2 (ey - Z.min ex ey)). nia.
    + (* both positive *)
      revert Hle. destruct (Z.compare_spec ey ex) as [Heq|Hlt|Hgt];
        intros Hle; try discriminate.
      * subst ey. rewrite Z.min_id, Z.sub_diag. rewrite Z.pow_0_r.
        apply compare_cont_le in Hle. lia.
      * rewrite Z.min_r by lia. rewrite Z.sub_diag. rewrite Z.pow_0_r.
        pose proof (larger_exponent_larger_value my mx ey ex Vy Vx Hlt). lia.
Qed.

(** A non-negative number divided by a positive finite one is not
    negative. *)
Lemma SFdiv_nonneg (x : spec_float) (m : positive) (e : Z) :
  SFnonneg x = true ->
  SFnonneg (SF64div x (S754_finite false m e)) = true.
Proof.
  intros H. destruct x as [s|s| |s mx ex]; simpl in *; try discriminate.
  - reflexivity.
  - destruct s; [discriminate|reflexivity].
  - destruct s; [discriminate|]. simpl.
    unfold SF64div, SFdiv. simpl xorb.
    destruct (SFdiv_core_binary prec emax (Z.pos mx) ex (Z.pos m) e)
      as [[mz ez] lz] eqn:Hcore.
    apply binary_round_aux_nonneg.
    unfold SFdiv_core_binary in Hcore.
    set (s := (ex - e - Z.min (fexp prec emax
                 (Zdigits2 (Z.pos mx) + ex - (Zdigits2 (Z.pos m) + e))) (ex - e))%Z) in *.
    set (m' := match s with
               | Z.pos _ => Z.shiftl (Z.pos mx) s
               | 0%Z => Z.pos mx
               | Z.neg _ => 0%Z
               end) in *.
    assert (Hm' : (0 <= m')%Z).
    { subst m'. destruct s; try lia. apply Z.shiftl_nonneg. lia. }
    pose proof (Z_div_mod m' (Z.pos m) eq_refl) as Hdiv.
    destruct (Z.div_eucl m' (Z.pos m)) as [q r].
    injection Hcore as <- _ _. nia.
Qed.

End Binary64Signs.

Section Binary64Delta.
Local Open Scope float_scope.

(** The delta of a tick whose timestamp is not below the last one: for
    finite [lastTime <= time], [(time - lastTime) / 1000] is not below
    zero. *)
Lemma delta_nonneg (lastTime time : float) :
  is_finite lastTime = true ->
  is_finite time = true ->
  (lastTime <=? time) = true ->
  (0 <=? (time - lastTime) / 1000) = true.
Proof.
  intros Fl Ft Hle.
  rewrite leb_spec in Hle |- *. rewrite div_spec, sub_spec.
  change (Prim2SF 0) with (S754_zero false).
  apply SFnonneg_leb.
  assert (H1000 : Prim2SF 1000 = S754_finite false 8796093022208000 (-43))
    by (vm_compute; reflexivity).
  rewrite H1000.
  apply SFdiv_nonneg, SFsub_nonneg;
    auto using Prim2SF_valid, is_finite_SF.
Qed.

End Binary64Delta.

(* ------------------------------------------------------------------ *)
(** ** Values of binary64 numbers

    A finite number [(s, m, e)] is [(-1)^s * m * 2^e] with [m < 2^53]
    and [-1074 <= e <= 971]; [SF2Z] gives it as an integer multiple of
    [2^-1074].  Comparison of finite numbers is comparison of these
    integers. *)

Section Binary64Values.
Local Open Scope Z_scope.

Lemma bounded_inv (m : positive) (e : Z) :
  bounded prec emax m e = true ->
  -1074 <= e <= 971 /\ Z.pos m < 2 ^ 53 /\ (e = -1074 \/ 2 ^ 52 <= Z.pos m).
Proof.
  unfold bounded, canonical_mantissa, fexp, emin.
  change prec with 53. change emax with 1024.
  intros H. apply andb_prop in H. destruct H as [H1 H2].
  apply Z.eqb_eq in H1. apply Z.leb_le in H2.
  pose proof (digits2_pos_bounds m) as [Hl Hu].
  assert (Hd : Z.pos (digits2_pos m) <= 53) by lia.
  split; [lia|]. split.
  - eapply Z.lt_le_trans; [exact Hu|]. apply Z.pow_le_mono_r; lia.
  - destruct (Z.eq_dec e (-1074)) as [He|He]; [left; exact He|right].
    replace (Z.pos (digits2_pos m)) with 53 in Hl by lia. exact Hl.
Qed.

Lemma bounded_intro (m : positive) (e : Z) :
  -1074 <= e <= 971 -> Z.pos m < 2 ^ 53 ->
  (e = -1074 \/ 2 ^ 52 <= Z.pos m) ->
  bounded prec emax m e = true.
Proof.
  intros He Hm Hn.
  unfold bounded, canonical_mantissa, fexp, emin.
  change prec with 53. change emax with 1024.
  apply andb_true_intro. split; [|apply Z.leb_le; lia].
  apply Z.eqb_eq.
  pose proof (digits2_pos_bounds m) as [Hl Hu].
  assert (Hd : Z.pos (digits2_pos m) <= 53).
  { destruct (Z_le_gt_dec (Z.pos (digits2_pos m)) 53) as [Hle|Hgt]; [exact Hle|].
    exfalso.
    assert (2 ^ 53 <= 2 ^ (Z.pos (digits2_pos m) - 1))
      by (apply Z.pow_le_mono_r; lia).
    lia. }
  destruct Hn as [Hn|Hn]; [lia|].
  assert (53 <= Z.pos (digits2_pos m)).
  { destruct (Z_le_gt_dec 53 (Z.pos (digits2_pos m))) as [Hle|Hgt]; [exact Hle|].
    exfalso.
    assert (2 ^ Z.pos (digits2_pos m) <= 2 ^ 52)
      by (apply Z.pow_le_mono_r; lia).
    lia. }
  lia.
Qed.

Lemma pow2_pos (k : Z) : 0 <= k -> 0 < 2 ^ k.
Proof. intros H. apply Z.pow_pos_nonneg; lia. Qed.

Lemma pow2_split (a b : Z) : 0 <= a -> 0 <= b -> 2 ^ (a + b) = 2 ^ a * 2 ^ b.
Proof. intros. apply Z.pow_add_r; assumption. Qed.

Lemma mul_compare_r (n m p : Z) : 0 < p -> (n * p ?= m * p) = (n ?= m).
Proof.
  intros Hp. destruct (Z.compare_spec n m) as [H|H|H].
  - subst. apply Z.compare_refl.
  - apply Z.compare_lt_iff. nia.
  - apply Z.compare_gt_iff. nia.
Qed.

(** Among valid numbers, a larger exponent means a larger magnitude. *)
Lemma value_lt_exp (m1 m2 : positive) (e1 e2 : Z) :
  bounded prec emax m1 e1 = true ->
  bounded prec emax m2 e2 = true ->
  e1 < e2 ->
  Z.pos m1 * 2 ^ (e1 + 1074) < Z.pos m2 * 2 ^ (e2 + 1074).
Proof.
  intros B1 B2 Hlt.
  apply bounded_inv in B1. apply bounded_inv in B2.
  destruct B1 as (He1 & Hm1 & _). destruct B2 as (He2 & _ & Hn2).
  destruct Hn2 as [Hn2|Hn2]; [lia|].
  replace (e2 + 1074) with ((e2 - e1) + (e1 + 1074)) by lia.
  rewrite (pow2_split (e2 - e1) (e1 + 1074)) by lia.
  assert (Hp : 0 < 2 ^ (e1 + 1074)) by (apply pow2_pos; lia).
  assert (Hq : 2 ^ 1 <= 2 ^ (e2 - e1)) by (apply Z.pow_le_mono_r; lia).
  change (2 ^ 1) with 2 in Hq.
  change (2 ^ 52) with 4503599627370496 in Hn2.
  change (2 ^ 53) with 9007199254740992 in Hm1.
  rewrite Z.mul_assoc. apply Z.mul_lt_mono_pos_r; [exact Hp|]. nia.
Qed.

Lemma SF2Z_finite_pos (m : positive) (e : Z) :
  -1074 <= e -> 0 < Z.pos m * 2 ^ (e + 1074).
Proof. intros H. apply Z.mul_pos_pos; [lia|apply pow2_pos; lia]. Qed.

(** Comparison of finite numbers is comparison of their values. *)
Lemma SFcompare_value (a b : spec_float) :
  valid_binary a = true -> valid_binary b = true ->
  SFfinite a = true -> SFfinite b = true ->
  SFcompare a b = Some (SF2Z a ?= SF2Z b).
Proof.
  intros Va Vb Fa Fb.
  destruct a as [sa|sa| |sa ma ea]; try discriminate;
    destruct b as [sb|sb| |sb mb eb]; try discriminate; cbn [SFcompare SF2Z].
  - reflexivity.
  - cbn in Vb. pose proof (bounded_inv _ _ Vb) as (Hb & _).
    pose proof (SF2Z_finite_pos mb eb) as Hp.
    destruct sb; cbn [cond_Zopp]; f_equal; symmetry.
    + apply Z.compare_gt_iff. lia.
    + apply Z.compare_lt_iff. lia.
  - cbn in Va. pose proof (bounded_inv _ _ Va) as (Ha & _).
    pose proof (SF2Z_finite_pos ma ea) as Hp.
    destruct sa; cbn [cond_Zopp]; f_equal; symmetry.
    + apply Z.compare_lt_iff. lia.
    + apply Z.compare_gt_iff. lia.
  - cbn in Va, Vb.
    pose proof (bounded_inv _ _ Va) as (Ha & _).
    pose proof (bounded_inv _ _ Vb) as (Hb & _).
    pose proof (SF2Z_finite_pos ma ea) as Hpa.
    pose proof (SF2Z_finite_pos mb eb) as Hpb.
    destruct sa, sb; cbn [cond_Zopp]; f_equal.
    + destruct (Z.compare_spec ea eb) as [He|He|He].
      * subst eb. rewrite Pos.compare_cont_spec. unfold Pos.switch_Eq.
        rewrite Z.compare_opp.
        rewrite mul_compare_r by (apply pow2_pos; lia).
        change (Z.pos mb ?= Z.pos ma) with (mb ?= ma)%positive.
        rewrite (Pos.compare_antisym mb ma).
        destruct (mb ?= ma)%positive; reflexivity.
      * symmetry. apply Z.compare_gt_iff.
        pose proof (value_lt_exp _ _ _ _ Va Vb He). lia.
      * symmetry. apply Z.compare_lt_iff.
        pose proof (value_lt_exp _ _ _ _ Vb Va He). lia.
    + symmetry. apply Z.compare_lt_iff. lia.
    + symmetry. apply Z.compare_gt_iff. lia.
    + destruct (Z.compare_spec ea eb) as [He|He|He].
      * subst eb. rewrite Pos.compare_cont_spec. unfold Pos.switch_Eq.
        rewrite mul_compare_r by (apply pow2_pos; lia).
        change (Z.pos ma ?= Z.pos mb) with (ma ?= mb)%positive.
        destruct (ma ?= mb)%positive; reflexivity.
      * symmetry. apply Z.compare_lt_iff.
        exact (value_lt_exp _ _ _ _ Va Vb He).
      * symmetry. apply Z.compare_gt_iff.
        pose proof (value_lt_exp _ _ _ _ Vb Va He). lia.
Qed.

Lemma SFltb_value (a b : spec_float) :
  valid_binary a = true -> valid_binary b = true ->
  SFfinite a = true -> SFfinite b = true ->
  SFltb a b = (SF2Z a <? SF2Z b).
Proof.
  intros. unfold SFltb, Z.ltb. rewrite SFcompare_value by assumption.
  destruct (SF2Z a ?= SF2Z b); reflexivity.
Qed.

Lemma SFleb_value (a b : spec_float) :
  valid_binary a = true -> valid_binary b = true ->
  SFfinite a = true -> SFfinite b = true ->
  SFleb a b = (SF2Z a <=? SF2Z b).
Proof.
  intros. unfold SFleb, Z.leb. rewrite SFcompare_value by assumption.
  destruct (SF2Z a ?= SF2Z b); reflexivity.
Qed.

End Binary64Values.

(* ------------------------------------------------------------------ *)
(** ** Rounding to nearest, ties to even

    [binary_round] shifts a mantissa that has more than 53 bits to the
    right and rounds it on the bits that fall off. *)

Section Binary64Rounding.
Local Open Scope Z_scope.

Lemma iter_pos_nat {A : Type} (f : A -> A) (p : positive) :
  forall x, iter_pos f p x = Nat.iter (Pos.to_nat p) f x.
Proof.
  induction p as [p IH|p IH|]; intros x; cbn [iter_pos].
  - rewrite !IH, Pos2Nat.inj_xI.
    replace (S (2 * Pos.to_nat p))%nat with (S (Pos.to_nat p + Pos.to_nat p))%nat by lia.
    rewrite Nat.iter_succ_r, Nat.iter_add. reflexivity.
  - rewrite !IH, Pos2Nat.inj_xO.
    replace (2 * Pos.to_nat p)%nat with (Pos.to_nat p + Pos.to_nat p)%nat by lia.
    rewrite Nat.iter_add. reflexivity.
  - reflexivity.
Qed.

(** One shift to the right of a mantissa that is not negative. *)
Lemma shr_1_spec (mrs : shr_record) :
  0 <= shr_m mrs ->
  shr_1 mrs =
  Build_shr_record (shr_m mrs / 2) (Z.odd (shr_m mrs))
                   (shr_r mrs || shr_s mrs).
Proof.
  destruct mrs as [m r s]. cbn [shr_m shr_r shr_s]. intros Hm.
  rewrite <- Z.div2_div.
  destruct m as [|p|p]; [reflexivity| |lia].
  destruct p; reflexivity.
Qed.

(** [k] shifts to the right: the quotient, and the position of the
    remainder with respect to the half. *)
Lemma shr_1_iter (m0 : Z) (k : nat) :
  0 <= m0 ->
  let mrs := Nat.iter k shr_1 (Build_shr_record m0 false false) in
  let P := 2 ^ Z.of_nat k in
  shr_m mrs = m0 / P
  /\ (shr_r mrs = true <-> P <= 2 * (m0 mod P))
  /\ (shr_s mrs = true <-> m0 mod P <> 0 /\ 2 * (m0 mod P) <> P).
Proof.
  intros Hm0. induction k as [|k IH]; cbv zeta.
  - cbn [Nat.iter shr_m shr_r shr_s]. change (2 ^ Z.of_nat 0) with 1.
    rewrite Z.div_1_r, Z.mod_1_r. repeat split; try lia; try discriminate.
  - cbv zeta in IH. rewrite Nat.iter_succ.
    set (mrs := Nat.iter k shr_1 (Build_shr_record m0 false false)) in *.
    destruct IH as (Hq & Hr & Hs).
    assert (HP : 0 < 2 ^ Z.of_nat k) by (apply pow2_pos; lia).
    set (P := 2 ^ Z.of_nat k) in *.
    assert (HP' : 2 ^ Z.of_nat (S k) = P * 2).
    { rewrite Nat2Z.inj_succ, Z.pow_succ_r by lia. unfold P. lia. }
    rewrite HP'.
    assert (Hq0 : 0 <= m0 / P) by (apply Z.div_pos; lia).
    rewrite shr_1_spec by (rewrite Hq; exact Hq0).
    cbn [shr_m shr_r shr_s].
    pose proof (Z.mod_pos_bound m0 P HP) as Hrem.
    assert (Hmod : m0 mod (P * 2) = m0 mod P + P * ((m0 / P) mod 2))
      by (apply Z.rem_mul_r; lia).
    assert (Hdiv : m0 / (P * 2) = m0 / P / 2)
      by (symmetry; apply Z.div_div; lia).
    rewrite Hmod, Hdiv, Hq.
    rewrite Zmod_odd.
    split; [reflexivity|].
    destruct (Z.odd (m0 / P)) eqn:Hodd.
    + split.
      * split; [intros _; lia|reflexivity].
      * rewrite orb_true_iff, Hr, Hs. split.
        -- intros H. split; lia.
        -- intros [H1 H2].
           destruct (Z.eq_dec (2 * (m0 mod P)) P); [left; lia|right; lia].
    + split.
      * split; [discriminate|intros H; lia].
      * rewrite orb_true_iff, Hr, Hs. split.
        -- intros H. split; lia.
        -- intros [H1 H2].
           destruct (Z.eq_dec (2 * (m0 mod P)) P); [left; lia|right; lia].
Qed.

(** Shifting and rounding to nearest: the quotient when the remainder is
    at most the half, the next integer only when there is a remainder. *)
Lemma shr_round (m0 : Z) (p : positive) :
  0 <= m0 ->
  let mrs := iter_pos shr_1 p (Build_shr_record m0 false false) in
  let P := 2 ^ Z.pos p in
  let m1 := round_nearest_even (shr_m mrs) (loc_of_shr_record mrs) in
  (m1 = m0 / P /\ 2 * (m0 mod P) <= P)
  \/ (m1 = m0 / P + 1 /\ m0 mod P <> 0).
Proof.
  intros Hm0. cbv zeta. rewrite iter_pos_nat.
  pose proof (shr_1_iter m0 (Pos.to_nat p) Hm0) as H. cbv zeta in H.
  rewrite positive_nat_Z in H.
  assert (HP : 0 < 2 ^ Z.pos p) by (apply pow2_pos; lia).
  pose proof (Z.mod_pos_bound m0 _ HP) as Hrem.
  destruct (Nat.iter (Pos.to_nat p) shr_1 (Build_shr_record m0 false false))
    as [m r s].
  cbn [shr_m shr_r shr_s] in H. destruct H as (Hq & Hr & Hs).
  cbn [shr_m loc_of_shr_record].
  destruct r, s; cbn [round_nearest_even].
  - right. split; [lia|]. apply Hs. reflexivity.
  - assert (2 ^ Z.pos p <= 2 * (m0 mod 2 ^ Z.pos p)) by (apply Hr; reflexivity).
    assert (~ (m0 mod 2 ^ Z.pos p <> 0 /\ 2 * (m0 mod 2 ^ Z.pos p) <> 2 ^ Z.pos p))
      by (intros Hc; apply Hs in Hc; discriminate).
    destruct (Z.even m); [left|right]; split; lia.
  - left. split; [lia|].
    assert (~ 2 ^ Z.pos p <= 2 * (m0 mod 2 ^ Z.pos p))
      by (intros Hc; apply Hr in Hc; discriminate).
    lia.
  - left. split; [lia|].
    assert (~ 2 ^ Z.pos p <= 2 * (m0 mod 2 ^ Z.pos p))
      by (intros Hc; apply Hr in Hc; discriminate).
    lia.
Qed.

Lemma digits_unique (m : positive) (k : Z) :
  2 ^ (k - 1) <= Z.pos m < 2 ^ k -> Z.pos (digits2_pos m) = k.
Proof.
  intros [Hl Hu]. pose proof (digits2_pos_bounds m) as [Hl' Hu'].
  destruct (Z.lt_trichotomy (Z.pos (digits2_pos m)) k) as [H|[H|H]];
    [exfalso|exact H|exfalso].
  - assert (2 ^ Z.pos (digits2_pos m) <= 2 ^ (k - 1))
      by (apply Z.pow_le_mono_r; lia).
    lia.
  - destruct (Z_lt_le_dec k 0) as [Hk|Hk].
    + rewrite (Z.pow_neg_r 2 k Hk) in Hu. lia.
    + assert (2 ^ k <= 2 ^ (Z.pos (digits2_pos m) - 1))
        by (apply Z.pow_le_mono_r; lia).
      lia.
Qed.

Lemma fexp_eq (k : Z) : fexp prec emax k = Z.max (k - 53) (-1074).
Proof. reflexivity. Qed.

Lemma shl_align_exp (m : positive) (e ez : Z) :
  ez <= e -> snd (shl_align m e ez) = ez.
Proof.
  intros H. unfold shl_align.
  destruct (ez - e) as [|d|d] eqn:Hd; cbn [snd]; lia.
Qed.

Lemma shr_fexp_noshift (mz : positive) (ez : Z) :
  fexp prec emax (Z.pos (digits2_pos mz) + ez) = ez ->
  shr_fexp prec emax (Z.pos mz) ez loc_Exact =
  (Build_shr_record (Z.pos mz) false false, ez).
Proof.
  intros H. unfold shr_fexp. cbn [Zdigits2 shr_record_of_loc].
  rewrite H, Z.sub_diag. reflexivity.
Qed.

Lemma shr_fexp_shift (m : positive) (e : Z) (p : positive) :
  fexp prec emax (Z.pos (digits2_pos m) + e) - e = Z.pos p ->
  shr_fexp prec emax (Z.pos m) e loc_Exact =
  (iter_pos shr_1 p (Build_shr_record (Z.pos m) false false), e + Z.pos p).
Proof.
  intros H. unfold shr_fexp. cbn [Zdigits2 shr_record_of_loc].
  rewrite H. reflexivity.
Qed.

(** A mantissa that is canonical at its exponent is kept. *)
Lemma binary_round_aux_exact (mz : positive) (ez : Z) :
  fexp prec emax (Z.pos (digits2_pos mz) + ez) = ez ->
  binary_round_aux prec emax false (Z.pos mz) ez loc_Exact =
  if ez <=? 971 then S754_finite false mz ez else S754_infinity false.
Proof.
  intros H. unfold binary_round_aux.
  rewrite (shr_fexp_noshift mz ez H). cbv beta iota.
  cbn [shr_m loc_of_shr_record round_nearest_even].
  rewrite (shr_fexp_noshift mz ez H). cbv beta iota. cbn [shr_m].
  reflexivity.
Qed.

(** Rounding a positive integer multiple of a power of two to binary64:
    the result is the number itself when it is representable, and
    otherwise one of the two consecutive representable numbers around it,
    the lower one only if it is not farther than half their distance;
    plus infinity only above the largest finite number. *)
Lemma binary_round_spec (m : positive) (e : Z) :
  -1074 <= e ->
  let x := Z.pos m * 2 ^ (e + 1074) in
  match binary_round prec emax false m e with
  | S754_infinity false => (2 ^ 53 - 1) * 2 ^ 2045 < x
  | S754_finite false m' e' =>
      bounded prec emax m' e' = true
      /\ let v := Z.pos m' * 2 ^ (e' + 1074) in
         (Z.pos m < 2 ^ 53 -> v = x)
         /\
         (v = x
          \/ exists q E,
               2 ^ 52 <= q < 2 ^ 53 /\ -1074 <= E
               /\ q * 2 ^ (E + 1074) < x < (q + 1) * 2 ^ (E + 1074)
               /\ ((v = q * 2 ^ (E + 1074) /\ e' = E
                    /\ 2 * (x - v) <= 2 ^ (E + 1074))
                   \/ v = (q + 1) * 2 ^ (E + 1074)))
  | _ => False
  end.
Proof.
  intros He. cbv zeta.
  pose proof (digits2_pos_bounds m) as [Hl Hu].
  unfold binary_round.
  set (d := Z.pos (digits2_pos m)) in *.
  assert (Hd1 : 1 <= d) by (unfold d; lia).
  destruct (Z_le_gt_dec d 53) as [Hd|Hd].
  - (* the mantissa fits: the value is kept *)
    set (fe := fexp prec emax (d + e)).
    assert (Hfe : fe = Z.max (d + e - 53) (-1074)) by reflexivity.
    assert (Hfe_le : fe <= e) by lia.
    pose proof (shl_align_value m e fe Hfe_le) as Hmz.
    pose proof (shl_align_exp m e fe Hfe_le) as Hez.
    destruct (shl_align m e fe) as [mz ez]. cbn [fst snd] in Hmz, Hez. subst ez.
    assert (Hp1 : 0 < 2 ^ (e - fe)) by (apply pow2_pos; lia).
    assert (Hdz : Z.pos (digits2_pos mz) = d + (e - fe)).
    { apply digits_unique. rewrite Hmz. split.
      - replace (d + (e - fe) - 1) with ((d - 1) + (e - fe)) by lia.
        rewrite pow2_split by lia. apply Z.mul_le_mono_nonneg_r; lia.
      - rewrite pow2_split by lia. apply Z.mul_lt_mono_pos_r; lia. }
    assert (Hcan : fexp prec emax (Z.pos (digits2_pos mz) + fe) = fe).
    { rewrite Hdz. replace (d + (e - fe) + fe) with (d + e) by lia. reflexivity. }
    rewrite (binary_round_aux_exact mz fe Hcan).
    assert (Hval : Z.pos mz * 2 ^ (fe + 1074) = Z.pos m * 2 ^ (e + 1074)).
    { rewrite Hmz. replace (e + 1074) with ((e - fe) + (fe + 1074)) by lia.
      rewrite (pow2_split (e - fe) (fe + 1074)) by lia. ring. }
    destruct (Z.leb_spec fe 971) as [Hle|Hgt].
    + split; [|split; [intros _; exact Hval|left; exact Hval]].
      unfold bounded, canonical_mantissa.
      rewrite Hcan, Z.eqb_refl. apply Z.leb_le. exact Hle.
    + assert (Hbig : 2 ^ 2098 <= Z.pos m * 2 ^ (e + 1074)).
      { assert (H1 : 2 ^ 2098 <= 2 ^ ((d - 1) + (e + 1074)))
          by (apply Z.pow_le_mono_r; lia).
        rewrite pow2_split in H1 by lia.
        assert (0 < 2 ^ (e + 1074)) by (apply pow2_pos; lia).
        assert (2 ^ (d - 1) * 2 ^ (e + 1074) <= Z.pos m * 2 ^ (e + 1074))
          by (apply Z.mul_le_mono_nonneg_r; lia).
        lia. }
      eapply Z.lt_le_trans; [|exact Hbig].
      change (2 ^ 2098) with (2 ^ 53 * 2 ^ 2045).
      apply Z.mul_lt_mono_pos_r; [apply pow2_pos|]; lia.
  - (* the mantissa is shifted to the right and rounded *)
    assert (Hfe : fexp prec emax (d + e) = d + e - 53) by (rewrite fexp_eq; lia).
    assert (Hsh : shl_align m e (fexp prec emax (d + e)) = (m, e)).
    { unfold shl_align. rewrite Hfe.
      destruct (d + e - 53 - e) eqn:Hn; try reflexivity. lia. }
    rewrite Hsh.
    destruct (d - 53) as [|p|p] eqn:Hn; try lia.
    assert (Hshift : fexp prec emax (Z.pos (digits2_pos m) + e) - e = Z.pos p)
      by (fold d; lia).
    unfold binary_round_aux.
    rewrite (shr_fexp_shift m e p Hshift). cbv beta iota.
    pose proof (shr_round (Z.pos m) p ltac:(lia)) as Hround. cbv zeta in Hround.
    set (m1 := round_nearest_even _ _) in *.
    set (E := e + Z.pos p).
    assert (HP : 0 < 2 ^ Z.pos p) by (apply pow2_pos; lia).
    pose proof (Z.mod_pos_bound (Z.pos m) _ HP) as Hrem.
    pose proof (Z.div_mod (Z.pos m) (2 ^ Z.pos p) ltac:(lia)) as Hdm.
    set (q := Z.pos m / 2 ^ Z.pos p) in *.
    set (r := Z.pos m mod 2 ^ Z.pos p) in *.
    assert (Hq : 2 ^ 52 <= q < 2 ^ 53).
    { assert (Hdp : d = 53 + Z.pos p) by lia.
      rewrite Hdp in Hl, Hu.
      replace (53 + Z.pos p - 1) with (Z.pos p + 52) in Hl by lia.
      replace (53 + Z.pos p) with (Z.pos p + 53) in Hu by lia.
      rewrite pow2_split in Hl, Hu by lia.
      split.
      - apply Z.div_le_lower_bound; lia.
      - apply Z.div_lt_upper_bound; lia. }
    assert (HE : 2 ^ (E + 1074) = 2 ^ Z.pos p * 2 ^ (e + 1074)).
    { unfold E. replace (e + Z.pos p + 1074) with (Z.pos p + (e + 1074)) by lia.
      apply pow2_split; lia. }
    assert (Hpe : 0 < 2 ^ (e + 1074)) by (apply pow2_pos; lia).
    assert (Hx : Z.pos m * 2 ^ (e + 1074)
                 = q * 2 ^ (E + 1074) + r * 2 ^ (e + 1074)).
    { rewrite HE. rewrite Hdm at 1. ring. }
    assert (Hm1 : m1 = q \/ m1 = q + 1) by lia.
    assert (Hbigm : ~ Z.pos m < 2 ^ 53).
    { assert (2 ^ 53 <= 2 ^ (d - 1)) by (apply Z.pow_le_mono_r; lia). lia. }
    destruct (Z_lt_le_dec m1 (2 ^ 53)) as [Hsmall|Hcarry].
    + (* no carry *)
      destruct m1 as [|m'|m'] eqn:Em1; try lia.
      assert (Hdm' : Z.pos (digits2_pos m') = 53).
      { apply digits_unique. change (53 - 1) with 52. lia. }
      assert (Hcan : fexp prec emax (Z.pos (digits2_pos m') + E) = E).
      { rewrite Hdm', fexp_eq. unfold E. lia. }
      rewrite (shr_fexp_noshift m' E Hcan). cbv beta iota. cbn [shr_m].
      change (emax - prec) with 971.
      destruct (Z.leb_spec E 971) as [Hle|Hgt].
      * split.
        { unfold bounded, canonical_mantissa.
          rewrite Hcan, Z.eqb_refl. apply Z.leb_le. exact Hle. }
        split; [intros Hc; contradiction|].
        destruct Hround as [[H1 H2]|[H1 H2]].
        -- destruct (Z.eq_dec r 0) as [Hr0|Hr0].
           ++ left. rewrite Hx, Hr0, H1. ring.
           ++ right. exists q, E. split; [exact Hq|]. split; [unfold E; lia|].
              split; [rewrite Hx, HE; nia|].
              left. split; [rewrite H1; reflexivity|]. split; [reflexivity|].
              rewrite Hx, H1, HE. nia.
        -- right. exists q, E. split; [exact Hq|]. split; [unfold E; lia|].
           split; [rewrite Hx, HE; nia|].
           right. rewrite H1. reflexivity.
      * assert (Hbig : 2 ^ 2098 <= q * 2 ^ (E + 1074)).
        { assert (H1 : 2 ^ 2046 <= 2 ^ (E + 1074))
            by (apply Z.pow_le_mono_r; lia).
          change (2 ^ 2098) with (2 ^ 52 * 2 ^ 2046).
          apply Z.mul_le_mono_nonneg; lia. }
        rewrite Hx.
        assert (2 ^ 53 * 2 ^ 2045 = 2 ^ 2098) by reflexivity.
        assert (0 < 2 ^ 2045) by (apply pow2_pos; lia).
        nia.
    + (* the rounded mantissa is 2^53 *)
      assert (Hm1' : m1 = 2 ^ 53) by lia.
      assert (Hq' : q = 2 ^ 53 - 1) by lia.
      assert (Hr0 : r <> 0) by (destruct Hround as [[H1 H2]|[H1 H2]]; lia).
      rewrite Hm1'.
      assert (Hsh2 : shr_fexp prec emax (2 ^ 53) E loc_Exact
                     = (Build_shr_record (2 ^ 52) false false, E + 1)).
      { unfold shr_fexp. change (Zdigits2 (2 ^ 53)) with 54.
        rewrite fexp_eq. replace (Z.max (54 + E - 53) (-1074) - E) with 1
          by (unfold E; lia).
        reflexivity. }
      rewrite Hsh2. cbv beta iota. cbn [shr_m].
      change (2 ^ 52) with (Z.pos 4503599627370496). cbv beta iota.
      change (emax - prec) with 971.
      destruct (Z.leb_spec (E + 1) 971) as [Hle|Hgt].
      * split.
        { apply bounded_intro; [unfold E in *; lia|reflexivity|right; reflexivity]. }
        split; [intros Hc; contradiction|].
        right. exists q, E. split; [exact Hq|]. split; [unfold E; lia|].
        split; [rewrite Hx, HE; nia|].
        right. rewrite Hq'.
        replace (E + 1 + 1074) with (1 + (E + 1074)) by lia.
        rewrite (pow2_split 1 (E + 1074)) by (unfold E; lia).
        change (Z.pos 4503599627370496) with (2 ^ 52).
        change (2 ^ 53 - 1 + 1) with (2 ^ 52 * 2 ^ 1). ring.
      * rewrite Hx, Hq'.
        assert (H1 : 2 ^ 2045 <= 2 ^ (E + 1074))
          by (apply Z.pow_le_mono_r; lia).
        assert (0 < 2 ^ 2045) by (apply pow2_pos; lia).
        assert (0 < r * 2 ^ (e + 1074)) by (apply Z.mul_pos_pos; lia).
        assert ((2 ^ 53 - 1) * 2 ^ 2045 <= (2 ^ 53 - 1) * 2 ^ (E + 1074))
          by (apply Z.mul_le_mono_nonneg_l; lia).
        lia.
Qed.

End Binary64Rounding.

(* ------------------------------------------------------------------ *)
(** ** The result of rounding among the representable numbers *)

Section Binary64Nearest.
Local Open Scope Z_scope.

(** No representable number lies strictly between two consecutive
    multiples of a power of two with 53-bit quotients. *)
Lemma no_float_between (mf : positive) (ef q E : Z) :
  bounded prec emax mf ef = true ->
  2 ^ 52 <= q < 2 ^ 53 -> -1074 <= E ->
  q * 2 ^ (E + 1074) < Z.pos mf * 2 ^ (ef + 1074) ->
  (q + 1) * 2 ^ (E + 1074) <= Z.pos mf * 2 ^ (ef + 1074).
Proof.
  intros B Hq HE Hlt.
  apply bounded_inv in B. destruct B as (Hef & Hmf & _).
  assert (HpE : 0 < 2 ^ (E + 1074)) by (apply pow2_pos; lia).
  destruct (Z_le_gt_dec E ef) as [Hle|Hgt].
  - replace (ef + 1074) with ((ef - E) + (E + 1074)) in * by lia.
    rewrite (pow2_split (ef - E) (E + 1074)) in * by lia.
    assert (0 < 2 ^ (ef - E)) by (apply pow2_pos; lia).
    rewrite Z.mul_assoc in *.
    apply Z.mul_le_mono_nonneg_r; [lia|].
    apply Z.mul_lt_mono_pos_r in Hlt; lia.
  - exfalso.
    replace (E + 1074) with ((E - ef) + (ef + 1074)) in Hlt by lia.
    rewrite (pow2_split (E - ef) (ef + 1074)) in Hlt by lia.
    assert (0 < 2 ^ (ef + 1074)) by (apply pow2_pos; lia).
    assert (H1 : 2 ^ 1 <= 2 ^ (E - ef)) by (apply Z.pow_le_mono_r; lia).
    change (2 ^ 1) with 2 in H1.
    rewrite Z.mul_assoc in Hlt.
    apply Z.mul_lt_mono_pos_r in Hlt; [|lia].
    change (2 ^ 52) with 4503599627370496 in Hq.
    change (2 ^ 53) with 9007199254740992 in Hq, Hmf.
    nia.
Qed.

Lemma value_le_max (m : positive) (e : Z) :
  bounded prec emax m e = true ->
  Z.pos m * 2 ^ (e + 1074) <= (2 ^ 53 - 1) * 2 ^ 2045.
Proof.
  intros B. apply bounded_inv in B. destruct B as (He & Hm & _).
  assert (2 ^ (e + 1074) <= 2 ^ 2045) by (apply Z.pow_le_mono_r; lia).
  assert (0 < 2 ^ (e + 1074)) by (apply pow2_pos; lia).
  apply Z.mul_le_mono_nonneg; lia.
Qed.

(** Rounding a positive number that is not above a representable one:
    the result is finite, not above that number either, and when it is
    below the rounded number the difference is at most half a unit of
    its last place. *)
Lemma binary_round_below (m : positive) (e : Z) (mc : positive) (ec : Z) :
  -1074 <= e ->
  bounded prec emax mc ec = true ->
  Z.pos m * 2 ^ (e + 1074) <= Z.pos mc * 2 ^ (ec + 1074) ->
  exists m' e',
    binary_round prec emax false m e = S754_finite false m' e'
    /\ bounded prec emax m' e' = true
    /\ Z.pos m' * 2 ^ (e' + 1074) <= Z.pos mc * 2 ^ (ec + 1074)
    /\ (Z.pos m < 2 ^ 53 ->
        Z.pos m' * 2 ^ (e' + 1074) = Z.pos m * 2 ^ (e + 1074))
    /\ (Z.pos m * 2 ^ (e + 1074) <= Z.pos m' * 2 ^ (e' + 1074)
        \/ 2 * (Z.pos m * 2 ^ (e + 1074) - Z.pos m' * 2 ^ (e' + 1074))
           <= 2 ^ (e' + 1074)).
Proof.
  intros He Bc Hle.
  pose proof (binary_round_spec m e He) as H. cbv zeta in H.
  pose proof (value_le_max mc ec Bc) as Hmax.
  destruct (binary_round prec emax false m e) as [s|s| |s m' e'];
    try contradiction.
  - destruct s; [contradiction|]. lia.
  - destruct s; [contradiction|].
    destruct H as (B & Hex & Hv).
    exists m', e'. split; [reflexivity|]. split; [exact B|].
    destruct Hv as [Hv|(q & E & Hq & HE & Hbetween & Hv)].
    + split; [lia|]. split; [exact Hex|]. left. lia.
    + destruct Hv as [(Hv & HeE & Herr)|Hv].
      * split; [lia|]. split; [exact Hex|]. right. subst e'. exact Herr.
      * split.
        -- rewrite Hv. apply no_float_between; try assumption. lia.
        -- split; [exact Hex|]. left. lia.
Qed.

(** The sign is put on the rounded magnitude. *)
Lemma binary_round_opp (m : positive) (e : Z) :
  binary_round prec emax true m e = SFopp (binary_round prec emax false m e).
Proof.
  unfold binary_round. destruct (shl_align m e _) as [mz ez].
  unfold binary_round_aux.
  destruct (shr_fexp prec emax (Z.pos mz) ez loc_Exact) as [mrs' e'].
  destruct (shr_fexp prec emax _ e' loc_Exact) as [mrs'' e''].
  destruct (shr_m mrs''); try reflexivity.
  destruct (e'' <=? emax - prec); reflexivity.
Qed.

(** A valid number is its own rounding. *)
Lemma binary_round_valid (m : positive) (e : Z) :
  bounded prec emax m e = true ->
  binary_round prec emax false m e = S754_finite false m e.
Proof.
  intros B. pose proof B as B'.
  unfold bounded, canonical_mantissa in B'.
  apply andb_prop in B'. destruct B' as [Hc Hle].
  apply Z.eqb_eq in Hc. apply Z.leb_le in Hle.
  unfold binary_round, shl_align. rewrite Hc, Z.sub_diag.
  rewrite (binary_round_aux_exact m e Hc).
  change (emax - prec) with 971 in Hle.
  destruct (Z.leb_spec e 971); [reflexivity|lia].
Qed.

End Binary64Nearest.

Section Binary64Subtraction.
Local Open Scope Z_scope.

(** The difference of two finite numbers is their exact difference,
    rounded. *)
Lemma SFsub_round (a b : spec_float) :
  valid_binary a = true -> valid_binary b = true ->
  SFfinite a = true -> SFfinite b = true ->
  let D := SF2Z a - SF2Z b in
  (D = 0 /\ exists s, SF64sub a b = S754_zero s)
  \/ (0 < D /\ exists m e,
        -1074 <= e /\ Z.pos m * 2 ^ (e + 1074) = D
        /\ SF64sub a b = binary_round prec emax false m e)
  \/ (D < 0 /\ exists m e,
        -1074 <= e /\ Z.pos m * 2 ^ (e + 1074) = - D
        /\ SF64sub a b = SFopp (binary_round prec emax false m e)).
Proof.
  intros Va Vb Fa Fb. cbv zeta.
  destruct a as [sa|sa| |sa ma ea]; try discriminate;
    destruct b as [sb|sb| |sb mb eb]; try discriminate;
    cbn [SF2Z]; cbn in Va, Vb.
  - left. split; [reflexivity|]. destruct sa, sb; eexists; reflexivity.
  - pose proof (bounded_inv _ _ Vb) as (Hb & _).
    pose proof (SF2Z_finite_pos mb eb ltac:(lia)) as Hp.
    right. destruct sb; cbn [cond_Zopp]; [left|right]; (split; [lia|]);
      exists mb, eb; (split; [lia|]); (split; [lia|]);
      rewrite (binary_round_valid _ _ Vb); reflexivity.
  - pose proof (bounded_inv _ _ Va) as (Ha & _).
    pose proof (SF2Z_finite_pos ma ea ltac:(lia)) as Hp.
    right. destruct sa; cbn [cond_Zopp]; [right|left]; (split; [lia|]);
      exists ma, ea; (split; [lia|]); (split; [lia|]);
      rewrite (binary_round_valid _ _ Va); reflexivity.
  - pose proof (bounded_inv _ _ Va) as (Ha & _).
    pose proof (bounded_inv _ _ Vb) as (Hb & _).
    unfold SF64sub, SFsub.
    set (ez := Z.min ea eb).
    rewrite !shl_align_value by (unfold ez; lia).
    set (A := cond_Zopp sa (Z.pos ma * 2 ^ (ea - ez))).
    set (B := cond_Zopp sb (Z.pos mb * 2 ^ (eb - ez))).
    assert (HA : cond_Zopp sa (Z.pos ma * 2 ^ (ea + 1074)) = A * 2 ^ (ez + 1074)).
    { unfold A. replace (ea + 1074) with ((ea - ez) + (ez + 1074)) by lia.
      rewrite (pow2_split (ea - ez) (ez + 1074)) by (unfold ez; lia).
      destruct sa; cbn [cond_Zopp]; ring. }
    assert (HB : cond_Zopp sb (Z.pos mb * 2 ^ (eb + 1074)) = B * 2 ^ (ez + 1074)).
    { unfold B. replace (eb + 1074) with ((eb - ez) + (ez + 1074)) by lia.
      rewrite (pow2_split (eb - ez) (ez + 1074)) by (unfold ez; lia).
      destruct sb; cbn [cond_Zopp]; ring. }
    rewrite HA, HB.
    assert (Hp : 0 < 2 ^ (ez + 1074)) by (apply pow2_pos; unfold ez; lia).
    replace (A * 2 ^ (ez + 1074) - B * 2 ^ (ez + 1074))
      with ((A - B) * 2 ^ (ez + 1074)) by ring.
    destruct (A - B) as [|m|m] eqn:HM; cbn [binary_normalize].
    + left. split; [reflexivity|]. eexists; reflexivity.
    + right. left. split; [lia|]. exists m, ez.
      split; [unfold ez; lia|]. split; reflexivity.
    + right. right. split; [lia|]. exists m, ez.
      split; [unfold ez; lia|]. split; [lia|]. apply binary_round_opp.
Qed.

(** A valid finite number with a positive value. *)
Lemma positive_value_inv (c : spec_float) :
  SFfinite c = true -> 0 < SF2Z c ->
  exists m e, c = S754_finite false m e.
Proof.
  destruct c as [s|s| |s m e]; cbn [SFfinite SF2Z]; try discriminate; try lia.
  intros _ H. destruct s; cbn [cond_Zopp] in H.
  - pose proof (Z.pow_nonneg 2 (e + 1074) ltac:(lia)). nia.
  - exists m, e. reflexivity.
Qed.

(** When the exact difference is not above a number that is not negative
    and is below [i], the rounded difference is below [i]. *)
Lemma SFsub_ltb (a b c i : spec_float) :
  valid_binary a = true -> valid_binary b = true ->
  valid_binary c = true -> valid_binary i = true ->
  SFfinite a = true -> SFfinite b = true ->
  SFfinite c = true -> SFfinite i = true ->
  SF2Z a - SF2Z b <= SF2Z c ->
  0 <= SF2Z c -> SF2Z c < SF2Z i ->
  SFltb (SF64sub a b) i = true.
Proof.
  intros Va Vb Vc Vi Fa Fb Fc Fi Hle Hc Hci.
  destruct (positive_value_inv i Fi ltac:(lia)) as (mi & ei & ->).
  destruct (SFsub_round a b Va Vb Fa Fb) as
    [(HD & s & ->)|[(HD & m & e & He & Hm & ->)|(HD & m & e & He & Hm & ->)]].
  - reflexivity.
  - destruct (positive_value_inv c Fc ltac:(lia)) as (mc & ec & ->).
    cbn [SF2Z cond_Zopp] in *. cbn in Vc.
    destruct (binary_round_below m e mc ec He Vc ltac:(lia))
      as (m' & e' & -> & B' & Hv & _).
    rewrite SFltb_value by (assumption || reflexivity).
    cbn [SF2Z cond_Zopp]. apply Z.ltb_lt. lia.
  - pose proof (binary_round_spec m e He) as H. cbv zeta in H.
    destruct (binary_round prec emax false m e) as [s|s| |s m' e'];
      try contradiction; destruct s; try contradiction; reflexivity.
Qed.

(** The difference of two finite numbers, the second neither negative nor
    above the first: it is finite, neither negative nor above the first,
    and when it is below the exact difference the error is at most half
    a unit of its last place. *)
Lemma SFsub_pos (a b : spec_float) :
  valid_binary a = true -> valid_binary b = true ->
  SFfinite a = true -> SFfinite b = true ->
  0 <= SF2Z b <= SF2Z a ->
  valid_binary (SF64sub a b) = true
  /\ SFfinite (SF64sub a b) = true
  /\ 0 <= SF2Z (SF64sub a b) <= SF2Z a
  /\ (SF2Z a - SF2Z b <= SF2Z (SF64sub a b)
      \/ exists m e,
           SF64sub a b = S754_finite false m e
           /\ 2 * (SF2Z a - SF2Z b - SF2Z (SF64sub a b)) <= 2 ^ (e + 1074)).
Proof.
  intros Va Vb Fa Fb Hab.
  destruct (SFsub_round a b Va Vb Fa Fb) as
    [(HD & s & ->)|[(HD & m & e & He & Hm & ->)|(HD & m & e & He & Hm & _)]].
  - cbn [valid_binary SFfinite SF2Z]. repeat split; lia.
  - destruct (positive_value_inv a Fa ltac:(lia)) as (ma & ea & ->).
    cbn [SF2Z cond_Zopp] in *. cbn in Va.
    destruct (binary_round_below m e ma ea He Va ltac:(lia))
      as (m' & e' & -> & B' & Hv & _ & Herr).
    cbn [valid_binary SFfinite SF2Z cond_Zopp].
    pose proof (bounded_inv _ _ B') as (He' & _).
    pose proof (SF2Z_finite_pos m' e' ltac:(lia)).
    repeat split; try assumption; try lia.
    destruct Herr as [Herr|Herr]; [left; lia|right].
    exists m', e'. split; [reflexivity|]. lia.
  - lia.
Qed.

End Binary64Subtraction.

(* ------------------------------------------------------------------ *)
(** ** The remainder, and the distance between representable numbers *)

Section Binary64Remainder.
Local Open Scope Z_scope.

(** The remainder of two finite numbers, the second not zero, is
    representable: [%] does not round.  Its value is the remainder of the
    truncated division of the values. *)
Lemma SFrem_exact (x y : spec_float) :
  valid_binary x = true -> valid_binary y = true ->
  SFfinite x = true -> SFfinite y = true ->
  SF2Z y <> 0 ->
  valid_binary (JS64.SFrem x y) = true
  /\ SFfinite (JS64.SFrem x y) = true
  /\ SF2Z (JS64.SFrem x y) = Z.rem (SF2Z x) (SF2Z y).
Proof.
  intros Vx Vy Fx Fy Hy.
  destruct x as [sx|sx| |sx mx ex]; try discriminate;
    destruct y as [sy|sy| |sy my ey]; try discriminate;
    cbn [SF2Z] in *; try lia.
  - cbn [JS64.SFrem valid_binary SFfinite SF2Z].
    rewrite Z.rem_0_l by exact Hy. repeat split.
  - cbn in Vx, Vy.
    pose proof (bounded_inv _ _ Vx) as (Hex & Hmx & _).
    pose proof (bounded_inv _ _ Vy) as (Hey & Hmy & _).
    unfold JS64.SFrem.
    set (ez := Z.min ex ey).
    rewrite !shl_align_value by (unfold ez; lia).
    set (ax := Z.pos mx * 2 ^ (ex - ez)).
    set (ay := Z.pos my * 2 ^ (ey - ez)).
    assert (Hax : 0 < ax)
      by (apply Z.mul_pos_pos; [lia|apply pow2_pos; unfold ez; lia]).
    assert (Hay : 0 < ay)
      by (apply Z.mul_pos_pos; [lia|apply pow2_pos; unfold ez; lia]).
    assert (Hp : 0 < 2 ^ (ez + 1074)) by (apply pow2_pos; unfold ez; lia).
    assert (HA : Z.pos mx * 2 ^ (ex + 1074) = ax * 2 ^ (ez + 1074)).
    { unfold ax. replace (ex + 1074) with ((ex - ez) + (ez + 1074)) by lia.
      rewrite (pow2_split (ex - ez) (ez + 1074)) by (unfold ez; lia). ring. }
    assert (HB : Z.pos my * 2 ^ (ey + 1074) = ay * 2 ^ (ez + 1074)).
    { unfold ay. replace (ey + 1074) with ((ey - ez) + (ez + 1074)) by lia.
      rewrite (pow2_split (ey - ez) (ez + 1074)) by (unfold ez; lia). ring. }
    assert (Hsmall : ax < 2 ^ 53 \/ ay < 2 ^ 53).
    { destruct (Z_le_gt_dec ex ey) as [Hle|Hgt].
      - left. unfold ax, ez. rewrite Z.min_l by lia.
        rewrite Z.sub_diag, Z.pow_0_r. lia.
      - right. unfold ay, ez. rewrite Z.min_r by lia.
        rewrite Z.sub_diag, Z.pow_0_r. lia. }
    pose proof (Z.rem_bound_pos ax ay ltac:(lia) Hay) as Hrho.
    pose proof (Z.rem_le ax ay ltac:(lia) Hay) as Hrho'.
    assert (Hrem : Z.rem (cond_Zopp sx (Z.pos mx * 2 ^ (ex + 1074)))
                         (cond_Zopp sy (Z.pos my * 2 ^ (ey + 1074)))
                   = cond_Zopp sx (Z.rem ax ay * 2 ^ (ez + 1074))).
    { rewrite HA, HB.
      destruct sx, sy; cbn [cond_Zopp];
        rewrite ?Z.rem_opp_r, ?Z.rem_opp_l by lia;
        rewrite Z.mul_rem_distr_r by lia; reflexivity. }
    rewrite Hrem.
    destruct (Z.rem ax ay) as [|p|p] eqn:Hr; try lia.
    + replace (cond_Zopp sx 0) with 0 by (destruct sx; reflexivity).
      cbn [binary_normalize valid_binary SFfinite SF2Z].
      repeat split. destruct sx; reflexivity.
    + assert (Hle : Z.pos p * 2 ^ (ez + 1074) <= Z.pos mx * 2 ^ (ex + 1074)).
      { rewrite HA. apply Z.mul_le_mono_nonneg_r; lia. }
      destruct (binary_round_below p ez mx ex ltac:(unfold ez; lia) Vx Hle)
        as (m' & e' & Hround & B' & _ & Hexact & _).
      specialize (Hexact ltac:(lia)).
      destruct sx; cbn [cond_Zopp Z.opp binary_normalize].
      * rewrite binary_round_opp, Hround.
        cbn [SFopp negb valid_binary SFfinite SF2Z cond_Zopp].
        repeat split; [exact B'|lia].
      * rewrite Hround.
        cbn [valid_binary SFfinite SF2Z cond_Zopp].
        repeat split; [exact B'|lia].
Qed.

(** Two representable positive numbers, the first below the second: they
    are at least one unit of the last place of the first apart, and the
    exponent of the second is not below that of the first. *)
Lemma float_gap (m1 m2 : positive) (e1 e2 : Z) :
  bounded prec emax m1 e1 = true ->
  bounded prec emax m2 e2 = true ->
  Z.pos m1 * 2 ^ (e1 + 1074) < Z.pos m2 * 2 ^ (e2 + 1074) ->
  e1 <= e2
  /\ 2 ^ (e1 + 1074) <= Z.pos m2 * 2 ^ (e2 + 1074) - Z.pos m1 * 2 ^ (e1 + 1074).
Proof.
  intros B1 B2 Hlt.
  assert (He : e1 <= e2).
  { destruct (Z_le_gt_dec e1 e2) as [H|H]; [exact H|exfalso].
    pose proof (value_lt_exp m2 m1 e2 e1 B2 B1 ltac:(lia)). lia. }
  split; [exact He|].
  pose proof (bounded_inv _ _ B1) as (He1 & _).
  assert (Hp : 0 < 2 ^ (e1 + 1074)) by (apply pow2_pos; lia).
  assert (Hq : 0 < 2 ^ (e2 - e1)) by (apply pow2_pos; lia).
  replace (e2 + 1074) with ((e2 - e1) + (e1 + 1074)) in * by lia.
  rewrite (pow2_split (e2 - e1) (e1 + 1074)) in * by lia.
  rewrite Z.mul_assoc in *.
  apply Z.mul_lt_mono_pos_r in Hlt; [|exact Hp].
  nia.
Qed.

End Binary64Remainder.

Section Binary64Pacing.
Local Open Scope Z_scope.

(** The pacing step on binary64 numbers.  When the tick at [time] is due,
    the new frame time [time - (elapsed % interval)] is finite and not
    negative, and every later timestamp at which a tick is due again is
    not below [time]. *)
Lemma SF_pacing_step (time lft interval : spec_float) :
  valid_binary time = true -> valid_binary lft = true ->
  valid_binary interval = true ->
  SFfinite time = true -> SFfinite lft = true -> SFfinite interval = true ->
  0 <= SF2Z lft -> 0 < SF2Z interval ->
  SFltb (SF64sub time lft) interval = false ->
  let lft' := SF64sub time (JS64.SFrem (SF64sub time lft) interval) in
  valid_binary lft' = true /\ SFfinite lft' = true /\ 0 <= SF2Z lft'
  /\ forall t2 : spec_float,
       valid_binary t2 = true -> SFfinite t2 = true ->
       SFltb (SF64sub t2 lft') interval = false ->
       SF2Z time <= SF2Z t2.
Proof.
  intros Vt Vl Vi Ft Fl Fi Hl Hi Hdue. cbv zeta.
  assert (Hgt : SF2Z lft < SF2Z time).
  { destruct (Z_lt_le_dec (SF2Z lft) (SF2Z time)) as [H|H]; [exact H|exfalso].
    rewrite (SFsub_ltb time lft (S754_zero false) interval) in Hdue;
      try assumption; try reflexivity; try discriminate.
    cbn [SF2Z]. lia. }
  destruct (SFsub_pos time lft Vt Vl Ft Fl ltac:(lia)) as (Ve & Fe & He & _).
  set (el := SF64sub time lft) in *.
  rewrite (SFltb_value el interval Ve Vi Fe Fi) in Hdue.
  apply Z.ltb_ge in Hdue.
  destruct (SFrem_exact el interval Ve Vi Fe Fi ltac:(lia)) as (Vr & Fr & Hr).
  set (r := JS64.SFrem el interval) in *.
  pose proof (Z.rem_bound_pos (SF2Z el) (SF2Z interval) ltac:(lia) Hi) as Hrb.
  pose proof (Z.rem_le (SF2Z el) (SF2Z interval) ltac:(lia) Hi) as Hrl.
  rewrite <- Hr in Hrb, Hrl.
  destruct (SFsub_pos time r Vt Vr Ft Fr ltac:(lia)) as (VL & FL & HL & Herr).
  set (L := SF64sub time r) in *.
  split; [exact VL|]. split; [exact FL|]. split; [lia|].
  intros t2 V2 F2 Hdue2.
  destruct (Z_lt_le_dec (SF2Z t2) (SF2Z time)) as [Hlt|Hge]; [exfalso|exact Hge].
  rewrite (SFsub_ltb t2 L r interval) in Hdue2;
    try assumption; try discriminate; try lia.
  destruct (Z_le_gt_dec (SF2Z t2) (SF2Z L)) as [H2L|H2L]; [lia|].
  destruct Herr as [Herr|(mL & eL & EL & Herr)]; [lia|].
  destruct (positive_value_inv t2 F2 ltac:(lia)) as (m2 & e2 & E2).
  destruct (positive_value_inv time Ft ltac:(lia)) as (mT & eT & ET).
  rewrite EL, E2, ET in *. cbn [SF2Z cond_Zopp valid_binary] in *.
  destruct (float_gap mL m2 eL e2 VL V2 ltac:(lia)) as [HeL _].
  destruct (float_gap m2 mT e2 eT V2 Vt Hlt) as [_ Hgap].
  pose proof (bounded_inv _ _ VL) as (HeLb & _).
  assert (2 ^ (eL + 1074) <= 2 ^ (e2 + 1074)) by (apply Z.pow_le_mono_r; lia).
  assert (0 < 2 ^ (eL + 1074)) by (apply pow2_pos; lia).
  lia.
Qed.

End Binary64Pacing.

Section Binary64Clock.
Local Open Scope float_scope.

Lemma SF_is_finite (x : float) :
  SFfinite (Prim2SF x) = true -> is_finite x = true.
Proof.
  unfold is_finite, is_nan, is_infinity.
  rewrite !eqb_spec, abs_spec.
  change (Prim2SF infinity) with (S754_infinity false).
  destruct (Prim2SF x) as [s|s| |s m e]; try discriminate; intros _.
  - destruct s; reflexivity.
  - unfold SFeqb, SFabs, SFcompare.
    rewrite Z.compare_refl, Pos.compare_cont_refl.
    destruct s; reflexivity.
Qed.

(** The pacing step on JavaScript numbers. *)
Lemma pacing_step (time lft interval : float) :
  is_finite time = true -> is_finite lft = true ->
  is_finite interval = true ->
  (0 <=? lft) = true -> (0 <? interval) = true ->
  (time - lft <? interval) = false ->
  let lft' := time - JS64.rem (time - lft) interval in
  is_finite lft' = true /\ (0 <=? lft') = true
  /\ forall t2 : float,
       is_finite t2 = true ->
       (t2 - lft' <? interval) = false ->
       (time <=? t2) = true.
Proof.
  intros Ft Fl Fi Hl Hi Hdue. cbv zeta.
  apply is_finite_SF in Ft, Fl, Fi.
  pose proof (Prim2SF_valid time) as Vt.
  pose proof (Prim2SF_valid lft) as Vl.
  pose proof (Prim2SF_valid interval) as Vi.
  rewrite leb_spec in Hl. rewrite ltb_spec in Hi.
  change (Prim2SF 0) with (S754_zero false) in Hl, Hi.
  rewrite SFleb_value in Hl by (assumption || reflexivity).
  rewrite SFltb_value in Hi by (assumption || reflexivity).
  apply Z.leb_le in Hl. apply Z.ltb_lt in Hi. cbn [SF2Z] in Hl, Hi.
  rewrite ltb_spec, sub_spec in Hdue.
  destruct (SF_pacing_step _ _ _ Vt Vl Vi Ft Fl Fi Hl Hi Hdue)
    as (VL & FL & HL & Hnext).
  assert (Erem : Prim2SF (JS64.rem (time - lft) interval)
                 = JS64.SFrem (SF64sub (Prim2SF time) (Prim2SF lft))
                              (Prim2SF interval)).
  { unfold JS64.rem. rewrite sub_spec.
    apply Prim2SF_SF2Prim.
    assert (Hgt : (SF2Z (Prim2SF lft) < SF2Z (Prim2SF time))%Z).
    { destruct (Z_lt_le_dec (SF2Z (Prim2SF lft)) (SF2Z (Prim2SF time)))
        as [H|H]; [exact H|exfalso].
      rewrite (SFsub_ltb _ _ (S754_zero false) _) in Hdue;
        try assumption; try reflexivity; try discriminate.
      cbn [SF2Z]. lia. }
    destruct (SFsub_pos _ _ Vt Vl Ft Fl ltac:(lia)) as (Ve & Fe & _).
    apply SFrem_exact; try assumption. lia. }
  assert (EL : Prim2SF (time - JS64.rem (time - lft) interval)
               = SF64sub (Prim2SF time)
                   (JS64.SFrem (SF64sub (Prim2SF time) (Prim2SF lft))
                               (Prim2SF interval)))
    by (rewrite sub_spec, Erem; reflexivity).
  split; [apply SF_is_finite; rewrite EL; exact FL|].
  split.
  - rewrite leb_spec, EL. change (Prim2SF 0) with (S754_zero false).
    rewrite SFleb_value by (assumption || reflexivity).
    apply Z.leb_le. exact HL.
  - intros t2 F2 Hdue2. apply is_finite_SF in F2.
    rewrite ltb_spec, sub_spec, EL in Hdue2.
    rewrite leb_spec, SFleb_value by (assumption || apply Prim2SF_valid).
    apply Z.leb_le. apply Hnext; try assumption. apply Prim2SF_valid.
Qed.

(** [%] on JavaScript numbers does not round: for finite operands, the
    second not zero, the result is finite and its value is the remainder
    of the truncated division of the values. *)
Lemma rem_exact (x y : float) :
  is_finite x = true -> is_finite y = true -> (y =? 0) = false ->
  is_finite (JS64.rem x y) = true
  /\ SF2Z (Prim2SF (JS64.rem x y))
     = Z.rem (SF2Z (Prim2SF x)) (SF2Z (Prim2SF y)).
Proof.
  intros Fx Fy Hy.
  apply is_finite_SF in Fx, Fy.
  pose proof (Prim2SF_valid x) as Vx.
  pose proof (Prim2SF_valid y) as Vy.
  assert (Hy0 : SF2Z (Prim2SF y) <> 0%Z).
  { rewrite eqb_spec in Hy. change (Prim2SF 0) with (S754_zero false) in Hy.
    destruct (Prim2SF y) as [s|s| |s m e]; try discriminate.
    cbn in Vy. pose proof (bounded_inv _ _ Vy) as (He & _).
    pose proof (SF2Z_finite_pos m e ltac:(lia)).
    cbn [SF2Z]. destruct s; cbn [cond_Zopp]; lia. }
  destruct (SFrem_exact _ _ Vx Vy Fx Fy Hy0) as (Vr & Fr & Hr).
  unfold JS64.rem. rewrite (Prim2SF_SF2Prim _ Vr) in *.
  split; [|exact Hr].
  apply SF_is_finite. rewrite (Prim2SF_SF2Prim _ Vr). exact Fr.
Qed.

End Binary64Clock.

(* ------------------------------------------------------------------ *)
(** ** Case analysis of the binary64 engine *)

(** Name the fields of a world. *)
Ltac split_world64 w :=
  destruct w as [[sc cam rd gm lt aid cfg lost fps fi lft] win raf].

(** Split on the condition of the first branch that blocks evaluation. *)
Ltac step_case64 :=
  match goal with
  | |- context [match ?x with _ => _ end] =>
      match type of x with
      | bool => destruct x eqn:?
      | option _ => destruct x eqn:?
      | FrameOracle => destruct x
      | Game => destruct x
      end
  | H : context [match ?x with _ => _ end] |- _ =>
      match type of x with
      | bool => destruct x eqn:?
      | option _ => destruct x eqn:?
      | FrameOracle => destruct x
      | Game => destruct x
      end
  end.

(** Run a method on a world with named fields, branch by branch. *)
Ltac crunch64 :=
  repeat first
    [ progress (cbn in *)
    | progress (unfold tryCatch, render, onRenderError, when, bind, emit,
                modify, throw, ret in * )
    | step_case64 ].

Section Pacing64.
Local Open Scope float_scope.

(** A callback that finds the context flagged lost, or dead at the
    validity check, does none of the work of a tick and leaves the clock
    alone, whatever its timestamp. *)
Lemma animate64_without_context (time : float) (o : FrameOracle) (w : World) :
  isContextLost (engine w) = true \/ glLostBefore o = true ->
  noTickWork (effectsOf (animate time o w))
  /\ lastFrameTime (engine (worldOf (animate time o w))) = lastFrameTime (engine w)
  /\ lastTime (engine (worldOf (animate time o w))) = lastTime (engine w).
Proof.
  intros H. split_world64 w. destruct o as [b1 b2 b3 b4].
  unfold noTickWork, effectsOf, worldOf, animate. cbn in H.
  crunch64; try (destruct H; discriminate); repeat split.
Qed.

(** A callback that comes before the frame interval has elapsed does none
    of the work of a tick and leaves the clock alone. *)
Lemma animate64_not_due (time : float) (o : FrameOracle) (w : World) :
  (time - lastFrameTime (engine w) <? frameInterval (engine w)) = true ->
  noTickWork (effectsOf (animate time o w))
  /\ lastFrameTime (engine (worldOf (animate time o w))) = lastFrameTime (engine w)
  /\ lastTime (engine (worldOf (animate time o w))) = lastTime (engine w).
Proof.
  intros H. split_world64 w. destruct o as [b1 b2 b3 b4].
  unfold noTickWork, effectsOf, worldOf, animate. cbn in H.
  crunch64; try congruence; repeat split.
Qed.

(** A tick that is due, on a live context. *)
Lemma animate64_due (time : float) (o : FrameOracle) (w : World) :
  isContextLost (engine w) = false ->
  glLostBefore o = false ->
  (time - lastFrameTime (engine w) <? frameInterval (engine w)) = false ->
  exists tail,
    effectsOf (animate time o w) =
    (RequestAnimationFrame (S (rafCounter w))
       :: updateCall (game (engine w))
            (if JS64.truthy (lastTime (engine w))
             then (time - lastTime (engine w)) / 1000 else 0)
       ++ InputResetMouseDelta :: RendererRender :: tail)%list
    /\ existsb isTickWork tail = false
    /\ lastFrameTime (engine (worldOf (animate time o w))) =
       time - JS64.rem (time - lastFrameTime (engine w)) (frameInterval (engine w))
    /\ lastTime (engine (worldOf (animate time o w))) = time.
Proof.
  intros H1 H2 H3. split_world64 w. destruct o as [b1 b2 b3 b4].
  cbn in H1, H2, H3. subst.
  unfold effectsOf, worldOf, animate, bind, requestAnimationFrame, modify, this.
  cbn. rewrite H3.
  destruct gm as [g|], (background sc), b2, b3, b4; cbn;
    eexists; (split; [reflexivity|]); repeat split.
Qed.

End Pacing64.

(* ------------------------------------------------------------------ *)
(** ** Frame pacing *)

Section FramePacing64.
Local Open Scope float_scope.

(** C2, as amended. For every callback timestamp, with
    [elapsed = time - lastFrameTime] computed on binary64 numbers: if
    [elapsed] is strictly below the frame interval, the callback makes no
    game update, no input reset and no draw call, and [lastFrameTime] is
    unchanged.  Otherwise the outcome depends on the context.  When it is
    neither flagged lost nor found lost at the validity check, the tick
    advances: the update of the active game, the input reset and the draw
    call are made in this order and [lastFrameTime] becomes
    [time - (elapsed % frameInterval)].  When it is flagged lost or found
    lost, the callback does none of the work of a tick and leaves
    [lastFrameTime], however large [elapsed] is.  The remainder is the
    binary64 one: for finite operands, the second not zero, it is finite
    and its value is exactly the remainder of the truncated division of
    the values; [50 % (1000 / 60)] is 16.666666666666664, and the
    callback at 50 of a session at 60 frames per second leaves
    33.333333333333336 in [lastFrameTime], not 50; at 30 frames per
    second the callback at 100 leaves 66.66666666666667. *)
Theorem animate64_frame_pacing (time : float) (o : FrameOracle) (w : World) :
  let elapsed := time - lastFrameTime (engine w) in
  let after := animate time o w in
  ((elapsed <? frameInterval (engine w)) = true ->
   noTickWork (effectsOf after)
   /\ lastFrameTime (engine (worldOf after)) = lastFrameTime (engine w))
  /\ ((elapsed <? frameInterval (engine w)) = false ->
      (isContextLost (engine w) = false /\ glLostBefore o = false ->
       exists tail,
         effectsOf after =
         (RequestAnimationFrame (S (rafCounter w))
            :: updateCall (game (engine w))
                 (if JS64.truthy (lastTime (engine w))
                  then (time - lastTime (engine w)) / 1000 else 0)
            ++ InputResetMouseDelta :: RendererRender :: tail)%list
         /\ noTickWork tail
         /\ lastFrameTime (engine (worldOf after)) =
            time - JS64.rem elapsed (frameInterval (engine w)))
      /\ (isContextLost (engine w) = true \/ glLostBefore o = true ->
          noTickWork (effectsOf after)
          /\ lastFrameTime (engine (worldOf after)) = lastFrameTime (engine w)))
  /\ (forall x y : float,
        is_finite x = true -> is_finite y = true -> (y =? 0) = false ->
        is_finite (JS64.rem x y) = true
        /\ SF2Z (Prim2SF (JS64.rem x y))
           = Z.rem (SF2Z (Prim2SF x)) (SF2Z (Prim2SF y)))
  /\ JS64.rem 50 (1000 / 60) = 16.666666666666664
  /\ JS64.rem 100 (1000 / 30) = 33.33333333333333
  /\ lastFrameTime (engine (worldOf (animate 50 healthy playing60)))
     = 33.333333333333336
  /\ lastFrameTime (engine (worldOf (animate 100 healthy playing30)))
     = 66.66666666666667.
Proof.
  cbv zeta. split; [|split; [|split; [exact rem_exact|]]].
  - intros H. destruct (animate64_not_due time o w H) as (H1 & H2 & _).
    now split.
  - intros H. split.
    + intros [Hl Hg].
      destruct (animate64_due time o w Hl Hg H) as (tail & H1 & H2 & H3 & _).
      exists tail. repeat split; assumption.
    + intros Hc.
      destruct (animate64_without_context time o w Hc) as (H1 & H2 & _).
      now split.
  - repeat split; vm_compute; reflexivity.
Qed.

(** The callback at 50 of a session at 60 frames per second advances and
    keeps the phase; the callback at 40 that follows is paced out. *)
Lemma animate64_frame_pacing_witness :
  (50 - lastFrameTime (engine playing60) <? frameInterval (engine playing60)) = false
  /\ isContextLost (engine playing60) = false
  /\ glLostBefore healthy = false
  /\ effectsOf (animate 50 healthy playing60) =
     [RequestAnimationFrame 2; GameUpdate 1 0; InputResetMouseDelta;
      RendererRender]
  /\ lastFrameTime (engine (worldOf (animate 50 healthy playing60)))
     = 50 - JS64.rem (50 - 0) (1000 / 60)
  /\ 50 - JS64.rem (50 - 0) (1000 / 60) = 33.333333333333336
  /\ (40 - 33.333333333333336 <? 1000 / 60) = true
  /\ noTickWork
       (effectsOf (animate 40 healthy (worldOf (animate 50 healthy playing60))))
  /\ lastFrameTime
       (engine (worldOf (animate 40 healthy
                           (worldOf (animate 50 healthy playing60)))))
     = 33.333333333333336.
Proof.
  pose proof (animate64_frame_pacing 50 healthy playing60) as [_ [Hdue _]].
  pose proof (animate64_frame_pacing 40 healthy
                (worldOf (animate 50 healthy playing60))) as [Hnot _].
  assert (E : (50 - lastFrameTime (engine playing60)
               <? frameInterval (engine playing60)) = false)
    by (vm_compute; reflexivity).
  destruct (Hdue E) as [Hadv _].
  destruct (Hadv (conj eq_refl eq_refl)) as (tail & _ & _ & Hlft).
  destruct (Hnot eq_refl) as [Hno Hsame].
  split; [exact E|]. split; [reflexivity|]. split; [reflexivity|].
  split; [vm_compute; reflexivity|]. split; [exact Hlft|].
  split; [vm_compute; reflexivity|]. split; [vm_compute; reflexivity|].
  split; [exact Hno|]. rewrite Hsame. vm_compute. reflexivity.
Defined.

(** With the context flagged lost a callback whose timestamp is a whole
    frame interval past the last frame does none of the work of a tick and
    leaves [lastFrameTime] at 0, where the pacing formula gives
    33.333333333333336. *)
Lemma animate64_lost_context_does_not_advance :
  let w := fst (exec [WebGLContextLost] playing60) in
  (50 - lastFrameTime (engine w) <? frameInterval (engine w)) = false
  /\ effectsOf (animate 50 healthy w) = [RequestAnimationFrame 2]
  /\ lastFrameTime (engine (worldOf (animate 50 healthy w))) = 0
  /\ 50 - JS64.rem (50 - lastFrameTime (engine w)) (frameInterval (engine w))
     = 33.333333333333336.
Proof. repeat split; vm_compute; reflexivity. Qed.

End FramePacing64.

(* ------------------------------------------------------------------ *)
(** ** Sequences of events *)

Section Traces64.
Local Open Scope float_scope.

Lemma exec64_cons (ev : Event) (evs : list Event) (w : World) :
  exec (ev :: evs) w =
  (fst (exec evs (worldOf (handle ev w))),
   (effectsOf (handle ev w) ++ snd (exec evs (worldOf (handle ev w))))%list).
Proof.
  unfold worldOf, effectsOf. cbn [exec].
  destruct (handle ev w) as [[c w1] l1]. cbn [fst snd].
  destruct (exec evs w1) as [w2 l2]. reflexivity.
Qed.

Lemma updateDeltas64_app (l1 l2 : list Effect) :
  updateDeltas (l1 ++ l2) = (updateDeltas l1 ++ updateDeltas l2)%list.
Proof.
  induction l1 as [|ef l1 IH]; [reflexivity|].
  destruct ef; cbn; rewrite ?IH; reflexivity.
Qed.

(** What one event does to the clock: nothing; or it is a call of [run],
    which zeroes it; or it is a tick that was due on a live context. *)
Lemma handle64_clock (ev : Event) (w : World) :
  (0 <? frameInterval (engine w)) = true ->
  frameInterval (engine (worldOf (handle ev w))) = frameInterval (engine w)
  /\ ((updateDeltas (effectsOf (handle ev w)) = []
       /\ lastTime (engine (worldOf (handle ev w))) = lastTime (engine w)
       /\ lastFrameTime (engine (worldOf (handle ev w))) = lastFrameTime (engine w))
      \/ (updateDeltas (effectsOf (handle ev w)) = []
          /\ lastTime (engine (worldOf (handle ev w))) = 0
          /\ lastFrameTime (engine (worldOf (handle ev w))) = 0)
      \/ (exists time o,
            ev = AnimationFrame time o
            /\ (time - lastFrameTime (engine w) <? frameInterval (engine w)) = false
            /\ lastTime (engine (worldOf (handle ev w))) = time
            /\ lastFrameTime (engine (worldOf (handle ev w))) =
               time - JS64.rem (time - lastFrameTime (engine w))
                               (frameInterval (engine w))
            /\ Forall (fun d => d = if JS64.truthy (lastTime (engine w))
                                    then (time - lastTime (engine w)) / 1000
                                    else 0)
                      (updateDeltas (effectsOf (handle ev w))))).
Proof.
  split_world64 w. unfold worldOf, effectsOf. cbn. intros Hfi.
  destruct ev as [time o| | |win'| |g o|]; try destruct o as [b1 b2 b3 b4];
    unfold handle, run, stop, animate, handleResize, onContextLost,
      onContextRestored; crunch64;
    change (0 - 0) with 0 in *; try congruence;
    (split; [reflexivity|]);
    first [ left; repeat split; reflexivity
          | right; left; repeat split; reflexivity
          | right; right; do 2 eexists; repeat split;
            try eassumption; repeat constructor ].
Qed.

End Traces64.

Section FiniteTimestamps.
Local Open Scope float_scope.

(** With both clock fields at 0, a tick is due only at timestamps that
    are not negative. *)
Lemma zero_clock (interval time : float) :
  is_finite interval = true -> (0 <? interval) = true ->
  is_finite time = true ->
  (time - 0 <? interval) = false ->
  (0 <=? time) = true.
Proof.
  intros Fi Hi Ft Hdue.
  apply is_finite_SF in Fi, Ft.
  pose proof (Prim2SF_valid time) as Vt.
  pose proof (Prim2SF_valid interval) as Vi.
  rewrite ltb_spec in Hi. change (Prim2SF 0) with (S754_zero false) in Hi.
  rewrite SFltb_value in Hi by (assumption || reflexivity).
  apply Z.ltb_lt in Hi. cbn [SF2Z] in Hi.
  rewrite ltb_spec, sub_spec in Hdue.
  change (Prim2SF 0) with (S754_zero false) in Hdue.
  rewrite leb_spec. change (Prim2SF 0) with (S754_zero false).
  rewrite SFleb_value by (assumption || reflexivity).
  apply Z.leb_le. cbn [SF2Z].
  destruct (Z_lt_le_dec (SF2Z (Prim2SF time)) 0) as [H|H]; [exfalso|exact H].
  rewrite (SFsub_ltb _ _ (S754_zero false) _) in Hdue;
    try assumption; try reflexivity; try discriminate.
  cbn [SF2Z]. lia.
Qed.

(** Every event with a finite timestamp keeps the clock invariant, and
    every [deltaTime] it hands to a game is not negative. *)
Lemma handle64_keeps_clock (ev : Event) (w : World) :
  clockInv (engine w) ->
  Forall (fun time => is_finite time = true) (timestamps [ev]) ->
  clockInv (engine (worldOf (handle ev w)))
  /\ Forall (fun d => (0 <=? d) = true) (updateDeltas (effectsOf (handle ev w))).
Proof.
  intros (Fi & Hi & Fl & Hl & Ft & Hnext) Hfin.
  destruct (handle64_clock ev w Hi) as [Hkeep Hcases].
  unfold clockInv. rewrite Hkeep.
  destruct Hcases as
    [(Hd & Hlt & Hlft) | [(Hd & Hlt & Hlft)
                         | (time & o & -> & Hdue & Hlt & Hlft & Hd)]].
  - rewrite Hd, Hlt, Hlft. split; [|constructor].
    repeat split; assumption.
  - rewrite Hd, Hlt, Hlft. split; [|constructor].
    repeat split; try assumption; try reflexivity.
    intros time Ftime Hdue. now apply (zero_clock (frameInterval (engine w))).
  - cbn [timestamps] in Hfin. inversion Hfin as [|? ? Ftime _]; subst.
    destruct (pacing_step time _ _ Ftime Fl Fi Hl Hi Hdue) as (FL & HL & Hnext').
    rewrite Hlt, Hlft. split.
    + repeat split; assumption.
    + eapply Forall_impl; [|exact Hd]. cbn beta. intros d ->.
      destruct (JS64.truthy (lastTime (engine w))); [|reflexivity].
      apply delta_nonneg; try assumption. now apply Hnext.
Qed.

Lemma timestamps_app (evs1 evs2 : list Event) :
  timestamps (evs1 ++ evs2) = (timestamps evs1 ++ timestamps evs2)%list.
Proof.
  induction evs1 as [|ev evs1 IH]; [reflexivity|].
  destruct ev; cbn [app timestamps]; rewrite IH; reflexivity.
Qed.

Lemma exec64_keeps_clock (evs : list Event) :
  forall w : World,
    clockInv (engine w) ->
    Forall (fun time => is_finite time = true) (timestamps evs) ->
    clockInv (engine (fst (exec evs w)))
    /\ Forall (fun d => (0 <=? d) = true) (updateDeltas (snd (exec evs w))).
Proof.
  induction evs as [|ev evs IH]; intros w Hinv Hfin.
  - split; [exact Hinv|constructor].
  - rewrite exec64_cons. cbn [fst snd].
    change (ev :: evs) with ([ev] ++ evs)%list in Hfin.
    rewrite timestamps_app in Hfin. apply Forall_app in Hfin.
    destruct Hfin as [Hfin1 Hfin2].
    destruct (handle64_keeps_clock ev w Hinv Hfin1) as [Hinv1 Hd1].
    destruct (IH _ Hinv1 Hfin2) as [Hinv2 Hd2].
    split; [exact Hinv2|].
    rewrite updateDeltas64_app. apply Forall_app. now split.
Qed.

Lemma new64_clock (cfg : EngineConfig) (win : Window) :
  clockInv (engine (fst (new cfg win))).
Proof.
  unfold clockInv, new. cbn.
  assert (H : forall interval : float,
             is_finite interval = true -> (0 <? interval) = true ->
             is_finite interval = true /\ (0 <? interval) = true
             /\ is_finite 0 = true /\ (0 <=? 0) = true /\ is_finite 0 = true
             /\ forall time : float,
                  is_finite time = true ->
                  (time - 0 <? interval) = false -> (0 <=? time) = true).
  { intros interval Fi Hi. repeat split; try assumption.
    intros time Ft Hdue. now apply (zero_clock interval). }
  destruct (maxPixelRatio cfg); apply H; reflexivity.
Qed.

(** C3, as amended. For every configuration and window the engine is
    constructed with, and every sequence of events after that
    (animation-frame callbacks, context signals, resizes, [run] and
    [stop] calls) whose callback timestamps are finite numbers, in any
    order, every [deltaTime] passed to a game's [update] is greater than
    or equal to 0. *)
Theorem update_delta_nonnegative_finite
        (cfg : EngineConfig) (win : Window) (evs : list Event) :
  Forall (fun time => is_finite time = true) (timestamps evs) ->
  Forall (fun deltaTime => (0 <=? deltaTime) = true)
         (updateDeltas (snd (exec evs (fst (new cfg win))))).
Proof.
  intros Hfin. apply exec64_keeps_clock; [apply new64_clock | exact Hfin].
Qed.

(** Finite timestamps that go backwards and forwards, at 30 frames per
    second: the callbacks at 50 and -7 and the one at 110 are paced out;
    the deltas handed over are 0, 0.02 and 0.02. *)
Lemma update_delta_nonnegative_finite_witness :
  let evs := [Run (mkGame 1 true) healthy; AnimationFrame 100 healthy;
              AnimationFrame 50 healthy; AnimationFrame (-7) healthy;
              AnimationFrame 120 healthy; AnimationFrame 110 healthy;
              AnimationFrame 140 healthy] in
  let log := snd (exec evs (fst (new (mkConfig None (Some 2) None)
                                     (mkWindow 800 600 3)))) in
  Forall (fun time => is_finite time = true) (timestamps evs)
  /\ Forall (fun deltaTime => (0 <=? deltaTime) = true) (updateDeltas log)
  /\ updateDeltas log = [0; 0.02; 0.02].
Proof.
  cbv zeta.
  assert (Hfin : Forall (fun time => is_finite time = true)
                   (timestamps
                      [Run (mkGame 1 true) healthy; AnimationFrame 100 healthy;
                       AnimationFrame 50 healthy; AnimationFrame (-7) healthy;
                       AnimationFrame 120 healthy; AnimationFrame 110 healthy;
                       AnimationFrame 140 healthy]))
    by (repeat constructor).
  split; [exact Hfin|]. split.
  - exact (update_delta_nonnegative_finite
             (mkConfig None (Some 2) None) (mkWindow 800 600 3) _ Hfin).
  - vm_compute. reflexivity.
Defined.

(** Timestamps that are not finite.  A callback with the timestamp
    [Infinity] advances and stores it in [lastTime]; [lastFrameTime]
    becomes [Infinity - NaN], which is NaN, so no later callback is paced
    out, and the callback at 5 hands [(5 - Infinity) / 1000], which is
    [-Infinity], to the game.  After a callback with the timestamp NaN
    no callback is paced out either, and the callback at 3 that follows
    the one at 5 hands [(3 - 5) / 1000] to the game. *)
Lemma update_delta_negative_after_infinite_timestamp :
  let w := fst (new (mkConfig None None None) (mkWindow 800 600 1)) in
  updateDeltas
    (snd (exec [Run (mkGame 1 true) healthy;
                AnimationFrame infinity healthy;
                AnimationFrame 5 healthy] w))
  = [0; neg_infinity]
  /\ (0 <=? neg_infinity) = false
  /\ updateDeltas
       (snd (exec [Run (mkGame 1 true) healthy;
                   AnimationFrame nan healthy;
                   AnimationFrame 5 healthy;
                   AnimationFrame 3 healthy] w))
     = [0; 0; -0.002]
  /\ (0 <=? -0.002) = false.
Proof. repeat split; vm_compute; reflexivity. Qed.

End FiniteTimestamps.

(* ------------------------------------------------------------------ *)
(** ** Further properties on binary64 numbers *)

Section Settings64.
Local Open Scope float_scope.

(** X11. The resize listener sets the drawing buffer to the window's size
    and the camera's aspect to its width over its height, leaves pixel
    ratio, shadow settings, clock, scene and game alone, calls the game's
    resize hook exactly when the game has one, and is idempotent: resizing
    again to the same window leaves the world as it is and makes the same
    calls. *)
Theorem resize_is_idempotent (w : World) :
  let w1 := worldOf (handleResize w) in
  (width (renderer (engine w1)) = innerWidth (window w)
   /\ height (renderer (engine w1)) = innerHeight (window w)
   /\ aspect (camera (engine w1)) = innerWidth (window w) / innerHeight (window w)
   /\ pixelRatio (renderer (engine w1)) = pixelRatio (renderer (engine w))
   /\ shadowMapEnabled (renderer (engine w1)) = shadowMapEnabled (renderer (engine w))
   /\ shadowMapType (renderer (engine w1)) = shadowMapType (renderer (engine w)))
  /\ (scene (engine w1) = scene (engine w)
      /\ game (engine w1) = game (engine w)
      /\ lastTime (engine w1) = lastTime (engine w)
      /\ lastFrameTime (engine w1) = lastFrameTime (engine w)
      /\ isContextLost (engine w1) = isContextLost (engine w))
  /\ effectsOf (handleResize w) =
     match game (engine w) with
     | Some g => if onResize g
                 then [GameOnResize (gameId g) (innerWidth (window w))
                                    (innerHeight (window w))]
                 else []
     | None => []
     end
  /\ handleResize w1 = (Normal tt, w1, effectsOf (handleResize w)).
Proof.
  split_world64 w. destruct rd, cam.
  unfold worldOf, effectsOf, handleResize.
  crunch64; try discriminate; repeat split.
Qed.

(** X12. A pixel-ratio cap that is present but falsy (0, -0 or NaN)
    selects only half of the constrained tier: the frame interval is
    1000/30 and the fog is off, as for any cap, but the pixel ratio is the
    device's, unclamped, and the shadow map is the soft one, as with no
    cap at all.  A cap that is truthy clamps the pixel ratio and selects
    the basic shadow map. *)
Theorem falsy_cap_selects_half_the_tier
        (aa sh : option bool) (win : Window) (cap : float) :
  let e := engine (fst (new (mkConfig aa (Some cap) sh) win)) in
  (frameInterval e = 1000 / 30 /\ fog (scene e) = None)
  /\ (JS64.truthy cap = false ->
      pixelRatio (renderer e) = devicePixelRatio win
      /\ (JS64.nullish sh true = true ->
          shadowMapType (renderer e) = PCFSoftShadowMap))
  /\ (JS64.truthy cap = true ->
      pixelRatio (renderer e) = JS64.min (devicePixelRatio win) cap
      /\ (JS64.nullish sh true = true ->
          shadowMapType (renderer e) = BasicShadowMap)).
Proof.
  cbv zeta. split; [split; reflexivity|].
  unfold new, applyRendererSettings, shadowTypeFor, hasPixelRatioCap,
    effectivePixelRatio.
  cbn [maxPixelRatio enableShadows engine fst renderer].
  split; intros Hcap; rewrite Hcap;
    (split; [destruct (JS64.nullish sh true); reflexivity|]);
    intros ->; reflexivity.
Qed.

Lemma falsy_cap_selects_half_the_tier_witness :
  pixelRatio
    (renderer (engine (fst (new (mkConfig None (Some 0) None)
                                (mkWindow 800 600 3))))) = 3
  /\ shadowMapType
       (renderer (engine (fst (new (mkConfig None (Some 0) None)
                                   (mkWindow 800 600 3))))) = PCFSoftShadowMap
  /\ pixelRatio
       (renderer (engine (fst (new (mkConfig None (Some 2) None)
                                   (mkWindow 800 600 3))))) = 2
  /\ shadowMapType
       (renderer (engine (fst (new (mkConfig None (Some 2) None)
                                   (mkWindow 800 600 3))))) = BasicShadowMap.
Proof.
  pose proof (falsy_cap_selects_half_the_tier None None (mkWindow 800 600 3) 0) as H0.
  pose proof (falsy_cap_selects_half_the_tier None None (mkWindow 800 600 3) 2) as H2.
  cbv zeta in H0, H2.
  destruct H0 as (_ & Hzero & _). destruct H2 as (_ & _ & Hcap).
  destruct (Hzero eq_refl) as [Hpr Hsoft].
  destruct (Hcap eq_refl) as [Hpr2 Hbasic].
  split; [exact Hpr|]. split; [apply Hsoft; reflexivity|].
  split; [rewrite Hpr2; reflexivity|apply Hbasic; reflexivity].
Defined.

End Settings64.

Section ClockFields64.
Local Open Scope float_scope.

Lemma exec64_keeps_frameInterval (evs : list Event) :
  forall w : World,
    frameInterval (engine (fst (exec evs w))) = frameInterval (engine w).
Proof.
  induction evs as [|ev evs IH]; intros w; [reflexivity|].
  rewrite exec64_cons. cbn [fst]. rewrite IH.
  split_world64 w. unfold worldOf.
  destruct ev as [time o| | |win'| |g o|]; try destruct o as [b1 b2 b3 b4];
    unfold handle, run, stop, animate, handleResize, onContextLost,
      onContextRestored; crunch64; reflexivity.
Qed.

(** X13. Along finite timestamps the clock stays finite: in every state a
    constructed engine reaches, the frame interval is the one chosen at
    construction, [lastTime] and [lastFrameTime] are finite numbers,
    [lastFrameTime] is not negative, and a tick is due only at
    timestamps that are not below [lastTime]. *)
Theorem clock_stays_finite
        (cfg : EngineConfig) (win : Window) (evs : list Event) :
  Forall (fun time => is_finite time = true) (timestamps evs) ->
  let e := engine (fst (exec evs (fst (new cfg win)))) in
  frameInterval e = match maxPixelRatio cfg with
                    | Some _ => 1000 / 30
                    | None => 1000 / 60
                    end
  /\ is_finite (lastTime e) = true
  /\ is_finite (lastFrameTime e) = true
  /\ (0 <=? lastFrameTime e) = true
  /\ forall time : float,
       is_finite time = true ->
       (time - lastFrameTime e <? frameInterval e) = false ->
       (lastTime e <=? time) = true.
Proof.
  intros Hfin. cbv zeta.
  destruct (exec64_keeps_clock evs _ (new64_clock cfg win) Hfin)
    as [(_ & _ & Fl & Hl & Ft & Hnext) _].
  split; [|repeat split; assumption].
  rewrite exec64_keeps_frameInterval. unfold new. cbn.
  destruct (maxPixelRatio cfg); reflexivity.
Qed.

Lemma clock_stays_finite_witness :
  let e := engine
             (fst (exec [Run (mkGame 1 true) healthy; AnimationFrame 50 healthy;
                         AnimationFrame 20 healthy; AnimationFrame 70 healthy]
                        (fst (new (mkConfig None None None)
                                  (mkWindow 800 600 1))))) in
  lastTime e = 70 /\ lastFrameTime e = 66.66666666666667
  /\ is_finite (lastFrameTime e) = true.
Proof.
  cbv zeta.
  assert (Hfin : Forall (fun time => is_finite time = true)
                   (timestamps
                      [Run (mkGame 1 true) healthy; AnimationFrame 50 healthy;
                       AnimationFrame 20 healthy; AnimationFrame 70 healthy]))
    by (repeat constructor).
  pose proof (clock_stays_finite (mkConfig None None None) (mkWindow 800 600 1)
                _ Hfin) as H.
  cbv zeta in H. destruct H as (_ & _ & Hl & _).
  split; [vm_compute; reflexivity|]. split; [vm_compute; reflexivity|exact Hl].
Defined.

End ClockFields64.
